(** * Keystore codec (packages/json-wallets/src.ts/keystore.ts)

    A shallow embedding of [encrypt], [decrypt] and [isKeystoreAccount] of
    the Web3 Secret Storage codec, the properties of the specification
    checked against it, and further properties that the code shows.

    Conventions of the embedding.
    - A [Uint8Array] is a [list byte]. A JavaScript string is the [string]
      of its UTF-8 bytes: positions count bytes, as the code units of an
      ASCII string are counted, and [toLowerCase] folds the letters of the
      ASCII range only; a property that rests on the folding of a name
      states it for ASCII names.
    - A Number is a binary64 value. The Numbers that the codec computes
      with come out of [parseInt]: an integer is the [Z] it equals, rounded
      to 53 significant bits where it is read; [infinity] and its opposite
      stand for the infinite Numbers; [NaN] is [None] in [option Z]. The
      numbers of a document are integers. Bitwise operators go through
      [toInt32], as ECMAScript prescribes.
    - A [throw] and a rejected promise are both [Err e]; the text of the
      source's [new Error(...)] is [message e].
    - The imported primitives (scrypt, pbkdf2, AES-CTR, Keccak, secp256k1,
      BIP-39/32, uuid, JSON) are the fields of the class [Primitives]; every
      call of a key-derivation primitive is recorded in the [log] of the
      [world], which also holds the random source and the clock.
    - The progress callback only observes the KDF and is left out. *)

From Stdlib Require Import ZArith NArith List String Ascii Bool Lia.
From Stdlib.Strings Require Import Byte.
From Stdlib Require Import DecimalString DecimalPos DecimalZ.
Import ListNotations.
Open Scope string_scope.

Set Implicit Arguments.

(** ** Bytes and strings *)

Definition bytes := list byte.

(** [arr.slice(start, end)] on a [Uint8Array]. *)
Definition slice (start end_ : nat) (b : bytes) : bytes :=
  firstn (end_ - start) (skipn start b).

(** [concat([a, b])] of @ethersproject/bytes. *)
Definition concat (parts : list bytes) : bytes := List.concat parts.

Definition lower_ascii (c : ascii) : ascii :=
  let n := N_of_ascii c in
  if ((65 <=? n) && (n <=? 90))%N then ascii_of_N (n + 32) else c.

(** [s.toLowerCase()]. *)
Fixpoint toLowerCase (s : string) : string :=
  match s with
  | EmptyString => EmptyString
  | String c r => String (lower_ascii c) (toLowerCase r)
  end.

(** The characters of [s] are ASCII. *)
Fixpoint ascii_string (s : string) : bool :=
  match s with
  | EmptyString => true
  | String c r => (N_of_ascii c <? 128)%N && ascii_string r
  end.

(** [s.substring(start)]. *)
Fixpoint substring_from (start : nat) (s : string) : string :=
  match start, s with
  | O, _ => s
  | S n, String _ r => substring_from n r
  | S _, EmptyString => EmptyString
  end.

(** [s.substring(0, n)]. *)
Fixpoint substring_to (n : nat) (s : string) : string :=
  match n, s with
  | S k, String c r => String c (substring_to k r)
  | _, _ => EmptyString
  end.

(** Truthiness of a string: the empty string is falsy. *)
Definition truthy_string (s : string) : bool :=
  match s with EmptyString => false | _ => true end.

Definition bytes_of_string (s : string) : bytes := list_byte_of_string s.

(** ** Hexadecimal *)

Definition hex_digit (n : N) : ascii :=
  if (n <? 10)%N then ascii_of_N (48 + n) else ascii_of_N (87 + n).

Definition hex_of_byte (b : byte) : string :=
  let n := Byte.to_N b in
  String (hex_digit (n / 16)) (String (hex_digit (n mod 16)) EmptyString).

Fixpoint hex_of_bytes (bs : bytes) : string :=
  match bs with
  | [] => EmptyString
  | b :: r => hex_of_byte b ++ hex_of_bytes r
  end.

Definition hex_value (c : ascii) : option N :=
  let n := N_of_ascii c in
  if ((48 <=? n) && (n <=? 57))%N then Some (n - 48)%N
  else if ((97 <=? n) && (n <=? 102))%N then Some (n - 87)%N
  else if ((65 <=? n) && (n <=? 70))%N then Some (n - 55)%N
  else None.

Definition byte_of_N (n : N) : byte :=
  match Byte.of_N n with Some b => b | None => x00 end.

Fixpoint bytes_of_hex (s : string) : option bytes :=
  match s with
  | EmptyString => Some []
  | String c1 (String c2 r) =>
      match hex_value c1, hex_value c2, bytes_of_hex r with
      | Some h, Some l, Some bs => Some (byte_of_N (16 * h + l) :: bs)
      | _, _, _ => None
      end
  | String _ EmptyString => None
  end.

Fixpoint all_hex (s : string) : bool :=
  match s with
  | EmptyString => true
  | String c r => match hex_value c with Some _ => all_hex r | None => false end
  end.

(** A [BytesLike] of @ethersproject/bytes: a byte array or a hex string. *)
Inductive BytesLike :=
| BLBytes (b : bytes)
| BLHex (s : string).

(** ** Errors *)

(** The error kinds of the specification (section 7), and the failures of
    the collaborators: [InvalidAddress] is [getAddress] refusing its
    argument, [TypeError] a method call on a value that has no such method,
    [PrimitiveFailure p] the imported primitive [p] throwing. *)
Inductive error :=
| BadJson
| AmbiguousKey
| UnsupportedKdf
| UnsupportedKdfParams
| UnsupportedKdfNValue
| UnsupportedDkLen
| UnsupportedPrf
| UnsupportedCipher
| InvalidPassword
| AddressMismatch
| MnemonicMismatch
| AddressPrivateKeyMismatch
| PathWithoutMnemonic
| InvalidIv
| InvalidUuid
| InvalidHex
| InvalidAddress
| TypeError
| PrimitiveFailure (primitive : string).

(** The text of [new Error(...)] at the throw sites of keystore.ts; the
    other errors are raised by the collaborators, with texts of their
    own. *)
Definition message (e : error) : option string :=
  match e with
  | UnsupportedKdf => Some "unsupported key-derivation function"
  | UnsupportedKdfParams =>
      Some "unsupported key-derivation function parameters"
  | UnsupportedKdfNValue =>
      Some "unsupported key-derivation function parameter value for N"
  | UnsupportedDkLen => Some "unsupported key-derivation derived-key length"
  | UnsupportedPrf => Some "unsupported prf"
  | UnsupportedCipher => Some "unsupported cipher"
  | InvalidPassword => Some "invalid password"
  | AddressMismatch => Some "address mismatch"
  | MnemonicMismatch => Some "mnemonic mismatch"
  | AddressPrivateKeyMismatch => Some "address/privateKey mismatch"
  | PathWithoutMnemonic => Some "cannot specify path without mnemonic"
  | InvalidIv => Some "invalid iv"
  | InvalidUuid => Some "invalid uuid"
  | BadJson | AmbiguousKey | InvalidHex | InvalidAddress | TypeError
  | PrimitiveFailure _ => None
  end.

(** The errors that come from a collaborator rather than from a check of
    keystore.ts. *)
Definition collaborator_error (e : error) : bool :=
  match e with
  | AmbiguousKey | InvalidHex | InvalidAddress | TypeError
  | PrimitiveFailure _ => true
  | _ => false
  end.

(** The errors of the checks that [decrypt] makes on the key-derivation
    parameters, before a key is derived. *)
Definition kdf_error (e : error) : bool :=
  match e with
  | UnsupportedKdf | UnsupportedKdfParams | UnsupportedKdfNValue
  | UnsupportedDkLen | UnsupportedPrf => true
  | _ => false
  end.

(** The errors of the checks that [getAccount] makes with the derived
    key. *)
Definition account_error (e : error) : bool :=
  match e with
  | InvalidPassword | UnsupportedCipher | AddressMismatch
  | MnemonicMismatch => true
  | _ => false
  end.

Inductive result (A : Type) :=
| Ok (a : A)
| Err (e : error).
Arguments Ok {A} a.
Arguments Err {A} e.

Definition rbind {A B} (r : result A) (k : A -> result B) : result B :=
  match r with
  | Ok a => k a
  | Err e => Err e
  end.

Definition of_option {A} (e : error) (o : option A) : result A :=
  match o with
  | Some a => Ok a
  | None => Err e
  end.

Declare Scope result_scope.
Delimit Scope result_scope with result.
Notation "'let*' x ':=' c 'in' k" := (rbind c (fun x => k))
  (at level 10, x name, c at level 100, k at level 200) : result_scope.

(** ** Hex conversions of @ethersproject/bytes *)

(** Modelled from the spec: hex values carry the [0x] prefix (section 3,
    "32-byte hex with 0x prefix") and [hexlify] of a byte array is the
    lower-case form that [encrypt] strips to store in the document. The
    function itself (@ethersproject/bytes) is not among the sources. *)
Definition hexlify (b : bytes) : string := "0x" ++ hex_of_bytes b.

(** Modelled from the spec: [hexlify] applied to a string that is already a
    hex string validates it and folds it to lower case; malformed hex is
    [InvalidHex] (section 7). *)
Definition hexlify_str (s : string) : result string :=
  match s with
  | String "0" (String "x" h) =>
      match bytes_of_hex h with
      | Some _ => Ok (toLowerCase s)
      | None => Err InvalidHex
      end
  | _ => Err InvalidHex
  end.

(** Modelled from the spec: [arrayify] passes a byte array through and
    decodes a [0x]-prefixed hex string; anything else is [InvalidHex]. *)
Definition arrayify (v : BytesLike) : result bytes :=
  match v with
  | BLBytes b => Ok b
  | BLHex (String "0" (String "x" h)) => of_option InvalidHex (bytes_of_hex h)
  | BLHex _ => Err InvalidHex
  end.

(** Truthiness of a [BytesLike] option value: only the empty string is
    falsy, an array is an object. *)
Definition truthy_byteslike (v : BytesLike) : bool :=
  match v with
  | BLBytes _ => true
  | BLHex s => truthy_string s
  end.

(** ** JSON values *)

#[local] Unset Elimination Schemes.
Inductive json :=
| JNull
| JBool (b : bool)
| JNum (z : Z)
| JStr (s : string)
| JArr (items : list json)
| JObj (fields : list (string * json)).
#[local] Set Elimination Schemes.

(** Truthiness of a value read from the document; [None] is a property
    that is not there. *)
Definition truthy (v : option json) : bool :=
  match v with
  | None | Some JNull => false
  | Some (JBool b) => b
  | Some (JNum z) => negb (z =? 0)%Z
  | Some (JStr s) => truthy_string s
  | Some (JArr _) | Some (JObj _) => true
  end.

(** [data.address]: an own property of the parsed document, by its exact
    name. *)
Fixpoint assoc (k : string) (fields : list (string * json)) : option json :=
  match fields with
  | [] => None
  | (k', v) :: r => if String.eqb k' k then Some v else assoc k r
  end.

Definition get_prop (data : json) (k : string) : option json :=
  match data with
  | JObj fields => assoc k fields
  | _ => None
  end.

(** [v.toLowerCase()] on a value of the document: a [TypeError] unless the
    value is a string. *)
Definition toLowerCase_value (v : option json) : result string :=
  match v with
  | Some (JStr s) => Ok (toLowerCase s)
  | _ => Err TypeError
  end.

(** [v === s] for a string literal [s]. *)
Definition is_string (v : option json) (s : string) : bool :=
  match v with
  | Some (JStr s') => String.eqb s' s
  | _ => false
  end.

(** *** Numbers *)

(** The infinite Number: no finite Number is as large as 2^1024. *)
Definition infinity : Z := (2 ^ 1024)%Z.

(** The binary64 value nearest to a natural number [n]: 53 significant
    bits are kept and the rest is rounded to nearest, ties to even. *)
Definition round53 (n : Z) : Z :=
  let e := (Z.log2 n - 52)%Z in
  if (e <=? 0)%Z then n
  else
    let q := Z.shiftr n e in
    let r := (n - Z.shiftl q e)%Z in
    let half := Z.shiftl 1 (e - 1) in
    Z.shiftl
      (if (half <? r)%Z || ((r =? half)%Z && Z.odd q) then q + 1 else q)%Z e.

(** The Number that an integer denotes: the nearest binary64 value, an
    infinity from 2^1024 - 2^970 on. *)
Definition number_of_Z (z : Z) : Z :=
  let m := Z.min (round53 (Z.abs z)) infinity in
  if (z <? 0)%Z then (- m)%Z else m.

(** [N - 1] on Numbers: the difference, rounded. *)
Definition js_pred (N : Z) : Z := number_of_Z (N - 1).

(** ECMAScript [ToInt32] on an integral Number; an infinity gives 0, as its
    representative 2^1024 does. *)
Definition toInt32 (z : Z) : Z := ((z + 2 ^ 31) mod 2 ^ 32 - 2 ^ 31)%Z.

(** [a & b]. *)
Definition js_and (a b : Z) : Z := Z.land (toInt32 a) (toInt32 b).

(** The white space that [parseInt] skips (WhiteSpace and LineTerminator
    of ECMAScript): the ASCII characters, and in UTF-8 the characters
    U+00A0, U+1680, U+2000 to U+200A, U+2028, U+2029, U+202F, U+205F,
    U+3000 and U+FEFF. *)
Definition is_js_space (c : ascii) : bool :=
  let n := N_of_ascii c in
  ((n =? 32) || ((9 <=? n) && (n <=? 13)))%N.

Definition is_js_space2 (c1 c2 : ascii) : bool :=
  ((N_of_ascii c1 =? 194) && (N_of_ascii c2 =? 160))%N.

Definition is_js_space3 (c1 c2 c3 : ascii) : bool :=
  let n1 := N_of_ascii c1 in
  let n2 := N_of_ascii c2 in
  let n3 := N_of_ascii c3 in
  (((n1 =? 225) && (n2 =? 154) && (n3 =? 128)) ||
   ((n1 =? 226) && (n2 =? 128) &&
    (((128 <=? n3) && (n3 <=? 138)) || (n3 =? 168) || (n3 =? 169) ||
     (n3 =? 175))) ||
   ((n1 =? 226) && (n2 =? 129) && (n3 =? 159)) ||
   ((n1 =? 227) && (n2 =? 128) && (n3 =? 128)) ||
   ((n1 =? 239) && (n2 =? 187) && (n3 =? 191)))%N.

Fixpoint skip_space (s : string) : string :=
  match s with
  | EmptyString => EmptyString
  | String c1 r1 =>
      if is_js_space c1 then skip_space r1
      else
        match r1 with
        | String c2 r2 =>
            if is_js_space2 c1 c2 then skip_space r2
            else
              match r2 with
              | String c3 r3 =>
                  if is_js_space3 c1 c2 c3 then skip_space r3 else s
              | EmptyString => s
              end
        | EmptyString => s
        end
  end.

Definition digit_value (radix : N) (c : ascii) : option N :=
  match hex_value c with
  | Some d => if (d <? radix)%N then Some d else None
  | None => None
  end.

Fixpoint parse_digits (radix : N) (s : string) (acc : option N) : option N :=
  match s with
  | EmptyString => acc
  | String c r =>
      match digit_value radix c with
      | Some d =>
          parse_digits radix r
            (Some (radix * match acc with Some a => a | None => 0 end + d)%N)
      | None => acc
      end
  end.

(** [parseInt(s)] on a string: leading white space, a sign, an optional
    [0x] and the longest run of digits, as a Number; [None] is [NaN]. *)
Definition parseInt_string (s : string) : option Z :=
  let s := skip_space s in
  let '(neg, s) :=
    match s with
    | String "-" r => (true, r)
    | String "+" r => (false, r)
    | _ => (false, s)
    end in
  let '(radix, s) :=
    match s with
    | String "0" (String "x" r) | String "0" (String "X" r) => (16%N, r)
    | _ => (10%N, s)
    end in
  match parse_digits radix s None with
  | Some n =>
      Some (number_of_Z (if neg : bool then (- Z.of_N n)%Z else Z.of_N n))
  | None => None
  end.

(** The decimal that [String(d)] prints for a Number [d] (Number::toString
    of ECMAScript): of the decimals that denote [d], one with the fewest
    significant digits, the nearest to [d] among these. The multiples of
    10^[scale] are tried from the largest scale down. *)
Fixpoint shortest_decimal (scale : nat) (d : Z) : Z :=
  let t := (10 ^ Z.of_nat scale)%Z in
  let below := (d / t * t)%Z in
  let above := (below + t)%Z in
  let below_ok := ((0 <? below) && (number_of_Z below =? d))%Z in
  let above_ok := (number_of_Z above =? d)%Z in
  if below_ok && above_ok then
    if (d - below <=? above - d)%Z then below else above
  else if below_ok then below
  else if above_ok then above
  else
    match scale with
    | O => d
    | S k => shortest_decimal k d
    end.

Fixpoint first_digit (fuel : nat) (v : Z) : Z :=
  match fuel with
  | O => v
  | S k => if (v <? 10)%Z then v else first_digit k (v / 10)
  end.

(** [parseInt(n)] on a number of the document, which stands for the Number
    nearest to it. [String(n)] is "Infinity" for an infinity; below 10^21
    it is a decimal that denotes [n]; from 10^21 on it is in exponent
    notation, of which [parseInt] reads the first digit. *)
Definition parseInt_number (z : Z) : option Z :=
  let d := number_of_Z z in
  let a := Z.abs d in
  if (a =? infinity)%Z then None
  else if (a <? 10 ^ 21)%Z then Some d
  else
    let digit := first_digit 400 (shortest_decimal 400 a) in
    Some (if (d <? 0)%Z then (- digit)%Z else digit).

(** [parseInt(v)] converts [v] to a string first: a number prints as above,
    an array as its elements joined by commas, so only its first element
    counts; [null], booleans and objects print as words. *)
Fixpoint parseInt_json (v : json) : option Z :=
  match v with
  | JNum z => parseInt_number z
  | JStr s => parseInt_string s
  | JArr (x :: _) => parseInt_json x
  | _ => None
  end.

Definition parseInt (v : option json) : option Z :=
  match v with
  | Some j => parseInt_json j
  | None => None
  end.

(** [!n] on a number: zero and [NaN] are falsy. *)
Definition falsy_number (n : option Z) : bool :=
  match n with
  | Some z => (z =? 0)%Z
  | None => true
  end.

(** ** Helpers of ./utils *)

Fixpoint split_on (sep : ascii) (s : string) : list string :=
  match s with
  | EmptyString => [EmptyString]
  | String c r =>
      if Ascii.eqb c sep then EmptyString :: split_on sep r
      else match split_on sep r with
           | h :: t => String c h :: t
           | [] => [String c EmptyString]
           end
  end.

Definition matching_children (fields : list (string * json)) (comp : string)
  : list json :=
  map snd (filter (fun kv => String.eqb (toLowerCase (fst kv)) comp) fields).

Fixpoint searchPath_from (current : json) (comps : list string)
  : result (option json) :=
  match comps with
  | [] => Ok (Some current)
  | comp :: rest =>
      match current with
      | JObj fields =>
          match matching_children fields comp with
          | [] => Ok None
          | [child] => searchPath_from child rest
          | _ :: _ :: _ => Err AmbiguousKey
          end
      | _ => Ok None
      end
  end.

(** Modelled from the spec: [searchPath] of ./utils is not among the
    sources. Section 4.B: given a JSON object and a path ["a/b/c"], traverse
    keys case-insensitively at each level; several sibling keys that differ
    only in case fail with [AmbiguousKey]; a missing segment is "not found"
    ([Ok None]), distinct from a present [null] ([Ok (Some JNull)]). *)
Definition searchPath (object : json) (path : string) : result (option json) :=
  searchPath_from object (split_on "/" (toLowerCase path)).

Definition strip_0x (s : string) : string :=
  match s with
  | String "0" (String "x" r) => r
  | _ => s
  end.

Fixpoint bytes_of_numbers (l : list json) : option bytes :=
  match l with
  | [] => Some []
  | JNum z :: r =>
      if ((0 <=? z) && (z <? 256))%Z then
        option_map (cons (byte_of_N (Z.to_N z))) (bytes_of_numbers r)
      else None
  | _ :: _ => None
  end.

(** Modelled from the spec: [looseArrayify] of ./utils is not among the
    sources. Section 4.A: accept a string that may or may not begin with
    [0x]; if odd-length after stripping the prefix, left-pad with a single
    [0]; reject non-hex characters; accept an already decoded byte array;
    fail with [InvalidHex] otherwise. *)
Definition looseArrayify (v : option json) : result bytes :=
  match v with
  | Some (JStr s) =>
      let h := strip_0x s in
      let h := if Nat.even (String.length h) then h else String "0" h in
      of_option InvalidHex (bytes_of_hex h)
  | Some (JArr l) => of_option InvalidHex (bytes_of_numbers l)
  | _ => Err InvalidHex
  end.

Inductive Password :=
| PwBytes (b : bytes)
| PwString (s : string).

(** Modelled from the spec: [getPassword] of ./utils is not among the
    sources. Section 4.A: the UTF-8 bytes if a string is given, the bytes
    themselves otherwise. *)
Definition getPassword (password : Password) : bytes :=
  match password with
  | PwString s => bytes_of_string s
  | PwBytes b => b
  end.

Definition string_of_Z (z : Z) : string := NilZero.string_of_int (Z.to_int z).

Fixpoint zeros (n : nat) : string :=
  match n with
  | O => EmptyString
  | S k => String "0" (zeros k)
  end.

(** Modelled from the spec: [zpad] of ./utils is not among the sources.
    Section 4.A: the decimal representation of [n] left-padded with ['0'] to
    [width]. *)
Definition zpad (value : Z) (width : nat) : string :=
  let s := string_of_Z value in
  zeros (width - String.length s) ++ s.

(** ** Data model *)

Record ExternallyOwnedAccount := {
  address : string;
  privateKey : string;
  mnemonic : option string;
  path : option string
}.

(** [new KeystoreAccount(account)]: the account and its class tag. *)
Record KeystoreAccount := {
  _isKeystoreAccount : bool;
  account : ExternallyOwnedAccount
}.

(** A JavaScript value, as far as [isKeystoreAccount] looks at it:
    [undefined], a value of JSON data, or an instance of
    [KeystoreAccount]. *)
Inductive value :=
| VUndefined
| VJson (j : json)
| VAccount (a : KeystoreAccount).

(** [!!(value && value._isKeystoreAccount)]. *)
Definition isKeystoreAccount (value : value) : bool :=
  match value with
  | VUndefined => false
  | VJson j => truthy (Some j) && truthy (get_prop j "_isKeystoreAccount")
  | VAccount a => _isKeystoreAccount a
  end.

Record ScryptOptions := {
  opt_N : option Z;
  opt_r : option Z;
  opt_p : option Z
}.

Record EncryptOptions := {
  opt_iv : option BytesLike;
  opt_entropy : option BytesLike;
  opt_client : option string;
  opt_salt : option BytesLike;
  opt_uuid : option string;
  opt_scrypt : option ScryptOptions
}.

(** [options = {}]. *)
Definition no_options : EncryptOptions :=
  {| opt_iv := None; opt_entropy := None; opt_client := None;
     opt_salt := None; opt_uuid := None; opt_scrypt := None |}.

(** The node that [HDNode.fromMnemonic(...).derivePath(...)] returns, as far
    as keystore.ts reads it. *)
Record HDNode := {
  node_privateKey : string;
  node_mnemonic : string;
  node_path : string
}.

(** Modelled from the spec: [defaultPath] of @ethersproject/hdnode is not
    among the sources; section 4.F gives its value. *)
Definition defaultPath : string := "m/44'/60'/0'/0/0".

(** [new Date()], as far as the UTC getters that [encrypt] calls. *)
Record Date := {
  getUTCFullYear : Z;
  getUTCMonth : Z;
  getUTCDate : Z;
  getUTCHours : Z;
  getUTCMinutes : Z;
  getUTCSeconds : Z
}.

(** ** The random source *)

(** The system random source, as the bytes that it is going to deliver, by
    position. *)
Definition RNG : Type := nat -> byte.

(** [randomBytes(n)]: the next [n] bytes, and the source after them. *)
Definition randomBytes (n : nat) (g : RNG) : bytes * RNG :=
  (map g (seq 0 n), fun i => g (n + i)%nat).

(** ** The imported primitives *)

(** [None] is the primitive throwing (or its promise rejecting). *)
Class Primitives := {
  (** scrypt-js: [scrypt(password, salt, N, r, p, dkLen)] *)
  scrypt : bytes -> bytes -> Z -> Z -> Z -> Z -> option bytes;
  (** @ethersproject/pbkdf2: [pbkdf2(password, salt, c, keylen, hash)], a
      hex string; the iteration count may be [NaN] *)
  pbkdf2 : bytes -> bytes -> option Z -> Z -> string -> option string;
  (** aes-js: [new ModeOfOperation.ctr(key, new Counter(iv)).encrypt(m)] *)
  aes_ctr_encrypt : bytes -> bytes -> bytes -> option bytes;
  aes_ctr_decrypt : bytes -> bytes -> bytes -> option bytes;
  (** the Keccak-256 digest *)
  keccak_256 : bytes -> bytes;
  (** secp256k1 public key, Keccak-256, low 20 bytes, as a checksummed
      hex address *)
  addressOf : bytes -> option string;
  (** @ethersproject/address: the EIP-55 form of an address *)
  getAddress : string -> option string;
  (** @ethersproject/hdnode *)
  mnemonicToEntropy : string -> option string;
  entropyToMnemonic : bytes -> option string;
  HDNode_fromMnemonic : string -> option HDNode;
  derivePath : HDNode -> string -> option HDNode;
  (** uuid: [uuid.v4({ random })] *)
  uuid_v4 : bytes -> string;
  JSON_parse : string -> option json;
  JSON_stringify : json -> string
}.

(** A call of a key-derivation primitive, with its arguments. *)
Inductive event :=
| ScryptCall (password salt : bytes) (N r p dkLen : Z)
| Pbkdf2Call (password salt : bytes) (c : option Z) (keylen : Z)
    (hash : string).


(** ** The codec *)

Section Codec.

Context {P : Primitives}.

(** What a call can observe and change outside its arguments: the random
    source, the clock, and the record of key-derivation calls. *)
Record world := {
  rng : RNG;
  clock : Date;
  log : list event
}.

Definition M (A : Type) : Type := world -> result A * world.

Definition ret {A} (a : A) : M A := fun w => (Ok a, w).

Definition throw {A} (e : error) : M A := fun w => (Err e, w).

Definition bind {A B} (m : M A) (k : A -> M B) : M B :=
  fun w =>
    match m w with
    | (Ok a, w') => k a w'
    | (Err e, w') => (Err e, w')
    end.

Definition lift {A} (r : result A) : M A := fun w => (r, w).

Notation "x <- c ;; k" := (bind c (fun x => k))
  (at level 61, c at next level, right associativity).

Definition record_call (e : event) (w : world) : world :=
  {| rng := rng w; clock := clock w; log := log w ++ [e] |}.

Definition random (n : nat) : M bytes :=
  fun w =>
    let '(b, g) := randomBytes n (rng w) in
    (Ok b, {| rng := g; clock := clock w; log := log w |}).

Definition new_Date : M Date := fun w => (Ok (clock w), w).

Definition call_scrypt (password salt : bytes) (N r p dkLen : Z) : M bytes :=
  fun w =>
    (of_option (PrimitiveFailure "scrypt") (scrypt password salt N r p dkLen),
     record_call (ScryptCall password salt N r p dkLen) w).

Definition call_pbkdf2 (password salt : bytes) (c : option Z) (keylen : Z)
    (hash : string) : M string :=
  fun w =>
    (of_option (PrimitiveFailure "pbkdf2") (pbkdf2 password salt c keylen hash),
     record_call (Pbkdf2Call password salt c keylen hash) w).

(** Modelled from the spec: [keccak256] of @ethersproject/keccak256 is not
    among the sources; it returns the digest as a hex string. *)
Definition keccak256 (data : bytes) : string := hexlify (keccak_256 data).

(** Modelled from the spec: [computeAddress] of @ethersproject/transactions
    is not among the sources. Section 6: [addressOf(privateKey)] returns the
    EIP-55-checksummed hex address of the key; the key is given as bytes or
    as a hex string. *)
Definition computeAddress (key : BytesLike) : result string :=
  (let* k := arrayify key in
   of_option (PrimitiveFailure "computeAddress") (addressOf k))%result.

(** [HDNode.fromMnemonic(mnemonic).derivePath(path)]. *)
Definition hdDerive (mnemonic path : string) : result HDNode :=
  (let* node :=
     of_option (PrimitiveFailure "HDNode.fromMnemonic")
       (HDNode_fromMnemonic mnemonic) in
   of_option (PrimitiveFailure "derivePath") (derivePath node path))%result.

(** [p || defaultPath]. *)
Definition or_defaultPath (p : option string) : string :=
  match p with
  | Some s => if truthy_string s then s else defaultPath
  | None => defaultPath
  end.

(** *** decrypt *)

(** The closure [decrypt] inside [decrypt]: [null] ([None]) for a cipher
    other than aes-128-ctr. *)
Definition decrypt_cipher (data : json) (key ciphertext : bytes)
  : result (option bytes) :=
  (let* cipher := searchPath data "crypto/cipher" in
   if is_string cipher "aes-128-ctr" then
     let* iv_v := searchPath data "crypto/cipherparams/iv" in
     let* iv := looseArrayify iv_v in
     let* plain :=
       of_option (PrimitiveFailure "aes-js") (aes_ctr_decrypt key iv ciphertext) in
     Ok (Some plain)
   else Ok None)%result.

Definition computeMAC (derivedHalf ciphertext : bytes) : string :=
  keccak256 (concat [derivedHalf; ciphertext]).

(** [searchPath(data, "x-ethers/path") || defaultPath], handed to
    [derivePath]: a truthy value that is not a string has no [split]. *)
Definition path_or_default (path_v : option json) : result string :=
  if truthy path_v then
    match path_v with
    | Some (JStr s) => Ok s
    | _ => Err TypeError
    end
  else Ok defaultPath.

(** The [x-ethers] part of [getAccount]. The counter and the cipher are
    built, where aes-js refuses a counter or a key of the wrong size,
    before [x-ethers/path] is read; the decryption that follows the read
    does not fail, so the one primitive [aes_ctr_decrypt] stands where the
    cipher is built. *)
Definition getMnemonic (data : json) (mnemonicKey : bytes)
    (privateKey : string) : result (string * string) :=
  (let* ct_v := searchPath data "x-ethers/mnemonicCiphertext" in
   let* mnemonicCiphertext := looseArrayify ct_v in
   let* iv_v := searchPath data "x-ethers/mnemonicCounter" in
   let* mnemonicIv := looseArrayify iv_v in
   let* entropy :=
     of_option (PrimitiveFailure "aes-js")
       (aes_ctr_decrypt mnemonicKey mnemonicIv mnemonicCiphertext) in
   let* path_v := searchPath data "x-ethers/path" in
   let* mnemonic :=
     of_option (PrimitiveFailure "entropyToMnemonic")
       (entropyToMnemonic entropy) in
   let* root :=
     of_option (PrimitiveFailure "HDNode.fromMnemonic")
       (HDNode_fromMnemonic mnemonic) in
   let* path := path_or_default path_v in
   let* node := of_option (PrimitiveFailure "derivePath") (derivePath root path) in
   if negb (String.eqb (node_privateKey node) privateKey) then
     Err MnemonicMismatch
   else Ok (node_mnemonic node, node_path node))%result.

(** The check of [data.address] in [getAccount]. *)
Definition checkAddress (data : json) (address : string) : result unit :=
  let a := get_prop data "address" in
  (if truthy a then
     let* check := toLowerCase_value a in
     let check :=
       if negb (String.eqb (substring_to 2 check) "0x") then "0x" ++ check
       else check in
     let* canonical := of_option InvalidAddress (getAddress check) in
     if negb (String.eqb canonical address) then Err AddressMismatch
     else Ok tt
   else Ok tt)%result.

Definition getAccount (data : json) (key : bytes) : result KeystoreAccount :=
  (let* ct_v := searchPath data "crypto/ciphertext" in
   let* ciphertext := looseArrayify ct_v in
   let* mac_hex := hexlify_str (computeMAC (slice 16 32 key) ciphertext) in
   let computedMAC := substring_from 2 mac_hex in
   let* mac_v := searchPath data "crypto/mac" in
   let* mac := toLowerCase_value mac_v in
   if negb (String.eqb computedMAC mac) then Err InvalidPassword
   else
     let* privateKey := decrypt_cipher data (slice 0 16 key) ciphertext in
     let mnemonicKey := slice 32 64 key in
     match privateKey with
     | None => Err UnsupportedCipher
     | Some privateKey =>
         let* address := computeAddress (BLBytes privateKey) in
         let* _ := checkAddress data address in
         let* version := searchPath data "x-ethers/version" in
         if is_string version "0.1" then
           let* mp := getMnemonic data mnemonicKey (hexlify privateKey) in
           Ok {| _isKeystoreAccount := true;
                 account := {| address := address;
                               privateKey := hexlify privateKey;
                               mnemonic := Some (fst mp);
                               path := Some (snd mp) |} |}
         else
           Ok {| _isKeystoreAccount := true;
                 account := {| address := address;
                               privateKey := hexlify privateKey;
                               mnemonic := None;
                               path := None |} |}
     end)%result.

(** The scrypt branch of [decrypt], up to the derived key. *)
Definition scryptKey (data : json) (passwordBytes : bytes) : M bytes :=
  salt_v <- lift (searchPath data "crypto/kdfparams/salt") ;;
  salt <- lift (looseArrayify salt_v) ;;
  N_v <- lift (searchPath data "crypto/kdfparams/n") ;;
  r_v <- lift (searchPath data "crypto/kdfparams/r") ;;
  p_v <- lift (searchPath data "crypto/kdfparams/p") ;;
  let N := parseInt N_v in
  let r := parseInt r_v in
  let p := parseInt p_v in
  match N, r, p with
  | Some N, Some r, Some p =>
      if (N =? 0)%Z || (r =? 0)%Z || (p =? 0)%Z then
        throw UnsupportedKdfParams
      else if negb (js_and N (js_pred N) =? 0)%Z then
        throw UnsupportedKdfNValue
      else
        dkLen_v <- lift (searchPath data "crypto/kdfparams/dklen") ;;
        let dkLen := parseInt dkLen_v in
        match dkLen with
        | Some 32%Z => call_scrypt passwordBytes salt N r p 64
        | _ => throw UnsupportedDkLen
        end
  | _, _, _ => throw UnsupportedKdfParams
  end.

(** The pbkdf2 branch of [decrypt], up to the derived key. *)
Definition pbkdf2Key (data : json) (passwordBytes : bytes) : M bytes :=
  salt_v <- lift (searchPath data "crypto/kdfparams/salt") ;;
  salt <- lift (looseArrayify salt_v) ;;
  prf <- lift (searchPath data "crypto/kdfparams/prf") ;;
  prfFunc <- (if is_string prf "hmac-sha256" then ret "sha256"
              else if is_string prf "hmac-sha512" then ret "sha512"
              else throw UnsupportedPrf) ;;
  c_v <- lift (searchPath data "crypto/kdfparams/c") ;;
  let c := parseInt c_v in
  dkLen_v <- lift (searchPath data "crypto/kdfparams/dklen") ;;
  let dkLen := parseInt dkLen_v in
  match dkLen with
  | Some 32%Z =>
      key_hex <- call_pbkdf2 passwordBytes salt c 32 prfFunc ;;
      lift (arrayify (BLHex key_hex))
  | _ => throw UnsupportedDkLen
  end.

(** The dispatch on [crypto/kdf]; each branch derives [key] and ends in
    [return getAccount(key)]. *)
Definition deriveKey (data : json) (passwordBytes : bytes) : M bytes :=
  kdf <- lift (searchPath data "crypto/kdf") ;;
  match kdf with
  | Some (JStr kdf) =>
      if truthy_string kdf then
        if String.eqb (toLowerCase kdf) "scrypt" then
          scryptKey data passwordBytes
        else if String.eqb (toLowerCase kdf) "pbkdf2" then
          pbkdf2Key data passwordBytes
        else throw UnsupportedKdf
      else throw UnsupportedKdf
  | _ => throw UnsupportedKdf
  end.

(** [decrypt] after [JSON.parse]. *)
Definition decrypt_data (data : json) (password : Password)
  : M KeystoreAccount :=
  let passwordBytes := getPassword password in
  key <- deriveKey data passwordBytes ;;
  lift (getAccount data key).

Definition decrypt (json : string) (password : Password) : M KeystoreAccount :=
  match JSON_parse json with
  | Some data => decrypt_data data password
  | None => throw BadJson
  end.

(** *** encrypt *)

(** The [try] block of [encrypt]. *)
Definition checkAccount (account : ExternallyOwnedAccount) : result unit :=
  (let* canonical := of_option InvalidAddress (getAddress (address account)) in
   let* computed := computeAddress (BLHex (privateKey account)) in
   if negb (String.eqb canonical computed) then Err AddressPrivateKeyMismatch
   else
     match mnemonic account with
     | Some m =>
         let* node := hdDerive m (or_defaultPath (path account)) in
         if negb (String.eqb (node_privateKey node) (privateKey account)) then
           Err MnemonicMismatch
         else Ok tt
     | None =>
         match path account with
         | Some _ => Err PathWithoutMnemonic
         | None => Ok tt
         end
     end)%result.

(** [entropy] and [path] as [encrypt] sets them: [entropy] stays [null]
    unless [account.mnemonic] is truthy. *)
Definition accountEntropy (account : ExternallyOwnedAccount)
  : result (option (bytes * string)) :=
  match mnemonic account with
  | Some m =>
      if truthy_string m then
        (let* hex :=
           of_option (PrimitiveFailure "mnemonicToEntropy")
             (mnemonicToEntropy m) in
         let* entropy := arrayify (BLHex hex) in
         Ok (Some (entropy, or_defaultPath (path account))))%result
      else Ok None
  | None => Ok None
  end.

(** "Check/generate the salt". *)
Definition chooseSalt (options : EncryptOptions) : M bytes :=
  match opt_salt options with
  | Some v =>
      if truthy_byteslike v then lift (arrayify v) else random 32
  | None => random 32
  end.

(** "Override initialization vector". *)
Definition chooseIv (options : EncryptOptions) : M bytes :=
  match opt_iv options with
  | Some v =>
      if truthy_byteslike v then
        iv <- lift (arrayify v) ;;
        if negb (List.length iv =? 16)%nat then throw InvalidIv else ret iv
      else random 16
  | None => random 16
  end.

(** "Override the uuid". *)
Definition chooseUuid (options : EncryptOptions) : M bytes :=
  match opt_uuid options with
  | Some v =>
      if truthy_string v then
        uuidRandom <- lift (arrayify (BLHex v)) ;;
        if negb (List.length uuidRandom =? 16)%nat then throw InvalidUuid
        else ret uuidRandom
      else random 16
  | None => random 16
  end.

(** [options.scrypt.N] and the like: the field of [options.scrypt], when
    both are there. *)
Definition scryptField (f : ScryptOptions -> option Z)
    (options : EncryptOptions) : option Z :=
  match opt_scrypt options with
  | Some s => f s
  | None => None
  end.

(** [if (options.scrypt.N) { N = options.scrypt.N; }] over the default. *)
Definition scryptParam (v : option Z) (default : Z) : Z :=
  match v with
  | Some n => if (n =? 0)%Z then default else n
  | None => default
  end.

(** The object literal [data] of [encrypt]. *)
Definition keystoreData (address id iv ciphertext salt : string) (N p r : Z)
    (mac : string) : list (string * json) :=
  [ ("address", JStr address);
    ("id", JStr id);
    ("version", JNum 3);
    ("Crypto", JObj
       [ ("cipher", JStr "aes-128-ctr");
         ("cipherparams", JObj [ ("iv", JStr iv) ]);
         ("ciphertext", JStr ciphertext);
         ("kdf", JStr "scrypt");
         ("kdfparams", JObj
            [ ("salt", JStr salt);
              ("n", JNum N);
              ("dklen", JNum 32);
              ("p", JNum p);
              ("r", JNum r) ]);
         ("mac", JStr mac) ]) ].

Definition timestamp (now : Date) : string :=
  string_of_Z (getUTCFullYear now) ++ "-" ++
  zpad (getUTCMonth now + 1) 2 ++ "-" ++
  zpad (getUTCDate now) 2 ++ "T" ++
  zpad (getUTCHours now) 2 ++ "-" ++
  zpad (getUTCMinutes now) 2 ++ "-" ++
  zpad (getUTCSeconds now) 2 ++ ".0Z".

(** The object literal assigned to [data["x-ethers"]]. *)
Definition xEthersData (client gethFilename mnemonicCounter
    mnemonicCiphertext path : string) : json :=
  JObj
    [ ("client", JStr client);
      ("gethFilename", JStr gethFilename);
      ("mnemonicCounter", JStr mnemonicCounter);
      ("mnemonicCiphertext", JStr mnemonicCiphertext);
      ("path", JStr path);
      ("version", JStr "0.1") ].

(** The continuation of the scrypt promise in [encrypt]. *)
Definition encryptWith (account : ExternallyOwnedAccount)
    (privateKey : bytes) (entropy : option (bytes * string)) (client : string)
    (salt iv uuidRandom : bytes) (N r p : Z) (key : bytes) : M json :=
  let derivedKey := slice 0 16 key in
  let macPrefix := slice 16 32 key in
  let mnemonicKey := slice 32 64 key in
  ciphertext <-
    lift (of_option (PrimitiveFailure "aes-js")
            (aes_ctr_encrypt derivedKey iv privateKey)) ;;
  let mac := keccak256 (concat [macPrefix; ciphertext]) in
  let data_address := toLowerCase (substring_from 2 (address account)) in
  let data :=
    keystoreData data_address (uuid_v4 uuidRandom)
      (substring_from 2 (hexlify iv))
      (substring_from 2 (hexlify ciphertext))
      (substring_from 2 (hexlify salt)) N p r
      (substring_from 2 mac) in
  match entropy with
  | Some (entropy, path) =>
      mnemonicIv <- random 16 ;;
      mnemonicCiphertext <-
        lift (of_option (PrimitiveFailure "aes-js")
                (aes_ctr_encrypt mnemonicKey mnemonicIv entropy)) ;;
      now <- new_Date ;;
      ret (JObj
             (data ++
              [ ("x-ethers",
                 xEthersData client
                   ("UTC--" ++ timestamp now ++ "--" ++ data_address)
                   (substring_from 2 (hexlify mnemonicIv))
                   (substring_from 2 (hexlify mnemonicCiphertext))
                   path) ]))
  | None => ret (JObj data)
  end.

Definition encrypt (account : ExternallyOwnedAccount) (password : Password)
    (options : option EncryptOptions) : M string :=
  _ <- lift (checkAccount account) ;;
  let options := match options with Some o => o | None => no_options end in
  privateKey <- lift (arrayify (BLHex (privateKey account))) ;;
  let passwordBytes := getPassword password in
  entropy <- lift (accountEntropy account) ;;
  let client :=
    match opt_client options with
    | Some c => if truthy_string c then c else "ethers.js"
    | None => "ethers.js"
    end in
  salt <- chooseSalt options ;;
  iv <- chooseIv options ;;
  uuidRandom <- chooseUuid options ;;
  let N := scryptParam (scryptField opt_N options) (2 ^ 17) in
  let r := scryptParam (scryptField opt_r options) 8 in
  let p := scryptParam (scryptField opt_p options) 1 in
  key <- call_scrypt passwordBytes salt N r p 64 ;;
  data <- encryptWith account privateKey entropy client salt iv uuidRandom
            N r p key ;;
  ret (JSON_stringify data).

(** A computation whose result does not depend on the random source, the
    clock or the calls made before. *)
Definition deterministic {A} (m : M A) : Prop :=
  forall w1 w2 : world, fst (m w1) = fst (m w2).

(** The key-derivation calls that a run started in [w] has made. *)
Definition calls {A} (m : M A) (w : world) : list event :=
  skipn (List.length (log w)) (log (snd (m w))).

End Codec.

(** ** A reference instance of the primitives

    Small executable stand-ins for the collaborators, on which the codec can
    be run: they have the shapes and the algebraic laws that the codec
    relies on (a length-preserving involutive stream cipher, digests of the
    right length, canonical addresses, a JSON printer and reader), not the
    cryptographic strength of the real ones. *)

Module Reference.

Definition xor_byte (a k : byte) : byte :=
  let '(a0, (a1, (a2, (a3, (a4, (a5, (a6, a7))))))) := Byte.to_bits a in
  let '(k0, (k1, (k2, (k3, (k4, (k5, (k6, k7))))))) := Byte.to_bits k in
  Byte.of_bits
    (xorb a0 k0, (xorb a1 k1, (xorb a2 k2, (xorb a3 k3,
    (xorb a4 k4, (xorb a5 k5, (xorb a6 k6, xorb a7 k7))))))).

Definition fold_xor (b : bytes) : byte := fold_right xor_byte x00 b.

Definition sum_bytes (b : bytes) : N :=
  fold_right (fun x acc => (Byte.to_N x + 3 * acc) mod 65536)%N 0%N b.

(** [n] bytes spread from a seed. *)
Definition stretch (seed : N) (n : nat) : bytes :=
  map (fun i => byte_of_N ((seed + 7 * N.of_nat i) mod 256)%N) (seq 0 n).

Fixpoint xor_stream (pad : byte) (i : nat) (m : bytes) : bytes :=
  match m with
  | [] => []
  | x :: r =>
      xor_byte x (xor_byte pad (byte_of_N (N.of_nat i mod 256)%N))
        :: xor_stream pad (S i) r
  end.

Definition ctr (key iv m : bytes) : option bytes :=
  if ((List.length iv =? 16) &&
      ((List.length key =? 16) || (List.length key =? 24) ||
       (List.length key =? 32)))%nat
  then Some (xor_stream (fold_xor (key ++ iv)%list) 0 m)
  else None.

Definition kdf_seed (password salt : bytes) (a b c : Z) : N :=
  (sum_bytes password + 5 * sum_bytes salt + Z.to_N a + Z.to_N b + Z.to_N c)%N.

Definition scrypt (password salt : bytes) (N r p dkLen : Z) : option bytes :=
  if ((0 <? N) && (0 <? r) && (0 <? p))%Z then
    Some (stretch (kdf_seed password salt N r p) (Z.to_nat dkLen))
  else None.

Definition pbkdf2 (password salt : bytes) (c : option Z) (keylen : Z)
    (hash : string) : option string :=
  match c with
  | Some c =>
      if (0 <? c)%Z then
        Some (hexlify (stretch (kdf_seed password salt c
                                  (Z.of_nat (String.length hash)) 0)
                         (Z.to_nat keylen)))
      else None
  | None => None
  end.

Definition keccak_256 (data : bytes) : bytes := stretch (sum_bytes data) 32.

Definition upper_ascii (c : ascii) : ascii :=
  let n := N_of_ascii c in
  if ((97 <=? n) && (n <=? 122))%N then ascii_of_N (n - 32) else c.

Fixpoint toUpperCase (s : string) : string :=
  match s with
  | EmptyString => EmptyString
  | String c r => String (upper_ascii c) (toUpperCase r)
  end.

(** The canonical casing of the reference instance: capital hex digits. *)
Definition getAddress (a : string) : option string :=
  let a := if String.eqb (substring_to 2 a) "0x" then a else "0x" ++ a in
  let body := substring_from 2 a in
  if all_hex body && (String.length body =? 40)%nat then
    Some ("0x" ++ toUpperCase body)
  else None.

Definition addressOf (key : bytes) : option string :=
  if (List.length key =? 32)%nat then
    Some ("0x" ++ toUpperCase (hex_of_bytes (firstn 20 (keccak_256 key))))
  else None.

(** A phrase is the hex of its entropy, of 16 to 32 bytes. *)
Definition phraseEntropy (phrase : string) : option bytes :=
  match bytes_of_hex phrase with
  | Some e =>
      if ((16 <=? List.length e) && (List.length e <=? 32))%nat then Some e
      else None
  | None => None
  end.

Definition mnemonicToEntropy (phrase : string) : option string :=
  option_map hexlify (phraseEntropy phrase).

Definition entropyToMnemonic (entropy : bytes) : option string :=
  if ((16 <=? List.length entropy) && (List.length entropy <=? 32))%nat then
    Some (hex_of_bytes entropy)
  else None.

Definition HDNode_fromMnemonic (phrase : string) : option HDNode :=
  match phraseEntropy phrase with
  | Some e =>
      Some {| node_privateKey := hexlify (stretch (sum_bytes e) 32);
              node_mnemonic := hex_of_bytes e;
              node_path := "m" |}
  | None => None
  end.

Definition derivePath (node : HDNode) (path : string) : option HDNode :=
  match path with
  | String "m" _ =>
      Some {| node_privateKey :=
                hexlify
                  (stretch (sum_bytes (bytes_of_string (node_privateKey node)
                                       ++ bytes_of_string path)%list) 32);
              node_mnemonic := node_mnemonic node;
              node_path := path |}
  | _ => None
  end.

Definition uuid_v4 (random : bytes) : string := hex_of_bytes random.

(** *** JSON text *)

Definition quote : ascii := ascii_of_N 34.
Definition backslash : ascii := ascii_of_N 92.

Fixpoint escape (s : string) : string :=
  match s with
  | EmptyString => EmptyString
  | String c r =>
      if Ascii.eqb c quote || Ascii.eqb c backslash then
        String backslash (String c (escape r))
      else String c (escape r)
  end.

Definition print_string (s : string) : string :=
  String quote (escape s ++ String quote EmptyString).

Definition print_items (pr : json -> string) : list json -> string :=
  fix go (l : list json) : string :=
    match l with
    | [] => "]"
    | x :: r =>
        match r with
        | [] => pr x ++ "]"
        | _ :: _ => pr x ++ "," ++ go r
        end
    end.

Definition print_fields (pr : json -> string)
  : list (string * json) -> string :=
  fix go (l : list (string * json)) : string :=
    match l with
    | [] => "}"
    | (k, x) :: r =>
        match r with
        | [] => print_string k ++ ":" ++ pr x ++ "}"
        | _ :: _ => print_string k ++ ":" ++ pr x ++ "," ++ go r
        end
    end.

Fixpoint print (v : json) : string :=
  match v with
  | JNull => "null"
  | JBool true => "true"
  | JBool false => "false"
  | JNum z => string_of_Z z
  | JStr s => print_string s
  | JArr items => "[" ++ print_items print items
  | JObj fields => "{" ++ print_fields print fields
  end.

(** The characters up to the closing quote, unescaped, and what follows. *)
Fixpoint read_string (s : string) : option (string * string) :=
  match s with
  | EmptyString => None
  | String c r =>
      if Ascii.eqb c quote then Some (EmptyString, r)
      else if Ascii.eqb c backslash then
        match r with
        | String c' r' =>
            match read_string r' with
            | Some (a, b) => Some (String c' a, b)
            | None => None
            end
        | EmptyString => None
        end
      else
        match read_string r with
        | Some (a, b) => Some (String c a, b)
        | None => None
        end
  end.

Definition is_num_char (c : ascii) : bool :=
  let n := N_of_ascii c in
  ((n =? 45) || ((48 <=? n) && (n <=? 57)))%N.

Fixpoint span_num (s : string) : string * string :=
  match s with
  | EmptyString => (EmptyString, EmptyString)
  | String c r =>
      if is_num_char c then
        let '(a, b) := span_num r in (String c a, b)
      else (EmptyString, s)
  end.

Definition read_number (s : string) : option (json * string) :=
  let '(a, b) := span_num s in
  match NilZero.int_of_string a with
  | Some i => Some (JNum (Z.of_int i), b)
  | None => None
  end.

Definition read_word (w : string) (v : json) (s : string)
  : option (json * string) :=
  if String.eqb (substring_to (String.length w) s) w then
    Some (v, substring_from (String.length w) s)
  else None.

Fixpoint read (fuel : nat) (s : string) : option (json * string) :=
  match fuel with
  | O => None
  | S fuel =>
      match s with
      | EmptyString => None
      | String c r =>
          if is_num_char c then read_number s
          else if Ascii.eqb c quote then
            match read_string r with
            | Some (a, b) => Some (JStr a, b)
            | None => None
            end
          else if Ascii.eqb c "[" then
            match r with
            | String c' r' =>
                if Ascii.eqb c' "]" then Some (JArr [], r')
                else
                  match read_items fuel r with
                  | Some (l, b) => Some (JArr l, b)
                  | None => None
                  end
            | EmptyString => None
            end
          else if Ascii.eqb c "{" then
            match r with
            | String c' r' =>
                if Ascii.eqb c' "}" then Some (JObj [], r')
                else
                  match read_fields fuel r with
                  | Some (l, b) => Some (JObj l, b)
                  | None => None
                  end
            | EmptyString => None
            end
          else if Ascii.eqb c "n" then read_word "null" JNull s
          else if Ascii.eqb c "t" then read_word "true" (JBool true) s
          else if Ascii.eqb c "f" then read_word "false" (JBool false) s
          else None
      end
  end
with read_items (fuel : nat) (s : string) : option (list json * string) :=
  match fuel with
  | O => None
  | S fuel =>
      match read fuel s with
      | Some (v, String c r) =>
          if Ascii.eqb c "," then
            match read_items fuel r with
            | Some (l, b) => Some (v :: l, b)
            | None => None
            end
          else if Ascii.eqb c "]" then Some ([v], r)
          else None
      | _ => None
      end
  end
with read_fields (fuel : nat) (s : string)
  : option (list (string * json) * string) :=
  match fuel with
  | O => None
  | S fuel =>
      match s with
      | String c r =>
          if Ascii.eqb c quote then
            match read_string r with
            | Some (k, String c' r') =>
                if Ascii.eqb c' ":" then
                  match read fuel r' with
                  | Some (v, String c'' r'') =>
                      if Ascii.eqb c'' "," then
                        match read_fields fuel r'' with
                        | Some (l, b) => Some ((k, v) :: l, b)
                        | None => None
                        end
                      else if Ascii.eqb c'' "}" then Some ([(k, v)], r'')
                      else None
                  | _ => None
                  end
                else None
            | _ => None
            end
          else None
      | EmptyString => None
      end
  end.

(** The fuel that [read] uses on the text of a value. *)
Fixpoint need (v : json) : nat :=
  match v with
  | JArr items => S (fold_right (fun x n => S (need x + n)) O items)
  | JObj fields => S (fold_right (fun kx n => S (need (snd kx) + n)) O fields)
  | _ => 1
  end.

(** What may follow a value in a text: not a character of a number. *)
Definition follows (rest : string) : Prop :=
  match rest with
  | EmptyString => True
  | String c _ => is_num_char c = false
  end.

Fixpoint all_num (s : string) : bool :=
  match s with
  | EmptyString => true
  | String c r => is_num_char c && all_num r
  end.

(** [read] inverts [print] on the text of [v], whatever follows. *)
Definition reads_back (v : json) : Prop :=
  forall fuel rest,
    (need v < fuel)%nat -> follows rest ->
    read fuel (print v ++ rest) = Some (v, rest).

Definition JSON_stringify (v : json) : string := print v.

Definition JSON_parse (s : string) : option json :=
  match read (S (String.length s)) s with
  | Some (v, EmptyString) => Some v
  | _ => None
  end.

#[export] Instance primitives : Primitives :=
  Build_Primitives scrypt pbkdf2 ctr ctr keccak_256 addressOf
    getAddress mnemonicToEntropy entropyToMnemonic HDNode_fromMnemonic
    derivePath uuid_v4 JSON_parse JSON_stringify.

End Reference.

(** ** Assumptions on the collaborators and on the inputs *)

Definition is_power_of_two (n : Z) : Prop := exists k : Z, (0 <= k /\ n = 2 ^ k)%Z.

(** The documents that [encrypt] emits. *)
Inductive keystore_document : json -> Prop :=
| web3_document address id iv ciphertext salt N p r mac :
    keystore_document
      (JObj (keystoreData address id iv ciphertext salt N p r mac))
| ethers_document address id iv ciphertext salt N p r mac client gethFilename
    mnemonicCounter mnemonicCiphertext path :
    keystore_document
      (JObj (keystoreData address id iv ciphertext salt N p r mac ++
             [ ("x-ethers",
                xEthersData client gethFilename mnemonicCounter
                  mnemonicCiphertext path) ])).

(** What the codec relies on from its collaborators for a document to be
    read back. *)
Class Laws (P : Primitives) : Prop := {
  (** [JSON.parse] inverts [JSON.stringify] on keystore documents *)
  JSON_roundtrip :
    forall d, keystore_document d -> JSON_parse (JSON_stringify d) = Some d;
  (** AES-CTR decryption inverts encryption under the same key and counter *)
  aes_ctr_roundtrip :
    forall key iv m c,
      aes_ctr_encrypt key iv m = Some c -> aes_ctr_decrypt key iv c = Some m;
  (** a computed address is [0x] and 40 hex digits *)
  addressOf_shape :
    forall k a,
      addressOf k = Some a ->
      exists h, a = "0x" ++ h /\ all_hex h = true /\ String.length h = 40%nat;
  (** a computed address is the EIP-55 form of itself and of its lower
      case *)
  getAddress_canonical :
    forall k a, addressOf k = Some a -> getAddress a = Some a;
  getAddress_lowercase :
    forall k a, addressOf k = Some a -> getAddress (toLowerCase a) = Some a;
  (** an HD node carries the phrase of the entropy of its mnemonic *)
  hd_mnemonic_entropy :
    forall m p node hex e,
      hdDerive m p = Ok node ->
      mnemonicToEntropy m = Some hex ->
      arrayify (BLHex hex) = Ok e ->
      entropyToMnemonic e = Some (node_mnemonic node)
}.

Section Assumptions.

Context {P : Primitives}.

(** The mnemonic part of the Account invariant (section 3), on the node
    that the mnemonic derives along the given or default path: the node has
    the account's private key, and the account states the mnemonic and the
    path as the node carries them. *)
Definition well_formed_mnemonic (a : ExternallyOwnedAccount) : bool :=
  match mnemonic a with
  | Some m =>
      truthy_string m &&
      match hdDerive m (or_defaultPath (path a)) with
      | Ok node =>
          String.eqb (node_privateKey node) (privateKey a) &&
          String.eqb (node_mnemonic node) m &&
          match path a with
          | Some p => String.eqb (node_path node) p
          | None => true
          end
      | Err _ => false
      end
  | None =>
      match path a with
      | Some _ => false
      | None => true
      end
  end.

(** The Account invariant (section 3): the private key is hex in the form
    [hexlify] gives, the address is the address computed from it, and the
    mnemonic, if any, derives to it. *)
Definition well_formed_account (a : ExternallyOwnedAccount) : bool :=
  match arrayify (BLHex (privateKey a)) with
  | Ok k =>
      String.eqb (hexlify k) (privateKey a) &&
      match computeAddress (BLHex (privateKey a)) with
      | Ok computed => String.eqb computed (address a)
      | Err _ => false
      end &&
      well_formed_mnemonic a
  | Err _ => false
  end.

Definition the_options (options : option EncryptOptions) : EncryptOptions :=
  match options with
  | Some o => o
  | None => no_options
  end.




(** The [iv], [salt] and [uuid] overrides are all supplied. *)
Definition overrides_supplied (options : EncryptOptions) : bool :=
  match opt_iv options, opt_salt options, opt_uuid options with
  | Some iv, Some salt, Some uuid =>
      truthy_byteslike iv && truthy_byteslike salt && truthy_string uuid
  | _, _, _ => false
  end.

(** [account.mnemonic] is truthy. *)
Definition carries_mnemonic (a : ExternallyOwnedAccount) : bool :=
  match mnemonic a with
  | Some m => truthy_string m
  | None => false
  end.

(** The Web3 part of [getAccount] goes through: the ciphertext is read,
    the MAC under bytes 16 to 32 of [key] agrees with [crypto/mac], the
    cipher returns [privateKey] under bytes 0 to 16 of [key], and [address]
    is computed from it. *)
Definition recovers (data : json) (key privateKey : bytes) (address : string)
  : Prop :=
  exists (ct_v : option json) (ciphertext : bytes) (mac : string),
    searchPath data "crypto/ciphertext" = Ok ct_v /\
    looseArrayify ct_v = Ok ciphertext /\
    searchPath data "crypto/mac" = Ok (Some (JStr mac)) /\
    hex_of_bytes (keccak_256 (slice 16 32 key ++ ciphertext)%list)
      = toLowerCase mac /\
    decrypt_cipher data (slice 0 16 key) ciphertext = Ok (Some privateKey) /\
    computeAddress (BLBytes privateKey) = Ok address.

(** The [x-ethers] part is read: [entropy] is the AES-CTR decryption of
    [x-ethers/mnemonicCiphertext] under bytes 32 to 64 of [key], with
    [x-ethers/mnemonicCounter] as the counter, and [path_v] is the value at
    [x-ethers/path]. *)
Definition reads_entropy (data : json) (key entropy : bytes)
    (path_v : option json) : Prop :=
  exists (ct_v iv_v : option json) (mnemonicCiphertext mnemonicIv : bytes),
    searchPath data "x-ethers/mnemonicCiphertext" = Ok ct_v /\
    looseArrayify ct_v = Ok mnemonicCiphertext /\
    searchPath data "x-ethers/mnemonicCounter" = Ok iv_v /\
    looseArrayify iv_v = Ok mnemonicIv /\
    searchPath data "x-ethers/path" = Ok path_v /\
    aes_ctr_decrypt (slice 32 64 key) mnemonicIv mnemonicCiphertext
      = Some entropy.

(** What [decrypt] reads in the Web3 part of a document. *)
Definition web3_fields (data : json) (address iv ciphertext salt : string)
    (N p r : Z) (mac : string) : Prop :=
  get_prop data "address" = Some (JStr address) /\
  searchPath data "crypto/kdf" = Ok (Some (JStr "scrypt")) /\
  searchPath data "crypto/kdfparams/salt" = Ok (Some (JStr salt)) /\
  searchPath data "crypto/kdfparams/n" = Ok (Some (JNum N)) /\
  searchPath data "crypto/kdfparams/r" = Ok (Some (JNum r)) /\
  searchPath data "crypto/kdfparams/p" = Ok (Some (JNum p)) /\
  searchPath data "crypto/kdfparams/dklen" = Ok (Some (JNum 32)) /\
  searchPath data "crypto/ciphertext" = Ok (Some (JStr ciphertext)) /\
  searchPath data "crypto/mac" = Ok (Some (JStr mac)) /\
  searchPath data "crypto/cipher" = Ok (Some (JStr "aes-128-ctr")) /\
  searchPath data "crypto/cipherparams/iv" = Ok (Some (JStr iv)).

(** What [decrypt] reads in the [x-ethers] part of a document. *)
Definition ethers_fields (data : json) (mnemonicCounter mnemonicCiphertext
    path : string) : Prop :=
  searchPath data "x-ethers/version" = Ok (Some (JStr "0.1")) /\
  searchPath data "x-ethers/mnemonicCiphertext"
    = Ok (Some (JStr mnemonicCiphertext)) /\
  searchPath data "x-ethers/mnemonicCounter"
    = Ok (Some (JStr mnemonicCounter)) /\
  searchPath data "x-ethers/path" = Ok (Some (JStr path)).

(** [check] in [getAccount]: the address of the document in lower case,
    with [0x] in front when it is not there. *)
Definition normalized (s : string) : string :=
  let check := toLowerCase s in
  if String.eqb (substring_to 2 check) "0x" then check else "0x" ++ check.

End Assumptions.

(** ** What the properties speak of *)

(** The value at [crypto/kdf] is not a string that has other characters
    than those of ASCII. *)
Definition ascii_name (kdf : option json) : bool :=
  match kdf with
  | Some (JStr s) => ascii_string s
  | _ => true
  end.

(** [kdf && typeof(kdf) === "string"] and one of the two names that
    [decrypt] dispatches on, in any case. *)
Definition supported_kdf (kdf : option json) : bool :=
  match kdf with
  | Some (JStr s) =>
      String.eqb (toLowerCase s) "scrypt" || String.eqb (toLowerCase s) "pbkdf2"
  | _ => false
  end.

(** The requests that [decrypt] makes of the key-derivation primitives. *)
Definition kdf_request (pw : bytes) (ev : event) : Prop :=
  match ev with
  | ScryptCall password _ N r p dkLen =>
      password = pw /\ N <> 0%Z /\ r <> 0%Z /\ p <> 0%Z /\
      js_and N (js_pred N) = 0%Z /\ dkLen = 64%Z
  | Pbkdf2Call password _ _ keylen hash =>
      password = pw /\ keylen = 32%Z /\ (hash = "sha256" \/ hash = "sha512")
  end.

(** The numbers that the test [(N & (N - 1)) !== 0] lets through: those
    whose low 32 bits, read as a signed integer, are zero, the least
    integer, or a power of two. *)
Definition passes_N_test (N : Z) : Prop :=
  toInt32 N = 0%Z \/ toInt32 N = (- 2 ^ 31)%Z \/ is_power_of_two (toInt32 N).

(** The paths that [decrypt] hands to [searchPath]. *)
Definition decrypt_paths : list string :=
  [ "crypto/kdf";
    "crypto/kdfparams/salt"; "crypto/kdfparams/n"; "crypto/kdfparams/r";
    "crypto/kdfparams/p"; "crypto/kdfparams/dklen";
    "crypto/kdfparams/prf"; "crypto/kdfparams/c";
    "crypto/ciphertext"; "crypto/mac";
    "crypto/cipher"; "crypto/cipherparams/iv";
    "x-ethers/version"; "x-ethers/mnemonicCiphertext";
    "x-ethers/mnemonicCounter"; "x-ethers/path" ].

(** Two documents in which [decrypt] reads the same. *)
Definition same_reads (d1 d2 : json) : Prop :=
  (forall p, In p decrypt_paths -> searchPath d1 p = searchPath d2 p) /\
  get_prop d1 "address" = get_prop d2 "address".

(** [N], [r] and [p] as [encrypt] sets them: the defaults 2^17, 8 and 1,
    each overridden by the field of [options.scrypt] that is given and is
    not zero. *)
Definition scrypt_N (options : option EncryptOptions) : Z :=
  scryptParam (scryptField opt_N (the_options options)) (2 ^ 17).

Definition scrypt_r (options : option EncryptOptions) : Z :=
  scryptParam (scryptField opt_r (the_options options)) 8.

Definition scrypt_p (options : option EncryptOptions) : Z :=
  scryptParam (scryptField opt_p (the_options options)) 1.

(** [client] as [encrypt] sets it. *)
Definition client_of (options : option EncryptOptions) : string :=
  match opt_client (the_options options) with
  | Some c => if truthy_string c then c else "ethers.js"
  | None => "ethers.js"
  end.

(** The one request that [encrypt] makes of scrypt. *)
Definition encrypt_request (password : Password)
    (options : option EncryptOptions) (salt : bytes) : event :=
  ScryptCall (getPassword password) salt (scrypt_N options) (scrypt_r options)
    (scrypt_p options) 64.

(** The random source after [n] bytes have been drawn from it. *)
Definition drawn (n : nat) (w : world) : world :=
  {| rng := fun i => rng w (n + i)%nat; clock := clock w; log := log w |}.

(** Every override of [options] is missing or falsy: an empty string for
    [iv], [salt], [uuid] and [client], zero for the fields of [scrypt].
    The [entropy] field is free. *)
Definition no_overrides (options : EncryptOptions) : bool :=
  match opt_iv options with
  | Some v => negb (truthy_byteslike v)
  | None => true
  end &&
  match opt_salt options with
  | Some v => negb (truthy_byteslike v)
  | None => true
  end &&
  match opt_uuid options with
  | Some v => negb (truthy_string v)
  | None => true
  end &&
  match opt_client options with
  | Some v => negb (truthy_string v)
  | None => true
  end &&
  match opt_scrypt options with
  | Some s =>
      falsy_number (opt_N s) && falsy_number (opt_r s) && falsy_number (opt_p s)
  | None => true
  end.

(** How a call of [encrypt] ends. [encrypt] is not an [async] function:
    an error raised outside its [try] block and outside the continuation
    of the scrypt promise is thrown to the caller, before any promise
    exists. *)
Inductive completion (A : Type) :=
| Thrown (e : error)
| Rejected (e : error)
| Fulfilled (a : A).
Arguments Thrown {A} e.
Arguments Rejected {A} e.
Arguments Fulfilled {A} a.

(** What [await] makes of a completion. *)
Definition settled {A} (c : completion A) : result A :=
  match c with
  | Thrown e | Rejected e => Err e
  | Fulfilled a => Ok a
  end.

Section Completion.

Context {P : Primitives}.

(** The statements of [encrypt] from the end of the [try] block to the
    call of scrypt: the private key, the entropy and the path, the salt,
    the [iv] and the bytes of the uuid. *)
Definition encryptArguments (account : ExternallyOwnedAccount)
    (options : EncryptOptions)
  : M (bytes * option (bytes * string) * bytes * bytes * bytes) :=
  bind (lift (arrayify (BLHex (privateKey account)))) (fun privateKey =>
  bind (lift (accountEntropy account)) (fun entropy =>
  bind (chooseSalt options) (fun salt =>
  bind (chooseIv options) (fun iv =>
  bind (chooseUuid options) (fun uuidRandom =>
  ret (privateKey, entropy, salt, iv, uuidRandom)))))).

(** The promise that [encrypt] returns: scrypt, and the continuation given
    to [then]. *)
Definition encryptPromise (account : ExternallyOwnedAccount)
    (password : Password) (options : option EncryptOptions)
    (args : bytes * option (bytes * string) * bytes * bytes * bytes)
  : M string :=
  let '(privateKey, entropy, salt, iv, uuidRandom) := args in
  bind (call_scrypt (getPassword password) salt (scrypt_N options)
          (scrypt_r options) (scrypt_p options) 64) (fun key =>
  bind (encryptWith account privateKey entropy (client_of options) salt iv
          uuidRandom (scrypt_N options) (scrypt_r options) (scrypt_p options)
          key) (fun data =>
  ret (JSON_stringify data))).

(** A call of [encrypt]: the [try] block ends in [Promise.reject(e)], what
    follows it runs in the caller, and the rest in the promise. *)
Definition encrypt_call (account : ExternallyOwnedAccount)
    (password : Password) (options : option EncryptOptions)
  : world -> completion string * world :=
  fun w =>
    match checkAccount account with
    | Err e => (Rejected e, w)
    | Ok _ =>
        match encryptArguments account (the_options options) w with
        | (Err e, w1) => (Thrown e, w1)
        | (Ok args, w1) =>
            match encryptPromise account password options args w1 with
            | (Err e, w2) => (Rejected e, w2)
            | (Ok text, w2) => (Fulfilled text, w2)
            end
        end
    end.

End Completion.

(** What an error of [decrypt] says of the document [data]: the condition
    under which the [throw] of that error is reached. The errors of the
    collaborators say nothing of it. *)
Definition decrypt_cause {P : Primitives} (data : json) (e : error) : Prop :=
  match e with
  | UnsupportedKdf =>
      exists kdf,
        searchPath data "crypto/kdf" = Ok kdf /\ supported_kdf kdf = false
  | UnsupportedKdfParams =>
      exists kdf N_v r_v p_v,
        searchPath data "crypto/kdf" = Ok (Some (JStr kdf)) /\
        toLowerCase kdf = "scrypt" /\
        searchPath data "crypto/kdfparams/n" = Ok N_v /\
        searchPath data "crypto/kdfparams/r" = Ok r_v /\
        searchPath data "crypto/kdfparams/p" = Ok p_v /\
        falsy_number (parseInt N_v) || falsy_number (parseInt r_v) ||
          falsy_number (parseInt p_v) = true
  | UnsupportedKdfNValue =>
      exists kdf N_v N,
        searchPath data "crypto/kdf" = Ok (Some (JStr kdf)) /\
        toLowerCase kdf = "scrypt" /\
        searchPath data "crypto/kdfparams/n" = Ok N_v /\
        parseInt N_v = Some N /\
        js_and N (js_pred N) <> 0%Z
  | UnsupportedPrf =>
      exists prf,
        searchPath data "crypto/kdfparams/prf" = Ok prf /\
        is_string prf "hmac-sha256" = false /\
        is_string prf "hmac-sha512" = false
  | UnsupportedDkLen =>
      exists dkLen_v,
        searchPath data "crypto/kdfparams/dklen" = Ok dkLen_v /\
        parseInt dkLen_v <> Some 32%Z
  | InvalidPassword =>
      exists ct_v ciphertext mac,
        searchPath data "crypto/ciphertext" = Ok ct_v /\
        looseArrayify ct_v = Ok ciphertext /\
        searchPath data "crypto/mac" = Ok (Some (JStr mac))
  | UnsupportedCipher =>
      exists cipher,
        searchPath data "crypto/cipher" = Ok cipher /\
        is_string cipher "aes-128-ctr" = false
  | AddressMismatch =>
      exists s canonical,
        get_prop data "address" = Some (JStr s) /\ s <> "" /\
        getAddress (normalized s) = Some canonical
  | MnemonicMismatch =>
      searchPath data "x-ethers/version" = Ok (Some (JStr "0.1"))
  | BadJson | AddressPrivateKeyMismatch | PathWithoutMnemonic
  | InvalidIv | InvalidUuid => False
  | AmbiguousKey | InvalidHex | InvalidAddress | TypeError
  | PrimitiveFailure _ => True
  end.

(** What an error of [encrypt] says of the account and of the options. *)
Definition encrypt_cause {P : Primitives} (account : ExternallyOwnedAccount)
    (options : option EncryptOptions) (e : error) : Prop :=
  match e with
  | AddressPrivateKeyMismatch =>
      exists canonical computed,
        getAddress (address account) = Some canonical /\
        computeAddress (BLHex (privateKey account)) = Ok computed /\
        canonical <> computed
  | MnemonicMismatch =>
      exists m node,
        mnemonic account = Some m /\
        hdDerive m (or_defaultPath (path account)) = Ok node /\
        node_privateKey node <> privateKey account
  | PathWithoutMnemonic =>
      mnemonic account = None /\ exists p, path account = Some p
  | InvalidIv =>
      exists v iv,
        opt_iv (the_options options) = Some v /\
        truthy_byteslike v = true /\ arrayify v = Ok iv /\
        List.length iv <> 16%nat
  | InvalidUuid =>
      exists v uuidRandom,
        opt_uuid (the_options options) = Some v /\
        truthy_string v = true /\ arrayify (BLHex v) = Ok uuidRandom /\
        List.length uuidRandom <> 16%nat
  | BadJson | UnsupportedKdf | UnsupportedKdfParams | UnsupportedKdfNValue
  | UnsupportedDkLen | UnsupportedPrf | UnsupportedCipher | InvalidPassword
  | AddressMismatch => False
  | AmbiguousKey | InvalidHex | InvalidAddress | TypeError
  | PrimitiveFailure _ => True
  end.

(** A clock within the calendar, with a year of four digits. *)
Definition calendar_date (d : Date) : Prop :=
  (1000 <= getUTCFullYear d <= 9999 /\ 0 <= getUTCMonth d <= 11 /\
   1 <= getUTCDate d <= 31 /\ 0 <= getUTCHours d <= 23 /\
   0 <= getUTCMinutes d <= 59 /\ 0 <= getUTCSeconds d <= 59)%Z.

(** The last [n] decimal digits of [v]: a field of a time stamp as section
    6 writes it, YYYY-MM-DDTHH-MM-SS.0Z. *)
Fixpoint digits (n : nat) (v : Z) : string :=
  match n with
  | O => EmptyString
  | S k =>
      digits k (v / 10) ++
      String (ascii_of_N (48 + Z.to_N (v mod 10))) EmptyString
  end.

(** [f] holds of the [n] integers from [z] on. *)
Fixpoint holds_from (f : Z -> bool) (z : Z) (n : nat) : bool :=
  match n with
  | O => true
  | S k => f z && holds_from f (z + 1) k
  end.

(** ** Sample inputs, on the reference instance *)

Module Examples.

#[local] Existing Instance Reference.primitives.

Definition date0 : Date :=
  {| getUTCFullYear := 2020; getUTCMonth := 0; getUTCDate := 5;
     getUTCHours := 3; getUTCMinutes := 4; getUTCSeconds := 59 |}.

Definition world0 : world :=
  {| rng := fun i => byte_of_N ((5 + 7 * N.of_nat i) mod 256)%N;
     clock := date0; log := [] |}.

(** Another random source and another clock. *)
Definition world1 : world :=
  {| rng := fun i => byte_of_N ((9 + 11 * N.of_nat i) mod 256)%N;
     clock := {| getUTCFullYear := 2021; getUTCMonth := 11; getUTCDate := 31;
                 getUTCHours := 23; getUTCMinutes := 59;
                 getUTCSeconds := 58 |};
     log := [] |}.

Definition foo : Password := PwString "foo".
Definition bar : Password := PwString "bar".

Definition phrase : string := "00112233445566778899aabbccddeeff".

Definition key1 : string :=
  Eval vm_compute in
    match hdDerive phrase defaultPath with
    | Ok node => node_privateKey node
    | Err _ => EmptyString
    end.

Definition key1_bytes : bytes :=
  Eval vm_compute in
    match arrayify (BLHex key1) with Ok k => k | Err _ => [] end.

Definition address1 : string :=
  Eval vm_compute in
    match computeAddress (BLHex key1) with
    | Ok a => a
    | Err _ => EmptyString
    end.

(** A second key, with its address. *)
Definition key2 : string := hexlify (Reference.stretch 3 32).

Definition address2 : string :=
  Eval vm_compute in
    match computeAddress (BLHex key2) with
    | Ok a => a
    | Err _ => EmptyString
    end.

(** The key and the address of [phrase] along another path. *)
Definition path2 : string := "m/44'/60'/0'/0/1".

Definition key3 : string :=
  Eval vm_compute in
    match hdDerive phrase path2 with
    | Ok node => node_privateKey node
    | Err _ => EmptyString
    end.

Definition key3_bytes : bytes :=
  Eval vm_compute in
    match arrayify (BLHex key3) with Ok k => k | Err _ => [] end.

Definition address3 : string :=
  Eval vm_compute in
    match computeAddress (BLHex key3) with
    | Ok a => a
    | Err _ => EmptyString
    end.

(** An account with a mnemonic and one without. *)
Definition alice : ExternallyOwnedAccount :=
  {| address := address1; privateKey := key1;
     mnemonic := Some phrase; path := None |}.

Definition bob : ExternallyOwnedAccount :=
  {| address := address1; privateKey := key1;
     mnemonic := None; path := None |}.

(** An account with a mnemonic and a path of its own. *)
Definition carol : ExternallyOwnedAccount :=
  {| address := address3; privateKey := key3;
     mnemonic := Some phrase; path := Some path2 |}.


(** Accounts that [encrypt] refuses. *)
Definition wrong_address : ExternallyOwnedAccount :=
  {| address := address2; privateKey := key1;
     mnemonic := None; path := None |}.

Definition wrong_mnemonic : ExternallyOwnedAccount :=
  {| address := address2; privateKey := key2;
     mnemonic := Some phrase; path := None |}.

Definition lone_path : ExternallyOwnedAccount :=
  {| address := address1; privateKey := key1;
     mnemonic := None; path := Some "m/44'/60'/0'/0/1" |}.

Definition salt0 : bytes := [x0a; x0b].
Definition iv0 : bytes := Reference.stretch 1 16.
Definition uuid0 : bytes := Reference.stretch 2 16.

(** Options with the three overrides, a salt of two bytes, and N = 1024. *)
Definition overrides : EncryptOptions :=
  {| opt_iv := Some (BLBytes iv0);
     opt_entropy := None;
     opt_client := None;
     opt_salt := Some (BLBytes salt0);
     opt_uuid := Some (hexlify uuid0);
     opt_scrypt :=
       Some {| opt_N := Some 1024%Z; opt_r := None; opt_p := None |} |}.

Definition short_iv : EncryptOptions :=
  {| opt_iv := Some (BLBytes (Reference.stretch 1 15));
     opt_entropy := None; opt_client := None;
     opt_salt := Some (BLBytes salt0);
     opt_uuid := None; opt_scrypt := None |}.

Definition short_uuid : EncryptOptions :=
  {| opt_iv := Some (BLBytes iv0);
     opt_entropy := None; opt_client := None;
     opt_salt := Some (BLBytes salt0);
     opt_uuid := Some (hexlify (Reference.stretch 2 3));
     opt_scrypt := None |}.

(** A salt that is not hex. *)
Definition salt_not_hex : EncryptOptions :=
  {| opt_iv := None; opt_entropy := None; opt_client := None;
     opt_salt := Some (BLHex "0xzz");
     opt_uuid := None; opt_scrypt := None |}.

(** The text of a document. *)
Definition text (d : json) : string := Reference.JSON_stringify d.

Definition text_of (r : result string * world) : string :=
  match fst r with
  | Ok t => t
  | Err _ => EmptyString
  end.

(** What [encrypt] writes for [alice] and for [bob]. *)
Definition alice_text : string :=
  Eval vm_compute in text_of (encrypt alice foo (Some overrides) world0).

Definition alice_world : world :=
  Eval vm_compute in snd (encrypt alice foo (Some overrides) world0).

Definition alice_data : json :=
  Eval vm_compute in
    match JSON_parse alice_text with Some d => d | None => JNull end.

Definition bob_text : string :=
  Eval vm_compute in text_of (encrypt bob foo (Some overrides) world0).

Definition bob_data : json :=
  Eval vm_compute in
    match JSON_parse bob_text with Some d => d | None => JNull end.

Definition carol_text : string :=
  Eval vm_compute in text_of (encrypt carol foo (Some overrides) world0).

Definition carol_data : json :=
  Eval vm_compute in
    match JSON_parse carol_text with Some d => d | None => JNull end.

(** What [decrypt] is to return for them. *)
Definition alice_account : KeystoreAccount :=
  {| _isKeystoreAccount := true;
     account := {| address := address1; privateKey := key1;
                   mnemonic := Some phrase; path := Some defaultPath |} |}.

Definition bob_account : KeystoreAccount :=
  {| _isKeystoreAccount := true; account := bob |}.

Definition carol_account : KeystoreAccount :=
  {| _isKeystoreAccount := true; account := carol |}.

(** The entropy of [phrase] and the root node of its wallet. *)
Definition entropy1 : bytes :=
  Eval vm_compute in
    match Reference.phraseEntropy phrase with Some e => e | None => [] end.

Definition root1 : HDNode :=
  {| node_privateKey := hexlify (Reference.stretch (Reference.sum_bytes entropy1) 32);
     node_mnemonic := phrase;
     node_path := "m" |}.

Definition node1 : HDNode :=
  {| node_privateKey := key1; node_mnemonic := phrase;
     node_path := defaultPath |}.

Definition node3 : HDNode :=
  {| node_privateKey := key3; node_mnemonic := phrase;
     node_path := path2 |}.

(** The key that scrypt derives from a password, with the salt of the
    samples and [n] as work factor. *)
Definition key_of (password : Password) (n : Z) : bytes :=
  match Reference.scrypt (getPassword password) salt0 n 8 1 64 with
  | Some k => k
  | None => []
  end.

Definition sealed_key (n : Z) : bytes :=
  match Reference.ctr (slice 0 16 (key_of foo n)) iv0 key1_bytes with
  | Some c => c
  | None => []
  end.

Definition sealed_key3 : bytes :=
  match Reference.ctr (slice 0 16 (key_of foo 1024)) iv0 key3_bytes with
  | Some c => c
  | None => []
  end.

(** A document that holds [key1] under the password [foo], with a MAC that
    agrees, and the given address, cipher name, [kdf], [n] and
    [dklen]. *)
Definition sealed (address cipher kdf : string) (n dklen : Z) : json :=
  JObj
    [ ("address", JStr address);
      ("crypto", JObj
         [ ("cipher", JStr cipher);
           ("cipherparams", JObj [ ("iv", JStr (hex_of_bytes iv0)) ]);
           ("ciphertext", JStr (hex_of_bytes (sealed_key n)));
           ("kdf", JStr kdf);
           ("kdfparams", JObj
              [ ("salt", JStr (hex_of_bytes salt0));
                ("n", JNum n);
                ("dklen", JNum dklen);
                ("p", JNum 1);
                ("r", JNum 8) ]);
           ("mac",
            JStr (hex_of_bytes
                    (Reference.keccak_256
                       (slice 16 32 (key_of foo n) ++ sealed_key n)%list))) ]) ].


(** A pbkdf2 document. *)
Definition pbkdf2_document : json :=
  JObj
    [ ("crypto", JObj
         [ ("cipher", JStr "aes-128-ctr");
           ("cipherparams", JObj [ ("iv", JStr (hex_of_bytes iv0)) ]);
           ("ciphertext", JStr (hex_of_bytes key1_bytes));
           ("kdf", JStr "pbkdf2");
           ("kdfparams", JObj
              [ ("salt", JStr (hex_of_bytes salt0));
                ("c", JNum 262144);
                ("dklen", JNum 32);
                ("prf", JStr "hmac-sha256") ]);
           ("mac", JStr "00") ]) ].

(** The MAC of [sealed]. *)
Definition sealed_mac : string :=
  hex_of_bytes
    (Reference.keccak_256 (slice 16 32 (key_of foo 1024) ++ sealed_key 1024)%list).

(** The document [sealed], with the given values at [address] and at
    [crypto/mac] and the given fields after [crypto]. *)
Definition document (address mac : json) (others : list (string * json))
  : json :=
  JObj
    ([ ("address", address);
       ("crypto", JObj
          [ ("cipher", JStr "aes-128-ctr");
            ("cipherparams", JObj [ ("iv", JStr (hex_of_bytes iv0)) ]);
            ("ciphertext", JStr (hex_of_bytes (sealed_key 1024)));
            ("kdf", JStr "scrypt");
            ("kdfparams", JObj
               [ ("salt", JStr (hex_of_bytes salt0));
                 ("n", JNum 1024);
                 ("dklen", JNum 32);
                 ("p", JNum 1);
                 ("r", JNum 8) ]);
            ("mac", mac) ]) ] ++ others).

(** An [x-ethers] part of another version, with a ciphertext that is not
    hex. *)
Definition other_version : json :=
  document (JStr (toLowerCase (substring_from 2 address1))) (JStr sealed_mac)
    [ ("x-ethers", JObj [ ("version", JStr "0.2");
                          ("mnemonicCiphertext", JStr "zz") ]) ].

(** The world after the one call of scrypt for [password]. *)
Definition derived (password : Password) : world :=
  record_call (ScryptCall (getPassword password) salt0 1024 8 1 64) world0.

(** The key that pbkdf2 derives from [foo]. *)
Definition pbkdf2_key : bytes :=
  Reference.stretch (Reference.kdf_seed (getPassword foo) salt0 262144 6 0) 32.

Definition pbkdf2_sealed_key : bytes :=
  match Reference.ctr (slice 0 16 pbkdf2_key) iv0 key1_bytes with
  | Some c => c
  | None => []
  end.

(** A pbkdf2 document that holds [key1] under the password [foo], with the
    given [prf] and [dklen] and the given fields after [crypto]. *)
Definition pbkdf2_wallet (prf : string) (dklen : Z)
    (others : list (string * json)) : json :=
  JObj
    ([ ("crypto", JObj
          [ ("cipher", JStr "aes-128-ctr");
            ("cipherparams", JObj [ ("iv", JStr (hex_of_bytes iv0)) ]);
            ("ciphertext", JStr (hex_of_bytes pbkdf2_sealed_key));
            ("kdf", JStr "pbkdf2");
            ("kdfparams", JObj
               [ ("salt", JStr (hex_of_bytes salt0));
                 ("c", JNum 262144);
                 ("dklen", JNum dklen);
                 ("prf", JStr prf) ]);
            ("mac",
             JStr (hex_of_bytes
                     (Reference.keccak_256
                        (slice 16 32 pbkdf2_key ++ pbkdf2_sealed_key)%list))) ]) ]
     ++ others).

(** The [x-ethers] part of [alice]'s document. *)
Definition alice_x_ethers : list (string * json) :=
  Eval vm_compute in
    match alice_data with
    | JObj fields => skipn 4 fields
    | _ => []
    end.

(** The fields of [bob]'s document before and after [version]. *)
Definition bob_head : list (string * json) :=
  Eval vm_compute in
    match bob_data with
    | JObj fields => firstn 2 fields
    | _ => []
    end.

Definition bob_tail : list (string * json) :=
  Eval vm_compute in
    match bob_data with
    | JObj fields => skipn 3 fields
    | _ => []
    end.

(** Options whose overrides are all falsy, with an [entropy]. *)
Definition falsy_overrides : EncryptOptions :=
  {| opt_iv := Some (BLHex "");
     opt_entropy := Some (BLBytes [x01; x02]);
     opt_client := Some "";
     opt_salt := Some (BLHex "");
     opt_uuid := Some "";
     opt_scrypt :=
       Some {| opt_N := Some 0%Z; opt_r := None; opt_p := Some 0%Z |} |}.

(** What [encrypt] writes for [bob] without options. *)
Definition bob_fresh_text : string :=
  Eval vm_compute in text_of (encrypt bob foo None world0).

Definition bob_fresh_world : world := snd (encrypt bob foo None world0).

End Examples.

(** * Properties *)

(** ** Strings and hex *)

Lemma toLowerCase_app (a b : string) :
  toLowerCase (a ++ b) = toLowerCase a ++ toLowerCase b.
Proof.
  induction a as [|c a IH]; simpl; [reflexivity|]. now rewrite IH.
Qed.



Lemma substring_from_toLowerCase (n : nat) (s : string) :
  substring_from n (toLowerCase s) = toLowerCase (substring_from n s).
Proof.
  revert s; induction n as [|n IH]; intros [|c s]; simpl; auto.
Qed.

Lemma hex_of_byte_lower (b : byte) : toLowerCase (hex_of_byte b) = hex_of_byte b.
Proof.
  destruct b; reflexivity.
Qed.

Lemma hex_of_byte_read (b : byte) :
  exists c1 c2 h l,
    hex_of_byte b = String c1 (String c2 EmptyString) /\
    hex_value c1 = Some h /\ hex_value c2 = Some l /\
    byte_of_N (16 * h + l) = b /\ c2 <> "x"%char.
Proof.
  destruct b; do 4 eexists; (repeat split; [reflexivity ..|discriminate]).
Qed.

Lemma hex_of_bytes_lower (b : bytes) :
  toLowerCase (hex_of_bytes b) = hex_of_bytes b.
Proof.
  induction b as [|x b IH]; cbn [hex_of_bytes]; [reflexivity|].
  now rewrite toLowerCase_app, hex_of_byte_lower, IH.
Qed.

Lemma bytes_of_hex_of_bytes (b : bytes) : bytes_of_hex (hex_of_bytes b) = Some b.
Proof.
  induction b as [|x b IH]; cbn [hex_of_bytes]; [reflexivity|].
  destruct (hex_of_byte_read x) as (c1 & c2 & h & l & -> & H1 & H2 & H3 & _).
  cbn [append bytes_of_hex]. now rewrite H1, H2, IH, H3.
Qed.

Lemma hex_of_bytes_even (b : bytes) :
  Nat.even (String.length (hex_of_bytes b)) = true.
Proof.
  induction b as [|x b IH]; cbn [hex_of_bytes]; [reflexivity|].
  destruct (hex_of_byte_read x) as (c1 & c2 & h & l & -> & _). exact IH.
Qed.

Lemma strip_0x_hex_of_bytes (b : bytes) :
  strip_0x (hex_of_bytes b) = hex_of_bytes b.
Proof.
  destruct b as [|x b]; cbn [hex_of_bytes]; [reflexivity|].
  destruct (hex_of_byte_read x) as (c1 & c2 & h & l & -> & _ & _ & _ & Hx).
  cbn [append]. unfold strip_0x.
  destruct c1 as [[] [] [] [] [] [] [] []]; try reflexivity.
  destruct c2 as [[] [] [] [] [] [] [] []]; try reflexivity.
  now elim Hx.
Qed.

Lemma substring_from_hexlify (b : bytes) :
  substring_from 2 (hexlify b) = hex_of_bytes b.
Proof. reflexivity. Qed.

Lemma looseArrayify_hex_of_bytes (b : bytes) :
  looseArrayify (Some (JStr (hex_of_bytes b))) = Ok b.
Proof.
  unfold looseArrayify.
  now rewrite strip_0x_hex_of_bytes, hex_of_bytes_even, bytes_of_hex_of_bytes.
Qed.

Lemma arrayify_hexlify (b : bytes) : arrayify (BLHex (hexlify b)) = Ok b.
Proof.
  unfold hexlify; simpl. now rewrite bytes_of_hex_of_bytes.
Qed.

Lemma hexlify_str_hexlify (b : bytes) : hexlify_str (hexlify b) = Ok (hexlify b).
Proof.
  unfold hexlify; simpl. rewrite bytes_of_hex_of_bytes.
  now rewrite hex_of_bytes_lower.
Qed.

(** ** Errors of the steps *)

Ltac break_match :=
  match goal with
  | |- context [match ?x with _ => _ end] => destruct x eqn:?
  | H : context [match ?x with _ => _ end] |- _ => destruct x eqn:?
  end.

Lemma searchPath_from_err (comps : list string) (d : json) (e : error) :
  searchPath_from d comps = Err e -> e = AmbiguousKey.
Proof.
  revert d; induction comps as [|c comps IH]; intros d; cbn [searchPath_from].
  - discriminate.
  - destruct d; try discriminate.
    destruct (matching_children fields c) as [|x [|y l]]; try discriminate.
    + apply IH.
    + congruence.
Qed.

Lemma searchPath_err (d : json) (p : string) (e : error) :
  searchPath d p = Err e -> e = AmbiguousKey.
Proof. apply searchPath_from_err. Qed.

Lemma of_option_err {A} (e0 e : error) (o : option A) :
  of_option e0 o = Err e -> e = e0.
Proof. destruct o; cbn; congruence. Qed.

Lemma looseArrayify_err (v : option json) (e : error) :
  looseArrayify v = Err e -> e = InvalidHex.
Proof.
  destruct v as [[]|]; cbn; try congruence; apply of_option_err.
Qed.

Lemma arrayify_err (v : BytesLike) (e : error) :
  arrayify v = Err e -> e = InvalidHex.
Proof.
  unfold arrayify. repeat break_match; try congruence; apply of_option_err.
Qed.

Lemma toLowerCase_value_err (v : option json) (e : error) :
  toLowerCase_value v = Err e -> e = TypeError.
Proof. destruct v as [[]|]; cbn; congruence. Qed.

Lemma path_or_default_err (v : option json) (e : error) :
  path_or_default v = Err e -> e = TypeError.
Proof.
  unfold path_or_default. destruct (truthy v); [|discriminate].
  destruct v as [[]|]; congruence.
Qed.

(** What is known of the error of a failed step. *)
Ltac err_facts :=
  repeat match goal with
    | H : searchPath _ _ = Err _ |- _ => apply searchPath_err in H
    | H : looseArrayify _ = Err _ |- _ => apply looseArrayify_err in H
    | H : arrayify _ = Err _ |- _ => apply arrayify_err in H
    | H : of_option _ _ = Err _ |- _ => apply of_option_err in H
    | H : toLowerCase_value _ = Err _ |- _ => apply toLowerCase_value_err in H
    | H : path_or_default _ = Err _ |- _ => apply path_or_default_err in H
    end.

(** One step of a chain of [let*]: either the step fails, with a known
    error, or it returns and the chain goes on. *)
Ltac step H :=
  match type of H with
  | rbind ?c _ = _ =>
      let E := fresh "E" in
      destruct c eqn:E; cbn [rbind] in H;
      [|err_facts; try (subst; first [reflexivity | discriminate | congruence])]
  end.

Ltac case_if H :=
  match type of H with
  | (if ?b then _ else _) = _ => destruct b eqn:?
  end.

Section StepErrors.

Context {P : Primitives}.

Lemma computeAddress_err (key : BytesLike) (e : error) :
  computeAddress key = Err e -> collaborator_error e = true.
Proof.
  unfold computeAddress. intros H. step H.
  - err_facts. now subst.
  - injection H as <-. now subst.
Qed.

Lemma decrypt_cipher_err (data : json) (key ct : bytes) (e : error) :
  decrypt_cipher data key ct = Err e -> collaborator_error e = true.
Proof.
  unfold decrypt_cipher. intros H. step H.
  - destruct (is_string a "aes-128-ctr"); [|discriminate].
    step H; [|injection H as <-; now subst].
    step H; [|injection H as <-; now subst].
    step H; [discriminate|injection H as <-; now subst].
  - injection H as <-. now subst.
Qed.

Lemma checkAddress_err (data : json) (address : string) (e : error) :
  checkAddress data address = Err e ->
  e = AddressMismatch \/ collaborator_error e = true.
Proof.
  unfold checkAddress. intros H.
  destruct (truthy (get_prop data "address")); [|discriminate].
  step H; [|right; injection H as <-; now subst].
  cbv zeta in H.
  step H; [|right; injection H as <-; now subst].
  case_if H; [|discriminate]. left; congruence.
Qed.

Lemma getMnemonic_err (data : json) (mnemonicKey : bytes) (privateKey : string)
    (e : error) :
  getMnemonic data mnemonicKey privateKey = Err e ->
  e = MnemonicMismatch \/ collaborator_error e = true.
Proof.
  unfold getMnemonic. intros H.
  do 9 (step H; [|right; injection H as <-; now subst]).
  step H; [|right; injection H as <-; now subst].
  case_if H; [|discriminate]. left; congruence.
Qed.

End StepErrors.

(** Close a goal whose hypothesis [H] says that a failed step raised an
    error that the step cannot raise. *)
Ltac absurd_err H :=
  first
    [ discriminate H
    | injection H as H; subst; err_facts;
      repeat match goal with
        | E : computeAddress _ = Err _ |- _ => apply computeAddress_err in E
        | E : decrypt_cipher _ _ _ = Err _ |- _ => apply decrypt_cipher_err in E
        | E : checkAddress _ _ = Err _ |- _ =>
            apply checkAddress_err in E; destruct E as [E|E]
        | E : getMnemonic _ _ _ = Err _ |- _ =>
            apply getMnemonic_err in E; destruct E as [E|E]
        end;
      first [discriminate | congruence] ].

Ltac step_or_absurd H :=
  match type of H with
  | rbind ?c _ = _ =>
      let E := fresh "E" in
      destruct c eqn:E; cbn [rbind] in H; [|absurd_err H]
  end.

Section Decrypt.

Context {P : Primitives}.

Lemma computedMAC_eq (key ciphertext : bytes) :
  exists mac_hex,
    hexlify_str (computeMAC (slice 16 32 key) ciphertext) = Ok mac_hex /\
    substring_from 2 mac_hex =
      hex_of_bytes (keccak_256 (slice 16 32 key ++ ciphertext)%list).
Proof.
  unfold computeMAC, keccak256, concat. cbn [List.concat].
  rewrite app_nil_r, hexlify_str_hexlify. eexists; split; reflexivity.
Qed.

Lemma decrypt_getAccount (text : string) (password : Password) (w w1 : world)
    (data : json) (key : bytes) :
  JSON_parse text = Some data ->
  deriveKey data (getPassword password) w = (Ok key, w1) ->
  decrypt text password w = (getAccount data key, w1).
Proof.
  intros Hp Hk. unfold decrypt, decrypt_data, bind, lift.
  now rewrite Hp, Hk.
Qed.

(** [getAccount] fails on a MAC that differs, before anything else is
    read. *)
Lemma getAccount_mac_differs (data : json) (key : bytes) (ct_v : option json)
    (ciphertext : bytes) (mac : string) :
  searchPath data "crypto/ciphertext" = Ok ct_v ->
  looseArrayify ct_v = Ok ciphertext ->
  searchPath data "crypto/mac" = Ok (Some (JStr mac)) ->
  hex_of_bytes (keccak_256 (slice 16 32 key ++ ciphertext)%list)
    <> toLowerCase mac ->
  getAccount data key = Err InvalidPassword.
Proof.
  intros Hv Hct Hmac Hne. unfold getAccount.
  rewrite Hv. cbn [rbind]. rewrite Hct. cbn [rbind].
  destruct (computedMAC_eq key ciphertext) as (h & -> & Hh).
  cbn [rbind]. cbv zeta. rewrite Hh, Hmac.
  cbn [rbind toLowerCase_value].
  apply String.eqb_neq in Hne. now rewrite Hne.
Qed.

(** [getAccount] fails with [InvalidPassword] only on a MAC that
    differs. *)
Lemma getAccount_invalid_password (data : json) (key : bytes) :
  getAccount data key = Err InvalidPassword ->
  exists ct_v ciphertext mac,
    searchPath data "crypto/ciphertext" = Ok ct_v /\
    looseArrayify ct_v = Ok ciphertext /\
    searchPath data "crypto/mac" = Ok (Some (JStr mac)) /\
    hex_of_bytes (keccak_256 (slice 16 32 key ++ ciphertext)%list)
      <> toLowerCase mac.
Proof.
  unfold getAccount. intros H.
  step_or_absurd H. step_or_absurd H.
  destruct (computedMAC_eq key a0) as (h & Hh1 & Hh).
  rewrite Hh1 in H. cbn [rbind] in H. cbv zeta in H. rewrite Hh in H.
  step_or_absurd H.
  destruct a1 as [[| | |mac| |]|]; cbn [toLowerCase_value rbind] in H;
    try discriminate.
  exists a, a0, mac. repeat (split; [assumption || reflexivity|]).
  destruct (String.eqb_spec
    (hex_of_bytes (keccak_256 (slice 16 32 key ++ a0)%list)) (toLowerCase mac))
    as [Heq|Hne]; [|exact Hne].
  exfalso. cbn [negb] in H.
  step_or_absurd H.
  destruct a1; [|discriminate].
  step_or_absurd H. step_or_absurd H. step_or_absurd H.
  destruct (is_string a3 "0.1"); [|discriminate].
  step_or_absurd H. discriminate.
Qed.

End Decrypt.

(** ** The MAC check and what follows it *)

Section MAC.

Context {P : Primitives}.

(** C4. On decrypt the MAC is the Keccak-256 digest of bytes 16 to 32 of
    the derived key followed by the ciphertext; for a document whose
    ciphertext and [crypto/mac] are read, [decrypt] fails with
    [InvalidPassword] if and only if the lower-case hex of that digest
    differs from [crypto/mac] folded to lower case. *)
Theorem decrypt_invalid_password_iff (text : string) (password : Password)
    (w w1 : world) (data : json) (key : bytes) (ct_v : option json)
    (ciphertext : bytes) (mac : string) :
  JSON_parse text = Some data ->
  deriveKey data (getPassword password) w = (Ok key, w1) ->
  searchPath data "crypto/ciphertext" = Ok ct_v ->
  looseArrayify ct_v = Ok ciphertext ->
  searchPath data "crypto/mac" = Ok (Some (JStr mac)) ->
  computeMAC (slice 16 32 key) ciphertext =
    hexlify (keccak_256 (slice 16 32 key ++ ciphertext)%list) /\
  (fst (decrypt text password w) = Err InvalidPassword <->
   hex_of_bytes (keccak_256 (slice 16 32 key ++ ciphertext)%list)
     <> toLowerCase mac).
Proof.
  intros Hp Hk Hv Hct Hmac. split.
  - unfold computeMAC, keccak256, concat. cbn [List.concat].
    now rewrite app_nil_r.
  - rewrite (decrypt_getAccount _ _ _ Hp Hk). cbn [fst]. split.
    + intros H.
      destruct (getAccount_invalid_password _ _ H)
        as (ct_v' & ct' & mac' & Hv' & Hct' & Hmac' & Hne).
      rewrite Hv in Hv'. injection Hv' as <-.
      rewrite Hct in Hct'. injection Hct' as <-.
      rewrite Hmac in Hmac'. injection Hmac' as <-. exact Hne.
    + intros Hne. exact (getAccount_mac_differs _ _ Hv Hct Hmac Hne).
Qed.

(** C9. The MAC is verified before the cipher name is looked at: for a
    document whose cipher is not aes-128-ctr, [decrypt] raises
    [UnsupportedCipher] only if the MAC under the derived key agrees with
    the stored one, and with a key that does not reproduce the stored MAC it
    fails with [InvalidPassword] instead. *)
Theorem decrypt_mac_before_cipher (text : string) (password : Password)
    (w w1 : world) (data : json) (key : bytes) (ct_v cipher : option json)
    (ciphertext : bytes) (mac : string) :
  JSON_parse text = Some data ->
  deriveKey data (getPassword password) w = (Ok key, w1) ->
  searchPath data "crypto/ciphertext" = Ok ct_v ->
  looseArrayify ct_v = Ok ciphertext ->
  searchPath data "crypto/mac" = Ok (Some (JStr mac)) ->
  searchPath data "crypto/cipher" = Ok cipher ->
  is_string cipher "aes-128-ctr" = false ->
  (fst (decrypt text password w) = Err UnsupportedCipher <->
   hex_of_bytes (keccak_256 (slice 16 32 key ++ ciphertext)%list)
     = toLowerCase mac) /\
  (fst (decrypt text password w) = Err InvalidPassword <->
   hex_of_bytes (keccak_256 (slice 16 32 key ++ ciphertext)%list)
     <> toLowerCase mac).
Proof.
  intros Hp Hk Hv Hct Hmac Hc Hno.
  assert (Hcases :
    getAccount data key =
    if String.eqb
         (hex_of_bytes (keccak_256 (slice 16 32 key ++ ciphertext)%list))
         (toLowerCase mac)
    then Err UnsupportedCipher else Err InvalidPassword).
  { unfold getAccount.
    rewrite Hv. cbn [rbind]. rewrite Hct. cbn [rbind].
    destruct (computedMAC_eq key ciphertext) as (h & -> & Hh).
    cbn [rbind]. cbv zeta. rewrite Hh, Hmac.
    cbn [rbind toLowerCase_value].
    destruct (String.eqb _ (toLowerCase mac)); cbn [negb]; [|reflexivity].
    unfold decrypt_cipher. rewrite Hc. cbn [rbind]. now rewrite Hno. }
  rewrite (decrypt_getAccount _ _ _ Hp Hk). cbn [fst]. rewrite Hcases.
  destruct (String.eqb_spec
    (hex_of_bytes (keccak_256 (slice 16 32 key ++ ciphertext)%list))
    (toLowerCase mac)) as [Heq|Hne].
  - split; split; intros H; try reflexivity; try discriminate; try assumption.
    now elim H.
  - split; split; intros H; try reflexivity; try discriminate; try assumption.
    now elim Hne.
Qed.

End MAC.

(** ** The checks of [encrypt] *)

Section Encrypt.

Context {P : Primitives}.

Lemma bind_lift {A B} (r : result A) (k : A -> M B) (w : world) :
  bind (lift r) k w =
  match r with
  | Ok a => k a w
  | Err e => (Err e, w)
  end.
Proof. unfold bind, lift. now destruct r. Qed.

Lemma calls_none {A} (m : M A) (w : world) (r : result A) :
  m w = (r, w) -> calls m w = [].
Proof.
  intros H. unfold calls. rewrite H. cbn [snd]. apply skipn_all.
Qed.

Lemma calls_one {A} (m : M A) (w w' : world) (r : result A) (ev : event) :
  m w = (r, w') -> log w' = (log w ++ [ev])%list -> calls m w = [ev].
Proof.
  intros H Hl. unfold calls. rewrite H. cbn [snd]. rewrite Hl.
  rewrite skipn_app, skipn_all, Nat.sub_diag. reflexivity.
Qed.

Lemma encrypt_rejected (account : ExternallyOwnedAccount)
    (password : Password) (options : option EncryptOptions) (w : world)
    (e : error) :
  checkAccount account = Err e ->
  encrypt account password options w = (Err e, w).
Proof.
  intros H. unfold encrypt. rewrite bind_lift, H. reflexivity.
Qed.

(** C6. [encrypt] validates its account before any key derivation: an
    address whose EIP-55 form differs from the address computed from the
    private key is rejected with [AddressPrivateKeyMismatch]; past that
    check, a mnemonic that does not derive, along the given or default path,
    to the private key is rejected with [MnemonicMismatch], and a path
    without a mnemonic with [PathWithoutMnemonic]; in each case the run makes
    no key-derivation call. *)
Theorem encrypt_validates_first (account : ExternallyOwnedAccount)
    (password : Password) (options : option EncryptOptions) (w : world)
    (canonical computed : string) :
  getAddress (address account) = Some canonical ->
  computeAddress (BLHex (privateKey account)) = Ok computed ->
  (canonical <> computed ->
   encrypt account password options w = (Err AddressPrivateKeyMismatch, w) /\
   calls (encrypt account password options) w = []) /\
  (canonical = computed ->
   forall m node,
     mnemonic account = Some m ->
     hdDerive m (or_defaultPath (path account)) = Ok node ->
     node_privateKey node <> privateKey account ->
     encrypt account password options w = (Err MnemonicMismatch, w) /\
     calls (encrypt account password options) w = []) /\
  (canonical = computed ->
   forall p,
     mnemonic account = None ->
     path account = Some p ->
     encrypt account password options w = (Err PathWithoutMnemonic, w) /\
     calls (encrypt account password options) w = []).
Proof.
  intros Hc Ha.
  assert (Hstart : forall e,
    (if negb (String.eqb canonical computed) then Err AddressPrivateKeyMismatch
     else
       match mnemonic account with
       | Some m =>
           (let* node := hdDerive m (or_defaultPath (path account)) in
            if negb (String.eqb (node_privateKey node) (privateKey account))
            then Err MnemonicMismatch else Ok tt)%result
       | None =>
           match path account with
           | Some _ => Err PathWithoutMnemonic
           | None => Ok tt
           end
       end) = Err e ->
    encrypt account password options w = (Err e, w) /\
    calls (encrypt account password options) w = []).
  { intros e He.
    assert (H : encrypt account password options w = (Err e, w)).
    { apply encrypt_rejected. unfold checkAccount.
      rewrite Hc. cbn [of_option rbind]. rewrite Ha. cbn [rbind]. exact He. }
    split; [exact H|eapply calls_none; exact H]. }
  split; [|split].
  - intros Hne. apply Hstart. apply String.eqb_neq in Hne. now rewrite Hne.
  - intros -> m node Hm Hn Hne. apply Hstart.
    rewrite String.eqb_refl. cbn [negb]. rewrite Hm, Hn. cbn [rbind].
    apply String.eqb_neq in Hne. now rewrite Hne.
  - intros -> p Hm Hp. apply Hstart.
    rewrite String.eqb_refl. cbn [negb]. now rewrite Hm, Hp.
Qed.

End Encrypt.

(** ** The overrides of [encrypt] *)

Section Overrides.

Context {P : Primitives}.

Lemma random_log (n : nat) (w : world) : log (snd (random n w)) = log w.
Proof. unfold random. now destruct (randomBytes n (rng w)). Qed.

Lemma random_ok (n : nat) (w : world) : exists b, fst (random n w) = Ok b.
Proof. unfold random. destruct (randomBytes n (rng w)). now eexists. Qed.

Lemma chooseSalt_log (o : EncryptOptions) (w : world) :
  log (snd (chooseSalt o w)) = log w.
Proof.
  unfold chooseSalt, lift.
  repeat break_match; cbn [snd]; auto using random_log.
Qed.

Lemma chooseIv_log (o : EncryptOptions) (w : world) :
  log (snd (chooseIv o w)) = log w.
Proof.
  unfold chooseIv. repeat break_match; auto using random_log.
  rewrite bind_lift. unfold throw, ret.
  repeat break_match; reflexivity.
Qed.

Lemma chooseUuid_log (o : EncryptOptions) (w : world) :
  log (snd (chooseUuid o w)) = log w.
Proof.
  unfold chooseUuid. repeat break_match; auto using random_log.
  rewrite bind_lift. unfold throw, ret.
  repeat break_match; reflexivity.
Qed.

Lemma encryptWith_log (account : ExternallyOwnedAccount) (privateKey : bytes)
    (entropy : option (bytes * string)) (client : string)
    (salt iv uuidRandom : bytes) (N r p : Z) (key : bytes) (w : world) :
  log (snd (encryptWith account privateKey entropy client salt iv uuidRandom
              N r p key w)) = log w.
Proof.
  unfold encryptWith. rewrite bind_lift.
  destruct (of_option _ (aes_ctr_encrypt (slice 0 16 key) iv privateKey));
    [|reflexivity].
  destruct entropy as [[e pth]|]; [|reflexivity].
  unfold bind at 1. pose proof (random_log 16 w) as Hr.
  destruct (random 16 w) as [[b|?] w1]; cbn [snd] in Hr; [|exact Hr].
  rewrite bind_lift.
  destruct (of_option _ _); [|exact Hr]. exact Hr.
Qed.

(** [encrypt] once the account has passed the checks. *)
Lemma encrypt_checked (account : ExternallyOwnedAccount) (password : Password)
    (options : option EncryptOptions) (w : world) (k : bytes)
    (entropy : option (bytes * string)) :
  checkAccount account = Ok tt ->
  arrayify (BLHex (privateKey account)) = Ok k ->
  accountEntropy account = Ok entropy ->
  encrypt account password options w =
  bind (chooseSalt (the_options options)) (fun salt =>
  bind (chooseIv (the_options options)) (fun iv =>
  bind (chooseUuid (the_options options)) (fun uuidRandom =>
  let N := scryptParam (scryptField opt_N (the_options options)) (2 ^ 17) in
  let r := scryptParam (scryptField opt_r (the_options options)) 8 in
  let p := scryptParam (scryptField opt_p (the_options options)) 1 in
  bind (call_scrypt (getPassword password) salt N r p 64) (fun key =>
  bind (encryptWith account k entropy
          match opt_client (the_options options) with
          | Some c => if truthy_string c then c else "ethers.js"
          | None => "ethers.js"
          end salt iv uuidRandom N r p key) (fun data =>
  ret (JSON_stringify data)))))) w.
Proof.
  intros H1 H2 H3. unfold encrypt.
  rewrite bind_lift, H1, bind_lift, H2, bind_lift, H3. reflexivity.
Qed.

(** C10. [encrypt] does not validate the length of [options.salt]: a
    supplied salt of any length is the salt of the scrypt call, as it is,
    and raises no error, whereas an [iv] or a [uuid] override that is not
    exactly 16 bytes is rejected with [InvalidIv] or [InvalidUuid]. *)
Theorem encrypt_salt_not_validated (account : ExternallyOwnedAccount)
    (password : Password) (options : EncryptOptions) (w : world)
    (v : BytesLike) (salt k : bytes) (entropy : option (bytes * string)) :
  checkAccount account = Ok tt ->
  arrayify (BLHex (privateKey account)) = Ok k ->
  accountEntropy account = Ok entropy ->
  opt_salt options = Some v ->
  truthy_byteslike v = true ->
  arrayify v = Ok salt ->
  chooseSalt options w = (Ok salt, w) /\
  (forall iv w1 uuidRandom w2,
     chooseIv options w = (Ok iv, w1) ->
     chooseUuid options w1 = (Ok uuidRandom, w2) ->
     calls (encrypt account password (Some options)) w =
       [ScryptCall (getPassword password) salt
          (scryptParam (scryptField opt_N options) (2 ^ 17))
          (scryptParam (scryptField opt_r options) 8)
          (scryptParam (scryptField opt_p options) 1) 64]) /\
  (forall iv_v iv,
     opt_iv options = Some iv_v ->
     truthy_byteslike iv_v = true ->
     arrayify iv_v = Ok iv ->
     List.length iv <> 16%nat ->
     encrypt account password (Some options) w = (Err InvalidIv, w)) /\
  (forall iv w1 uuid_v uuidRandom,
     chooseIv options w = (Ok iv, w1) ->
     opt_uuid options = Some uuid_v ->
     truthy_string uuid_v = true ->
     arrayify (BLHex uuid_v) = Ok uuidRandom ->
     List.length uuidRandom <> 16%nat ->
     encrypt account password (Some options) w = (Err InvalidUuid, w1)).
Proof.
  intros H1 H2 H3 Hs Ht Ha.
  assert (Hsalt : chooseSalt options w = (Ok salt, w)).
  { unfold chooseSalt. now rewrite Hs, Ht, Ha. }
  split; [exact Hsalt|]. split; [|split].
  - intros iv w1 uuidRandom w2 Hiv Hu.
    pose proof (chooseIv_log options w) as L1. rewrite Hiv in L1.
    pose proof (chooseUuid_log options w1) as L2. rewrite Hu in L2.
    cbn [snd] in L1, L2.
    unfold calls. erewrite encrypt_checked; [|eassumption ..].
    cbn [the_options]. unfold bind at 1. rewrite Hsalt.
    unfold bind at 1. rewrite Hiv.
    unfold bind at 1. rewrite Hu. cbv zeta.
    unfold bind at 1, call_scrypt.
    destruct (of_option _ _) as [key|e]; cbn [snd].
    + unfold bind at 1.
      match goal with
      | |- context [encryptWith ?a ?b ?c ?d ?e ?f ?g ?h ?i ?j ?k ?w] =>
          pose proof (encryptWith_log a b c d e f g h i j k w) as L3;
          destruct (encryptWith a b c d e f g h i j k w) as [[data|e'] w3]
      end; cbn [snd] in L3 |- *; unfold ret; cbn [snd];
      rewrite L3; unfold record_call; cbn [log]; rewrite L2, L1;
      now rewrite skipn_app, skipn_all, Nat.sub_diag.
    + unfold record_call; cbn [log]. rewrite L2, L1.
      now rewrite skipn_app, skipn_all, Nat.sub_diag.
  - intros iv_v iv Hiv Htv Hav Hlen.
    erewrite encrypt_checked; [|eassumption ..].
    cbn [the_options]. unfold bind at 1. rewrite Hsalt.
    unfold bind at 1, chooseIv. rewrite Hiv, Htv, bind_lift, Hav.
    apply Nat.eqb_neq in Hlen. now rewrite Hlen.
  - intros iv w1 uuid_v uuidRandom Hiv Hu Htu Hau Hlen.
    erewrite encrypt_checked; [|eassumption ..].
    cbn [the_options]. unfold bind at 1. rewrite Hsalt.
    unfold bind at 1. rewrite Hiv.
    unfold bind at 1, chooseUuid. rewrite Hu, Htu, bind_lift, Hau.
    apply Nat.eqb_neq in Hlen. now rewrite Hlen.
Qed.

End Overrides.

(** ** Determinism of [encrypt] *)

Section Determinism.

Context {P : Primitives}.

Lemma deterministic_bind {A B} (m : M A) (k : A -> M B) :
  deterministic m -> (forall a, deterministic (k a)) ->
  deterministic (bind m k).
Proof.
  intros Hm Hk w1 w2. unfold bind. specialize (Hm w1 w2).
  destruct (m w1) as [[a1|e1] w1'], (m w2) as [[a2|e2] w2'];
    cbn [fst] in Hm; try discriminate.
  - injection Hm as <-. apply Hk.
  - injection Hm as <-. reflexivity.
Qed.

Lemma deterministic_bind_lift {A B} (r : result A) (k : A -> M B) :
  (forall a, r = Ok a -> deterministic (k a)) ->
  deterministic (bind (lift r) k).
Proof.
  intros Hk w1 w2. rewrite !bind_lift. destruct r as [a|e]; [|reflexivity].
  now apply Hk.
Qed.

Lemma deterministic_lift {A} (r : result A) : deterministic (lift r).
Proof. intros w1 w2. reflexivity. Qed.

Lemma deterministic_ret {A} (a : A) : deterministic (ret a).
Proof. intros w1 w2. reflexivity. Qed.

Lemma deterministic_throw {A} (e : error) : deterministic (@throw A e).
Proof. intros w1 w2. reflexivity. Qed.

Lemma deterministic_call_scrypt (password salt : bytes) (N r p dkLen : Z) :
  deterministic (call_scrypt password salt N r p dkLen).
Proof. intros w1 w2. reflexivity. Qed.

Lemma deterministic_overrides (options : EncryptOptions) :
  overrides_supplied options = true ->
  deterministic (chooseSalt options) /\
  deterministic (chooseIv options) /\
  deterministic (chooseUuid options).
Proof.
  unfold overrides_supplied, chooseSalt, chooseIv, chooseUuid.
  destruct (opt_iv options) as [iv|]; [|discriminate].
  destruct (opt_salt options) as [salt|]; [|discriminate].
  destruct (opt_uuid options) as [uuid|]; [|discriminate].
  intros H. apply andb_true_iff in H as [H Hu].
  apply andb_true_iff in H as [Hi Hs]. rewrite Hi, Hs, Hu.
  split; [|split].
  - apply deterministic_lift.
  - apply deterministic_bind; [apply deterministic_lift|].
    intros a. destruct (negb _);
      [apply deterministic_throw|apply deterministic_ret].
  - apply deterministic_bind; [apply deterministic_lift|].
    intros a. destruct (negb _);
      [apply deterministic_throw|apply deterministic_ret].
Qed.

Lemma accountEntropy_none (account : ExternallyOwnedAccount) :
  carries_mnemonic account = false -> accountEntropy account = Ok None.
Proof.
  unfold carries_mnemonic, accountEntropy.
  destruct (mnemonic account) as [m|]; [|reflexivity]. now intros ->.
Qed.

(** C3, as the code has it. With the [iv], [salt] and [uuid] overrides
    supplied, [encrypt] of an account that carries no mnemonic is a
    function of its arguments: two runs with the same account, password and
    options give the same result, whatever the random source and the clock
    are. *)
Theorem encrypt_deterministic_without_mnemonic
    (account : ExternallyOwnedAccount) (password : Password)
    (options : EncryptOptions) (w1 w2 : world) :
  overrides_supplied options = true ->
  carries_mnemonic account = false ->
  fst (encrypt account password (Some options) w1) =
  fst (encrypt account password (Some options) w2).
Proof.
  intros Ho Hm. revert w1 w2.
  change (deterministic (encrypt account password (Some options))).
  destruct (deterministic_overrides options Ho) as (Hs & Hi & Hu).
  unfold encrypt. rewrite (accountEntropy_none account Hm).
  apply deterministic_bind; [apply deterministic_lift|]. intros _.
  apply deterministic_bind; [apply deterministic_lift|]. intros k.
  apply deterministic_bind_lift. intros entropy [= <-].
  apply deterministic_bind; [exact Hs|]. intros salt.
  apply deterministic_bind; [exact Hi|]. intros iv.
  apply deterministic_bind; [exact Hu|]. intros uuidRandom.
  apply deterministic_bind; [apply deterministic_call_scrypt|]. intros key.
  apply deterministic_bind; [|intros; apply deterministic_ret].
  unfold encryptWith.
  apply deterministic_bind; [apply deterministic_lift|]. intros ct.
  apply deterministic_ret.
Qed.

End Determinism.

(** ** Numbers *)

Lemma infinity_large : (2 ^ 53 < infinity)%Z.
Proof. unfold infinity. apply Z.pow_lt_mono_r; lia. Qed.

Lemma round53_small (n : Z) : (0 <= n <= 2 ^ 53)%Z -> round53 n = n.
Proof.
  intros H. destruct (Z.eq_dec n (2 ^ 53)) as [->|Hn53]; [reflexivity|].
  unfold round53.
  assert (Hl : (Z.log2 n < 53)%Z).
  { destruct (Z.eq_dec n 0) as [->|Hn]; [cbn; lia|].
    apply Z.log2_lt_pow2; lia. }
  cbv zeta. destruct (Z.leb_spec (Z.log2 n - 52) 0); [reflexivity|lia].
Qed.

(** An integer of at most 53 bits is a Number. *)
Lemma number_of_Z_small (z : Z) :
  (Z.abs z <= 2 ^ 53)%Z -> number_of_Z z = z.
Proof.
  intros H. unfold number_of_Z. rewrite round53_small by lia.
  pose proof infinity_large. rewrite Z.min_l by lia.
  destruct (Z.ltb_spec z 0); lia.
Qed.

(** On these [N - 1] is exact. *)
Lemma js_pred_small (N : Z) :
  (- 2 ^ 53 < N <= 2 ^ 53)%Z -> js_pred N = (N - 1)%Z.
Proof. intros H. apply number_of_Z_small. lia. Qed.


(** ** The test for a power of two *)

Lemma toInt32_small (z : Z) :
  (- 2 ^ 31 <= z < 2 ^ 31)%Z -> toInt32 z = z.
Proof.
  intros H. unfold toInt32. rewrite Z.mod_small; lia.
Qed.

Lemma land_pred_pow2 (k : Z) : (0 <= k)%Z -> Z.land (2 ^ k) (2 ^ k - 1) = 0%Z.
Proof.
  intros Hk. replace (2 ^ k - 1)%Z with (Z.ones k)
    by (rewrite Z.ones_equiv; lia).
  rewrite Z.land_ones by exact Hk. apply Z.mod_same.
  apply Z.pow_nonzero; lia.
Qed.


Lemma land_pred_zero (n : Z) :
  (0 < n)%Z -> Z.land n (n - 1) = 0%Z -> is_power_of_two n.
Proof.
  intros Hn Hl. exists (Z.log2 n). split; [apply Z.log2_nonneg|].
  destruct (Z.log2_spec n Hn) as [Hlo Hhi].
  destruct (Z.eq_dec n (2 ^ Z.log2 n)) as [E|E]; [exact E|exfalso].
  assert (Hb : Z.testbit (Z.land n (n - 1)) (Z.log2 n) = true).
  { rewrite Z.land_spec, (Z.bit_log2 n Hn). cbn [andb].
    assert (Hl2 : Z.log2 (n - 1) = Z.log2 n).
    { apply Z.log2_unique; [apply Z.log2_nonneg|].
      replace (Z.succ (Z.log2 n)) with (Z.log2 n + 1)%Z in * by lia. lia. }
    rewrite <- Hl2. apply Z.bit_log2.
    assert (0 < 2 ^ Z.log2 n)%Z
      by (apply Z.pow_pos_nonneg; [lia|apply Z.log2_nonneg]).
    lia. }
  rewrite Hl, Z.bits_0 in Hb. discriminate.
Qed.


(** ** The key-derivation branches of [decrypt] *)

Section KDF.

Context {P : Primitives}.

Lemma decrypt_deriveKey_failed (text : string) (password : Password)
    (w w1 : world) (data : json) (e : error) :
  JSON_parse text = Some data ->
  deriveKey data (getPassword password) w = (Err e, w1) ->
  decrypt text password w = (Err e, w1).
Proof.
  intros Hp Hk. unfold decrypt, decrypt_data, bind. now rewrite Hp, Hk.
Qed.

Lemma deriveKey_scrypt (data : json) (passwordBytes : bytes) (w : world)
    (kdf : string) :
  searchPath data "crypto/kdf" = Ok (Some (JStr kdf)) ->
  toLowerCase kdf = "scrypt" ->
  deriveKey data passwordBytes w = scryptKey data passwordBytes w.
Proof.
  intros Hk Hs. unfold deriveKey. rewrite bind_lift, Hk, Hs.
  destruct kdf; [discriminate|reflexivity].
Qed.

Lemma deriveKey_pbkdf2 (data : json) (passwordBytes : bytes) (w : world)
    (kdf : string) :
  searchPath data "crypto/kdf" = Ok (Some (JStr kdf)) ->
  toLowerCase kdf = "pbkdf2" ->
  deriveKey data passwordBytes w = pbkdf2Key data passwordBytes w.
Proof.
  intros Hk Hs. unfold deriveKey. rewrite bind_lift, Hk, Hs.
  destruct kdf; [discriminate|reflexivity].
Qed.

(** The scrypt branch once the salt and the three parameters are read. *)
Lemma scryptKey_read (data : json) (passwordBytes : bytes) (w : world)
    (salt_v N_v r_v p_v : option json) (salt : bytes) :
  searchPath data "crypto/kdfparams/salt" = Ok salt_v ->
  looseArrayify salt_v = Ok salt ->
  searchPath data "crypto/kdfparams/n" = Ok N_v ->
  searchPath data "crypto/kdfparams/r" = Ok r_v ->
  searchPath data "crypto/kdfparams/p" = Ok p_v ->
  scryptKey data passwordBytes w =
  match parseInt N_v, parseInt r_v, parseInt p_v with
  | Some N, Some r, Some p =>
      if (N =? 0)%Z || (r =? 0)%Z || (p =? 0)%Z then
        throw UnsupportedKdfParams w
      else if negb (js_and N (js_pred N) =? 0)%Z then
        throw UnsupportedKdfNValue w
      else
        bind (lift (searchPath data "crypto/kdfparams/dklen")) (fun dkLen_v =>
          match parseInt dkLen_v with
          | Some 32%Z => call_scrypt passwordBytes salt N r p 64
          | _ => throw UnsupportedDkLen
          end) w
  | _, _, _ => throw UnsupportedKdfParams w
  end.
Proof.
  intros H1 H2 H3 H4 H5. unfold scryptKey.
  rewrite bind_lift, H1, bind_lift, H2, bind_lift, H3, bind_lift, H4,
    bind_lift, H5.
  cbv zeta. repeat break_match; reflexivity.
Qed.


(** C2, as the code has it. In the pbkdf2 branch of [decrypt], once [prf]
    and [dklen] are validated, pbkdf2 is called once, for the 32 bytes that
    [dklen] states, and the key it returns is the one handed to
    [getAccount]. *)
Theorem decrypt_pbkdf2_requests_dklen (text : string) (password : Password)
    (w : world) (data : json) (kdf hash : string)
    (salt_v prf c_v dkLen_v : option json) (salt : bytes) :
  JSON_parse text = Some data ->
  searchPath data "crypto/kdf" = Ok (Some (JStr kdf)) ->
  toLowerCase kdf = "pbkdf2" ->
  searchPath data "crypto/kdfparams/salt" = Ok salt_v ->
  looseArrayify salt_v = Ok salt ->
  searchPath data "crypto/kdfparams/prf" = Ok prf ->
  (is_string prf "hmac-sha256" = true /\ hash = "sha256" \/
   is_string prf "hmac-sha256" = false /\
   is_string prf "hmac-sha512" = true /\ hash = "sha512") ->
  searchPath data "crypto/kdfparams/c" = Ok c_v ->
  searchPath data "crypto/kdfparams/dklen" = Ok dkLen_v ->
  parseInt dkLen_v = Some 32%Z ->
  calls (decrypt text password) w =
    [Pbkdf2Call (getPassword password) salt (parseInt c_v) 32 hash] /\
  (forall key_hex key,
     pbkdf2 (getPassword password) salt (parseInt c_v) 32 hash = Some key_hex ->
     arrayify (BLHex key_hex) = Ok key ->
     fst (decrypt text password w) = getAccount data key).
Proof.
  intros Hp Hk Hs H1 H2 H3 Hprf H4 H5 H6.
  assert (Hrun : decrypt text password w =
    bind (call_pbkdf2 (getPassword password) salt (parseInt c_v) 32 hash)
      (fun key_hex =>
         bind (lift (arrayify (BLHex key_hex))) (fun key =>
           lift (getAccount data key))) w).
  { unfold decrypt, decrypt_data. rewrite Hp. unfold bind at 1.
    erewrite deriveKey_pbkdf2; [|eassumption ..]. unfold pbkdf2Key.
    rewrite bind_lift, H1, bind_lift, H2, bind_lift, H3.
    assert (Hf : (if is_string prf "hmac-sha256" then ret "sha256"
                  else if is_string prf "hmac-sha512" then ret "sha512"
                  else throw UnsupportedPrf) = ret hash).
    { destruct Hprf as [(-> & ->)|(-> & -> & ->)]; reflexivity. }
    rewrite Hf.
    change (bind (ret hash) ?k w) with (k hash w). cbv beta.
    rewrite bind_lift, H4. cbv zeta. rewrite bind_lift, H5, H6.
    unfold bind, lift, call_pbkdf2.
    destruct (of_option _ _) as [key_hex|e]; [|reflexivity].
    destruct (arrayify (BLHex key_hex)); reflexivity. }
  split.
  - unfold calls. rewrite Hrun. unfold bind, lift, call_pbkdf2.
    destruct (of_option _ _) as [key_hex|e]; cbn [snd].
    + destruct (arrayify (BLHex key_hex)); cbn [snd log record_call];
        now rewrite skipn_app, skipn_all, Nat.sub_diag.
    + cbn [snd log record_call].
      now rewrite skipn_app, skipn_all, Nat.sub_diag.
  - intros key_hex key Hkey Harr. rewrite Hrun.
    unfold bind, lift, call_pbkdf2. rewrite Hkey. cbn [of_option].
    now rewrite Harr.
Qed.

End KDF.

(** ** [getAccount] past the MAC *)

Section Account.

Context {P : Primitives}.

(** [getAccount] once the Web3 part has gone through. *)
Lemma getAccount_recovered (data : json) (key pk : bytes)
    (computed : string) :
  recovers data key pk computed ->
  getAccount data key =
  (let* _ := checkAddress data computed in
   let* version := searchPath data "x-ethers/version" in
   if is_string version "0.1" then
     let* mp := getMnemonic data (slice 32 64 key) (hexlify pk) in
     Ok {| _isKeystoreAccount := true;
           account := {| address := computed;
                         privateKey := hexlify pk;
                         mnemonic := Some (fst mp);
                         path := Some (snd mp) |} |}
   else
     Ok {| _isKeystoreAccount := true;
           account := {| address := computed;
                         privateKey := hexlify pk;
                         mnemonic := None;
                         path := None |} |})%result.
Proof.
  intros (ct_v & ct & mac & Hv & Hct & Hmac & Heq & Hc & Ha).
  unfold getAccount.
  rewrite Hv. cbn [rbind]. rewrite Hct. cbn [rbind].
  destruct (computedMAC_eq key ct) as (h & -> & Hh).
  cbn [rbind]. cbv zeta. rewrite Hh, Hmac.
  cbn [rbind toLowerCase_value]. rewrite Heq, String.eqb_refl. cbn [negb].
  rewrite Hc. cbn [rbind]. rewrite Ha. reflexivity.
Qed.

(** An account that [getAccount] returns comes from a Web3 part that has
    gone through. *)
Lemma getAccount_ok (data : json) (key : bytes) (a : KeystoreAccount) :
  getAccount data key = Ok a ->
  exists pk,
    recovers data key pk (address (account a)) /\
    privateKey (account a) = hexlify pk.
Proof.
  unfold getAccount. intros H.
  step H. step H.
  destruct (computedMAC_eq key a1) as (h & Hh1 & Hh).
  rewrite Hh1 in H. cbn [rbind] in H. cbv zeta in H. rewrite Hh in H.
  step H.
  destruct a2 as [[| | |mac| |]|]; cbn [toLowerCase_value rbind] in H;
    try discriminate.
  destruct (String.eqb_spec
    (hex_of_bytes (keccak_256 (slice 16 32 key ++ a1)%list)) (toLowerCase mac))
    as [Heq|Hne]; [|discriminate].
  cbn [negb] in H. step H.
  destruct a2 as [pk|]; [|discriminate].
  step H. step H. step H.
  assert (Hrec : recovers data key pk a2).
  { exists a0, a1, mac. repeat (split; [assumption|]). assumption. }
  exists pk.
  case_if H.
  - step H. injection H as <-. cbn. split; [exact Hrec|reflexivity].
  - injection H as <-. cbn. split; [exact Hrec|reflexivity].
Qed.

Lemma decrypt_ok (text : string) (password : Password) (w : world)
    (a : KeystoreAccount) :
  fst (decrypt text password w) = Ok a ->
  exists data key w1,
    JSON_parse text = Some data /\
    deriveKey data (getPassword password) w = (Ok key, w1) /\
    getAccount data key = Ok a.
Proof.
  unfold decrypt, decrypt_data, bind, lift.
  destruct (JSON_parse text) as [data|] eqn:Hp; [|discriminate].
  destruct (deriveKey data (getPassword password) w) as [[key|e] w1] eqn:Hk;
    [|discriminate].
  cbn [fst]. intros H. exists data, key, w1. repeat split; assumption.
Qed.

(** C7. On decrypt, the [address] of the document, in lower case and with
    [0x] in front when it is missing, is put in EIP-55 form and compared
    with the address computed from the decrypted private key, and the run
    fails with [AddressMismatch] exactly when the two differ; and every
    account that [decrypt] returns has the address computed from its private
    key. *)
Theorem decrypt_address_check :
  (forall (text : string) (password : Password) (w w1 : world) (data : json)
          (key pk : bytes) (computed s canonical : string),
     JSON_parse text = Some data ->
     deriveKey data (getPassword password) w = (Ok key, w1) ->
     recovers data key pk computed ->
     get_prop data "address" = Some (JStr s) ->
     s <> "" ->
     getAddress (normalized s) = Some canonical ->
     (fst (decrypt text password w) = Err AddressMismatch <->
      canonical <> computed)) /\
  (forall (text : string) (password : Password) (w : world)
          (a : KeystoreAccount),
     fst (decrypt text password w) = Ok a ->
     computeAddress (BLHex (privateKey (account a)))
       = Ok (address (account a))).
Proof.
  split.
  - intros text password w w1 data key pk computed s canonical
      Hp Hk Hrec Hs Hne Hc.
    erewrite decrypt_getAccount; [|eassumption ..]. cbn [fst].
    erewrite getAccount_recovered; [|eassumption].
    unfold checkAddress. rewrite Hs.
    assert (Ht : truthy (Some (JStr s)) = true) by (now destruct s).
    rewrite Ht. cbn [toLowerCase_value rbind].
    assert (Hn : (if negb (String.eqb (substring_to 2 (toLowerCase s)) "0x")
                  then "0x" ++ toLowerCase s else toLowerCase s)
                 = normalized s).
    { unfold normalized. now destruct (String.eqb _ "0x"). }
    rewrite Hn, Hc. cbn [of_option rbind].
    destruct (String.eqb_spec canonical computed) as [Heq|Hneq]; cbn [negb].
    + split; [|intros H; now elim H].
      intros H. exfalso. cbn [rbind] in H.
      step_or_absurd H. case_if H; [|discriminate].
      step_or_absurd H. discriminate.
    + split; [intros _; exact Hneq|reflexivity].
  - intros text password w a H.
    destruct (decrypt_ok _ _ _ H) as (data & key & w1 & _ & _ & Hg).
    destruct (getAccount_ok _ _ Hg) as (pk & Hrec & Hpk).
    destruct Hrec as (_ & _ & _ & _ & _ & _ & _ & _ & Ha).
    rewrite Hpk. unfold computeAddress in *.
    now rewrite arrayify_hexlify.
Qed.

(** C8. When [x-ethers/version] is "0.1", [decrypt] decrypts the mnemonic
    ciphertext with AES-CTR under bytes 32 to 64 of the derived key, with
    [x-ethers/mnemonicCounter] as the counter, turns the entropy into a
    mnemonic, derives a node along the path [p] that [x-ethers/path]
    states, or along m/44'/60'/0'/0/0 when that is absent or empty, and
    fails with [MnemonicMismatch] unless the node has the private key of
    the Web3 part; on success the account carries the mnemonic and the path
    of the node. *)
Theorem decrypt_mnemonic (text : string) (password : Password)
    (w w1 : world) (data : json) (key pk entropy : bytes)
    (computed phrase p : string) (version path_v : option json)
    (root node : HDNode) :
  JSON_parse text = Some data ->
  deriveKey data (getPassword password) w = (Ok key, w1) ->
  recovers data key pk computed ->
  checkAddress data computed = Ok tt ->
  searchPath data "x-ethers/version" = Ok version ->
  is_string version "0.1" = true ->
  reads_entropy data key entropy path_v ->
  entropyToMnemonic entropy = Some phrase ->
  HDNode_fromMnemonic phrase = Some root ->
  (path_v = Some (JStr p) /\ p <> "" \/
   truthy path_v = false /\ p = "m/44'/60'/0'/0/0") ->
  derivePath root p = Some node ->
  (node_privateKey node = hexlify pk ->
   fst (decrypt text password w) =
     Ok {| _isKeystoreAccount := true;
           account := {| address := computed;
                         privateKey := hexlify pk;
                         mnemonic := Some (node_mnemonic node);
                         path := Some (node_path node) |} |}) /\
  (node_privateKey node <> hexlify pk ->
   fst (decrypt text password w) = Err MnemonicMismatch).
Proof.
  intros Hp Hk Hrec Hchk Hv Hver Hread Hm Hroot Hpath Hnode.
  assert (Hpd : path_or_default path_v = Ok p).
  { unfold path_or_default.
    destruct Hpath as [[-> Hne]|[-> ->]]; [|reflexivity].
    cbn [truthy]. now destruct p. }
  assert (Hrun : fst (decrypt text password w) =
    if negb (String.eqb (node_privateKey node) (hexlify pk))
    then Err MnemonicMismatch
    else Ok {| _isKeystoreAccount := true;
               account := {| address := computed;
                             privateKey := hexlify pk;
                             mnemonic := Some (node_mnemonic node);
                             path := Some (node_path node) |} |}).
  { erewrite decrypt_getAccount; [|eassumption ..]. cbn [fst].
    erewrite getAccount_recovered; [|eassumption].
    rewrite Hchk. cbn [rbind]. rewrite Hv. cbn [rbind]. rewrite Hver.
    destruct Hread as (ct_v & iv_v & mct & miv & H1 & H2 & H3 & H4 & H5 & H6).
    unfold getMnemonic.
    rewrite H1. cbn [rbind]. rewrite H2. cbn [rbind].
    rewrite H3. cbn [rbind]. rewrite H4. cbn [rbind].
    rewrite H6. cbn [of_option rbind]. rewrite H5. cbn [rbind].
    rewrite Hm. cbn [of_option rbind]. rewrite Hroot. cbn [of_option rbind].
    rewrite Hpd. cbn [rbind]. rewrite Hnode. cbn [of_option rbind].
    destruct (negb _); reflexivity. }
  split.
  - intros Heq. rewrite Hrun, Heq, String.eqb_refl. reflexivity.
  - intros Hne. rewrite Hrun. apply String.eqb_neq in Hne. now rewrite Hne.
Qed.

End Account.

(** ** Reading back what [encrypt] wrote *)

Section Documents.

Context {P : Primitives}.

Lemma web3_document_fields (address id iv ciphertext salt : string) (N p r : Z)
    (mac : string) :
  web3_fields (JObj (keystoreData address id iv ciphertext salt N p r mac))
    address iv ciphertext salt N p r mac /\
  searchPath (JObj (keystoreData address id iv ciphertext salt N p r mac))
    "x-ethers/version" = Ok None.
Proof. repeat split; reflexivity. Qed.

Lemma ethers_document_fields (address id iv ciphertext salt : string)
    (N p r : Z) (mac client gethFilename mnemonicCounter mnemonicCiphertext
    path : string) :
  let data :=
    JObj (keystoreData address id iv ciphertext salt N p r mac ++
          [ ("x-ethers",
             xEthersData client gethFilename mnemonicCounter
               mnemonicCiphertext path) ]) in
  web3_fields data address iv ciphertext salt N p r mac /\
  ethers_fields data mnemonicCounter mnemonicCiphertext path.
Proof. repeat split; reflexivity. Qed.

Lemma bind_ok {A B} (m : M A) (k : A -> M B) (w w' : world) (b : B) :
  bind m k w = (Ok b, w') ->
  exists a w1, m w = (Ok a, w1) /\ k a w1 = (Ok b, w').
Proof.
  unfold bind. destruct (m w) as [[a|e] w1]; [|discriminate].
  intros H. now exists a, w1.
Qed.

Lemma lift_ok {A} (r : result A) (w w' : world) (a : A) :
  lift r w = (Ok a, w') -> r = Ok a.
Proof. unfold lift. congruence. Qed.




Section Laws.

Context {L : Laws P}.



End Laws.

End Documents.

(** ** The round trip *)

Section Roundtrip.

Context {P : Primitives}.



Lemma of_option_ok {A} (e : error) (o : option A) (a : A) :
  of_option e o = Ok a -> o = Some a.
Proof. destruct o; cbn; congruence. Qed.



Context {L : Laws P}.


End Roundtrip.

(** ** The stages of [decrypt] *)

Section Stages.

Context {P : Primitives}.

Lemma getAccount_err (data : json) (key : bytes) (e : error) :
  getAccount data key = Err e ->
  account_error e = true \/ collaborator_error e = true.
Proof.
  unfold getAccount. intros H.
  step H; [|right; injection H as <-; now subst].
  step H; [|right; injection H as <-; now subst].
  destruct (computedMAC_eq key a0) as (h & Hh1 & Hh).
  rewrite Hh1 in H. cbn [rbind] in H. cbv zeta in H.
  step H; [|right; injection H as <-; now subst].
  step H; [|right; injection H as <-; now subst].
  case_if H; [left; injection H as <-; reflexivity|].
  destruct (decrypt_cipher data (slice 0 16 key) a0) as [pk|e'] eqn:Ec;
    cbn [rbind] in H;
    [|right; injection H as <-; eapply decrypt_cipher_err; exact Ec].
  destruct pk as [pk|]; [|left; injection H as <-; reflexivity].
  destruct (computeAddress (BLBytes pk)) as [addr|e'] eqn:Ea; cbn [rbind] in H;
    [|right; injection H as <-; eapply computeAddress_err; exact Ea].
  destruct (checkAddress data addr) as [[]|e'] eqn:Ek; cbn [rbind] in H.
  2:{ injection H as <-. apply checkAddress_err in Ek as [->|Ek];
        [left; reflexivity|right; exact Ek]. }
  step H; [|right; injection H as <-; now subst].
  case_if H; [|discriminate].
  destruct (getMnemonic data (slice 32 64 key) (hexlify pk)) as [mp|e'] eqn:Em;
    cbn [rbind] in H; [discriminate|].
  injection H as <-. apply getMnemonic_err in Em as [->|Em];
    [left; reflexivity|right; exact Em].
Qed.

(** The scrypt branch either stops at a check, in the world it started in,
    or makes its one call of scrypt, for 64 bytes, with parameters that
    have passed the checks. *)
Lemma scryptKey_run (data : json) (pw : bytes) (w : world) :
  (exists e,
     scryptKey data pw w = (Err e, w) /\
     (e = UnsupportedKdfParams \/ e = UnsupportedKdfNValue \/
      e = UnsupportedDkLen \/ collaborator_error e = true)) \/
  (exists salt N r p,
     scryptKey data pw w =
       (of_option (PrimitiveFailure "scrypt") (scrypt pw salt N r p 64),
        record_call (ScryptCall pw salt N r p 64) w) /\
     N <> 0%Z /\ r <> 0%Z /\ p <> 0%Z /\ js_and N (js_pred N) = 0%Z).
Proof.
  destruct (searchPath data "crypto/kdfparams/salt") as [salt_v|e] eqn:H1.
  2:{ left. exists e. unfold scryptKey. rewrite bind_lift, H1.
      split; [reflexivity|]. do 3 right. err_facts. now subst. }
  destruct (looseArrayify salt_v) as [salt|e] eqn:H2.
  2:{ left. exists e. unfold scryptKey. rewrite bind_lift, H1, bind_lift, H2.
      split; [reflexivity|]. do 3 right. err_facts. now subst. }
  destruct (searchPath data "crypto/kdfparams/n") as [N_v|e] eqn:H3.
  2:{ left. exists e. unfold scryptKey.
      rewrite bind_lift, H1, bind_lift, H2, bind_lift, H3.
      split; [reflexivity|]. do 3 right. err_facts. now subst. }
  destruct (searchPath data "crypto/kdfparams/r") as [r_v|e] eqn:H4.
  2:{ left. exists e. unfold scryptKey.
      rewrite bind_lift, H1, bind_lift, H2, bind_lift, H3, bind_lift, H4.
      split; [reflexivity|]. do 3 right. err_facts. now subst. }
  destruct (searchPath data "crypto/kdfparams/p") as [p_v|e] eqn:H5.
  2:{ left. exists e. unfold scryptKey.
      rewrite bind_lift, H1, bind_lift, H2, bind_lift, H3, bind_lift, H4,
        bind_lift, H5.
      split; [reflexivity|]. do 3 right. err_facts. now subst. }
  erewrite scryptKey_read; [|eassumption ..].
  destruct (parseInt N_v) as [N|];
    [|left; exists UnsupportedKdfParams; split; [reflexivity|now left]].
  destruct (parseInt r_v) as [r|];
    [|left; exists UnsupportedKdfParams; split; [reflexivity|now left]].
  destruct (parseInt p_v) as [p|];
    [|left; exists UnsupportedKdfParams; split; [reflexivity|now left]].
  destruct ((N =? 0)%Z || (r =? 0)%Z || (p =? 0)%Z) eqn:Hz;
    [left; exists UnsupportedKdfParams; split; [reflexivity|now left]|].
  apply orb_false_iff in Hz as [Hz Hp0]. apply orb_false_iff in Hz as [HN0 Hr0].
  apply Z.eqb_neq in HN0, Hr0, Hp0.
  destruct (Z.eqb_spec (js_and N (js_pred N)) 0) as [Hpow|Hpow]; cbn [negb];
    [|left; exists UnsupportedKdfNValue; split; [reflexivity|right; now left]].
  rewrite bind_lift.
  destruct (searchPath data "crypto/kdfparams/dklen") as [dkLen_v|e] eqn:H6.
  2:{ left. exists e. split; [reflexivity|]. do 3 right. err_facts. now subst. }
  assert (Hd : parseInt dkLen_v = Some 32%Z \/
               (match parseInt dkLen_v with
                | Some 32%Z => call_scrypt pw salt N r p 64
                | _ => throw UnsupportedDkLen
                end) w = (Err UnsupportedDkLen, w)).
  { destruct (parseInt dkLen_v) as [[|d|d]|]; try (right; reflexivity).
    repeat (destruct d as [d|d|]; try (right; reflexivity)).
    now left. }
  destruct Hd as [Hd|Hd].
  - right. exists salt, N, r, p. rewrite Hd.
    repeat split; assumption.
  - left. exists UnsupportedDkLen. split; [exact Hd|right; right; now left].
Qed.

(** The pbkdf2 branch either stops at a check, in the world it started in,
    or makes its one call of pbkdf2, for 32 bytes, with one of the two hash
    names. *)
Lemma pbkdf2Key_run (data : json) (pw : bytes) (w : world) :
  (exists e,
     pbkdf2Key data pw w = (Err e, w) /\
     (e = UnsupportedPrf \/ e = UnsupportedDkLen \/
      collaborator_error e = true)) \/
  (exists salt c hash,
     pbkdf2Key data pw w =
       (rbind
          (of_option (PrimitiveFailure "pbkdf2") (pbkdf2 pw salt c 32 hash))
          (fun key_hex => arrayify (BLHex key_hex)),
        record_call (Pbkdf2Call pw salt c 32 hash) w) /\
     (hash = "sha256" \/ hash = "sha512")).
Proof.
  unfold pbkdf2Key.
  destruct (searchPath data "crypto/kdfparams/salt") as [salt_v|e] eqn:H1;
    rewrite bind_lift.
  2:{ left. exists e. split; [reflexivity|]. do 2 right. err_facts. now subst. }
  destruct (looseArrayify salt_v) as [salt|e] eqn:H2; rewrite bind_lift.
  2:{ left. exists e. split; [reflexivity|]. do 2 right. err_facts. now subst. }
  destruct (searchPath data "crypto/kdfparams/prf") as [prf|e] eqn:H3;
    rewrite bind_lift.
  2:{ left. exists e. split; [reflexivity|]. do 2 right. err_facts. now subst. }
  assert (Hprf :
    (exists hash, (hash = "sha256" \/ hash = "sha512") /\
       (if is_string prf "hmac-sha256" then ret "sha256"
        else if is_string prf "hmac-sha512" then ret "sha512"
        else throw UnsupportedPrf) = ret hash) \/
    (if is_string prf "hmac-sha256" then ret "sha256"
     else if is_string prf "hmac-sha512" then ret "sha512"
     else throw UnsupportedPrf) = @throw string UnsupportedPrf).
  { destruct (is_string prf "hmac-sha256");
      [left; exists "sha256"; split; [now left|reflexivity]|].
    destruct (is_string prf "hmac-sha512");
      [left; exists "sha512"; split; [now right|reflexivity]|].
    now right. }
  destruct Hprf as [(hash & Hhash & ->)| ->].
  2:{ left. exists UnsupportedPrf. split; [reflexivity|now left]. }
  change (bind (ret hash) ?k w) with (k hash w). cbv beta.
  destruct (searchPath data "crypto/kdfparams/c") as [c_v|e] eqn:H4;
    rewrite bind_lift.
  2:{ left. exists e. split; [reflexivity|]. do 2 right. err_facts. now subst. }
  cbv zeta.
  destruct (searchPath data "crypto/kdfparams/dklen") as [dkLen_v|e] eqn:H5;
    rewrite bind_lift.
  2:{ left. exists e. split; [reflexivity|]. do 2 right. err_facts. now subst. }
  assert (Hd : parseInt dkLen_v = Some 32%Z \/
               (match parseInt dkLen_v with
                | Some 32%Z =>
                    bind (call_pbkdf2 pw salt (parseInt c_v) 32 hash)
                      (fun key_hex => lift (arrayify (BLHex key_hex)))
                | _ => throw UnsupportedDkLen
                end) w = (Err UnsupportedDkLen, w)).
  { destruct (parseInt dkLen_v) as [[|d|d]|]; try (right; reflexivity).
    repeat (destruct d as [d|d|]; try (right; reflexivity)).
    now left. }
  destruct Hd as [Hd|Hd].
  - right. exists salt, (parseInt c_v), hash. rewrite Hd.
    split; [|exact Hhash].
    unfold bind, call_pbkdf2, lift.
    destruct (of_option _ _); reflexivity.
  - left. exists UnsupportedDkLen. split; [exact Hd|right; now left].
Qed.

Lemma deriveKey_unsupported (data : json) (pw : bytes) (w : world)
    (kdf : option json) :
  searchPath data "crypto/kdf" = Ok kdf ->
  supported_kdf kdf = false ->
  deriveKey data pw w = (Err UnsupportedKdf, w).
Proof.
  intros Hk Hs. unfold deriveKey. rewrite bind_lift, Hk.
  destruct kdf as [[| | |s| |]|]; try reflexivity.
  cbn [supported_kdf] in Hs. apply orb_false_iff in Hs as [-> ->].
  now destruct (truthy_string s).
Qed.

Lemma deriveKey_supported (data : json) (pw : bytes) (w : world)
    (kdf : option json) :
  searchPath data "crypto/kdf" = Ok kdf ->
  supported_kdf kdf = true ->
  deriveKey data pw w = scryptKey data pw w \/
  deriveKey data pw w = pbkdf2Key data pw w.
Proof.
  intros Hk Hs. destruct kdf as [[| | |s| |]|]; try discriminate.
  cbn [supported_kdf] in Hs.
  destruct (String.eqb_spec (toLowerCase s) "scrypt") as [E|_].
  - left. eapply deriveKey_scrypt; eassumption.
  - cbn [orb] in Hs. apply String.eqb_eq in Hs.
    right. eapply deriveKey_pbkdf2; eassumption.
Qed.

Lemma deriveKey_run (data : json) (pw : bytes) (w : world) :
  (exists e,
     deriveKey data pw w = (Err e, w) /\
     (kdf_error e = true \/ collaborator_error e = true)) \/
  (exists ev r,
     deriveKey data pw w = (r, record_call ev w) /\
     kdf_request pw ev /\
     forall e, r = Err e -> collaborator_error e = true).
Proof.
  destruct (searchPath data "crypto/kdf") as [kdf|e] eqn:Hk.
  2:{ left. exists e. unfold deriveKey. rewrite bind_lift, Hk.
      split; [reflexivity|]. right. err_facts. now subst. }
  destruct (supported_kdf kdf) eqn:Hs.
  2:{ left. exists UnsupportedKdf.
      split; [eapply deriveKey_unsupported; eassumption|now left]. }
  destruct (@deriveKey_supported data pw w kdf Hk Hs) as [-> | ->].
  - destruct (scryptKey_run data pw w)
      as [(e & He & Hc)|(salt & N & r & p & He & HN & Hr & Hp & Hpow)].
    + left. exists e. split; [exact He|].
      destruct Hc as [->|[->|[->|Hc]]]; [now left ..|now right].
    + right. exists (ScryptCall pw salt N r p 64).
      eexists. split; [exact He|]. split.
      * cbn. repeat split; assumption.
      * intros e E. apply of_option_err in E. now subst.
  - destruct (pbkdf2Key_run data pw w)
      as [(e & He & Hc)|(salt & c & hash & He & Hh)].
    + left. exists e. split; [exact He|].
      destruct Hc as [->|[->|Hc]]; [now left ..|now right].
    + right. exists (Pbkdf2Call pw salt c 32 hash).
      eexists. split; [exact He|]. split.
      * cbn. repeat split; assumption.
      * intros e E.
        destruct (of_option (PrimitiveFailure "pbkdf2")
                    (pbkdf2 pw salt c 32 hash)) as [h|e'] eqn:Eo;
          cbn [rbind] in E.
        -- apply arrayify_err in E. now subst.
        -- injection E as <-. apply of_option_err in Eo. now subst.
Qed.

Lemma decrypt_run (text : string) (password : Password) (w : world) :
  decrypt text password w =
  match JSON_parse text with
  | None => (Err BadJson, w)
  | Some data =>
      match deriveKey data (getPassword password) w with
      | (Ok key, w1) => (getAccount data key, w1)
      | (Err e, w1) => (Err e, w1)
      end
  end.
Proof.
  unfold decrypt, decrypt_data, bind, lift, throw.
  destruct (JSON_parse text); reflexivity.
Qed.

Lemma calls_record {A} (m : M A) (w : world) (r : result A) (ev : event) :
  m w = (r, record_call ev w) -> calls m w = [ev].
Proof.
  intros H. eapply calls_one; [exact H|reflexivity].
Qed.

(** A run of [decrypt] either stops before a key is derived, in the world
    it started in, with an error of the parameter checks or of a
    collaborator, or makes one request and goes on to [getAccount]. *)
Lemma decrypt_stages (text : string) (password : Password) (w : world) :
  (exists e,
     decrypt text password w = (Err e, w) /\
     (e = BadJson \/ kdf_error e = true \/ collaborator_error e = true)) \/
  (exists ev r,
     decrypt text password w = (r, record_call ev w) /\
     kdf_request (getPassword password) ev /\
     forall e, r = Err e ->
       account_error e = true \/ collaborator_error e = true).
Proof.
  rewrite decrypt_run.
  destruct (JSON_parse text) as [data|];
    [|left; exists BadJson; split; [reflexivity|now left]].
  destruct (deriveKey_run data (getPassword password) w)
    as [(e & -> & He)|(ev & r & -> & Hev & Hr)].
  - left. exists e. split; [reflexivity|now right].
  - right. exists ev. destruct r as [key|e].
    + exists (getAccount data key). split; [reflexivity|].
      split; [exact Hev|]. intros e. apply getAccount_err.
    + exists (Err e). split; [reflexivity|]. split; [exact Hev|].
      intros e' [= <-]. right. now apply Hr.
Qed.

End Stages.

(** ** The test on [N], spelled out *)

Lemma toInt32_range (z : Z) : (- 2 ^ 31 <= toInt32 z < 2 ^ 31)%Z.
Proof.
  unfold toInt32.
  pose proof (Z.mod_pos_bound (z + 2 ^ 31) (2 ^ 32) ltac:(lia)). lia.
Qed.

Lemma toInt32_pred (z : Z) : toInt32 (z - 1) = toInt32 (toInt32 z - 1).
Proof.
  unfold toInt32. f_equal.
  replace ((z + 2 ^ 31) mod 2 ^ 32 - 2 ^ 31 - 1 + 2 ^ 31)%Z
    with ((z + 2 ^ 31) mod 2 ^ 32 - 1)%Z by lia.
  rewrite Zminus_mod_idemp_l. f_equal. lia.
Qed.

(** The test of [decrypt] on [N], spelled out. *)
Lemma js_and_pred_iff (N : Z) : js_and N (N - 1) = 0%Z <-> passes_N_test N.
Proof.
  unfold js_and, passes_N_test. rewrite toInt32_pred.
  pose proof (toInt32_range N) as Hr.
  set (m := toInt32 N) in *. clearbody m.
  destruct (Z.eq_dec m (- 2 ^ 31)) as [->|Hmin].
  - split; [intros _; right; now left|intros _; reflexivity].
  - rewrite (@toInt32_small (m - 1)) by lia. split.
    + intros H. destruct (Z_lt_le_dec m 0) as [Hneg|Hpos].
      * exfalso.
        assert (Z.land m (m - 1) < 0)%Z by (apply Z.land_neg; lia). lia.
      * destruct (Z.eq_dec m 0) as [->|Hm0]; [now left|].
        right; right. apply land_pred_zero; [lia|exact H].
    + intros [->|[E|(k & Hk & ->)]]; [reflexivity|contradiction|].
      now apply land_pred_pow2.
Qed.

(** ** What [decrypt] checks, and when *)

Section DecryptStages.

Context {P : Primitives}.

(** X1. For a [crypto/kdf] that is missing, is not a string, or is a
    string of ASCII characters, [decrypt] fails with [UnsupportedKdf]
    exactly when it is missing, is not a string, or is a string other than
    scrypt and pbkdf2 in any case; and then it has made no key-derivation
    call. (JavaScript folds the Kelvin sign to k, so a name that is not
    ASCII can stand for pbkdf2.) *)
Theorem decrypt_unsupported_kdf (text : string) (password : Password)
    (w : world) (data : json) (kdf : option json) :
  JSON_parse text = Some data ->
  searchPath data "crypto/kdf" = Ok kdf ->
  ascii_name kdf = true ->
  (fst (decrypt text password w) = Err UnsupportedKdf <->
   supported_kdf kdf = false) /\
  (supported_kdf kdf = false ->
   decrypt text password w = (Err UnsupportedKdf, w) /\
   calls (decrypt text password) w = []).
Proof.
  intros Hp Hk _.
  assert (Hun : supported_kdf kdf = false ->
                decrypt text password w = (Err UnsupportedKdf, w)).
  { intros Hs. eapply decrypt_deriveKey_failed; [exact Hp|].
    eapply deriveKey_unsupported; eassumption. }
  split; [split|].
  - intros H. destruct (supported_kdf kdf) eqn:Hs; [exfalso|reflexivity].
    rewrite decrypt_run, Hp in H.
    destruct (@deriveKey_supported _ data (getPassword password) w kdf Hk Hs)
      as [E|E]; rewrite E in H.
    + destruct (scryptKey_run data (getPassword password) w)
        as [(e & He & Hc)|(salt & N & r & p & He & _)]; rewrite He in H.
      * cbn in H. injection H as ->.
        destruct Hc as [Hc|[Hc|[Hc|Hc]]]; discriminate Hc.
      * destruct (of_option _ _) as [key|e] eqn:Eo; cbn in H.
        -- apply getAccount_err in H as [H|H]; discriminate H.
        -- apply of_option_err in Eo. congruence.
    + destruct (pbkdf2Key_run data (getPassword password) w)
        as [(e & He & Hc)|(salt & c & hash & He & _)]; rewrite He in H.
      * cbn in H. injection H as ->.
        destruct Hc as [Hc|[Hc|Hc]]; discriminate Hc.
      * destruct (rbind _ _) as [key|e] eqn:Eo; cbn in H.
        -- apply getAccount_err in H as [H|H]; discriminate H.
        -- injection H as ->.
           destruct (of_option (PrimitiveFailure "pbkdf2") _) as [h|e'] eqn:Ep;
             cbn [rbind] in Eo.
           ++ apply arrayify_err in Eo. discriminate Eo.
           ++ apply of_option_err in Ep. congruence.
  - intros Hs. now rewrite (Hun Hs).
  - intros Hs. split; [exact (Hun Hs)|].
    eapply calls_none. exact (Hun Hs).
Qed.

(** X2. A run of [decrypt] calls a key-derivation primitive at most once,
    and a run that returns an account has called one exactly once. *)
Theorem decrypt_derives_key_once (text : string) (password : Password)
    (w : world) :
  (List.length (calls (decrypt text password) w) <= 1)%nat /\
  (forall a, fst (decrypt text password w) = Ok a ->
     List.length (calls (decrypt text password) w) = 1%nat).
Proof.
  destruct (decrypt_stages text password w)
    as [(e & He & _)|(ev & r & He & _)].
  - split.
    + erewrite calls_none; [|exact He]. cbn. lia.
    + intros a Ha. rewrite He in Ha. discriminate Ha.
  - erewrite calls_record; [|exact He]. split; [cbn; lia|reflexivity].
Qed.

(** X3. The errors of [decrypt] come in two stages: a text that does not
    parse and the errors of the key-derivation parameters are raised
    before any key-derivation call, in the world the run started in;
    [InvalidPassword], [UnsupportedCipher], [AddressMismatch] and
    [MnemonicMismatch] are raised only after the one call. *)
Theorem decrypt_error_stages (text : string) (password : Password)
    (w : world) (e : error) :
  fst (decrypt text password w) = Err e ->
  (e = BadJson \/ kdf_error e = true ->
   decrypt text password w = (Err e, w) /\
   calls (decrypt text password) w = []) /\
  (account_error e = true ->
   exists ev, calls (decrypt text password) w = [ev]).
Proof.
  intros H.
  destruct (decrypt_stages text password w)
    as [(e' & He & Hc)|(ev & r & He & _ & Hr)]; rewrite He in H; cbn in H.
  - injection H as E. subst e'. split.
    + intros _. split; [exact He|eapply calls_none; exact He].
    + intros Ha. exfalso.
      destruct Hc as [->|[Hc|Hc]]; [discriminate Ha|destruct e ..];
        discriminate.
  - subst r. split.
    + intros Hk. exfalso.
      destruct (Hr e eq_refl) as [Ha|Ha]; destruct e;
        destruct Hk as [Hk|Hk]; discriminate.
    + intros _. exists ev. eapply calls_record. exact He.
Qed.

(** X4. Whatever the document, [decrypt] asks scrypt only for 64 bytes,
    with [N], [r] and [p] that are not zero and an [N] that has passed
    the test for a power of two, and pbkdf2 only for 32 bytes, with
    sha256 or sha512; both with the bytes of the password it was given. *)
Theorem decrypt_kdf_requests (text : string) (password : Password)
    (w : world) (ev : event) :
  In ev (calls (decrypt text password) w) ->
  kdf_request (getPassword password) ev.
Proof.
  destruct (decrypt_stages text password w)
    as [(e & He & _)|(ev' & r & He & Hev & _)].
  - erewrite calls_none; [|exact He]. intros [].
  - erewrite calls_record; [|exact He]. intros [<-|[]]. exact Hev.
Qed.

Lemma deterministic_call_pbkdf2 (password salt : bytes) (c : option Z)
    (keylen : Z) (hash : string) :
  deterministic (call_pbkdf2 password salt c keylen hash).
Proof. intros w1 w2. reflexivity. Qed.

Lemma deterministic_scryptKey (data : json) (pw : bytes) :
  deterministic (scryptKey data pw).
Proof.
  unfold scryptKey.
  do 5 (apply deterministic_bind_lift; intros ? _). cbv zeta.
  destruct (parseInt a1) as [N|]; [|apply deterministic_throw].
  destruct (parseInt a2) as [r|]; [|apply deterministic_throw].
  destruct (parseInt a3) as [p|]; [|apply deterministic_throw].
  destruct (_ || _); [apply deterministic_throw|].
  destruct (negb _); [apply deterministic_throw|].
  apply deterministic_bind_lift; intros dkLen_v _.
  repeat break_match;
    first [apply deterministic_throw|apply deterministic_call_scrypt].
Qed.

Lemma deterministic_pbkdf2Key (data : json) (pw : bytes) :
  deterministic (pbkdf2Key data pw).
Proof.
  unfold pbkdf2Key.
  do 3 (apply deterministic_bind_lift; intros ? _).
  apply deterministic_bind.
  { repeat break_match;
      first [apply deterministic_throw|apply deterministic_ret]. }
  intros prfFunc.
  apply deterministic_bind_lift; intros c_v _. cbv zeta.
  apply deterministic_bind_lift; intros dkLen_v _.
  repeat break_match; try apply deterministic_throw.
  apply deterministic_bind; [apply deterministic_call_pbkdf2|].
  intros key_hex. apply deterministic_lift.
Qed.

Lemma deterministic_decrypt (text : string) (password : Password) :
  deterministic (decrypt text password).
Proof.
  unfold decrypt. destruct (JSON_parse text) as [data|];
    [|apply deterministic_throw].
  unfold decrypt_data.
  apply deterministic_bind; [|intros key; apply deterministic_lift].
  unfold deriveKey. apply deterministic_bind_lift; intros kdf _.
  repeat break_match;
    first [apply deterministic_throw|apply deterministic_scryptKey
          |apply deterministic_pbkdf2Key].
Qed.

(** X5. [decrypt] draws nothing from the random source and does not read
    the clock: it leaves both as they were, and its result is the same
    whatever they hold and whatever calls were made before. *)
Theorem decrypt_frame (text : string) (password : Password) (w : world) :
  rng (snd (decrypt text password w)) = rng w /\
  clock (snd (decrypt text password w)) = clock w /\
  (forall w', fst (decrypt text password w') = fst (decrypt text password w)).
Proof.
  split; [|split].
  - destruct (decrypt_stages text password w)
      as [(e & -> & _)|(ev & r & -> & _)]; reflexivity.
  - destruct (decrypt_stages text password w)
      as [(e & -> & _)|(ev & r & -> & _)]; reflexivity.
  - intros w'. apply deterministic_decrypt.
Qed.

(** X6. In the pbkdf2 branch, once the salt is read: a [prf] other than
    the exact strings hmac-sha256 and hmac-sha512 fails with
    [UnsupportedPrf]; with one of the two, a [dklen] that [parseInt] does
    not read as 32 fails with [UnsupportedDkLen] (a string such as "32abc"
    is read as 32); in both cases before pbkdf2 is called. *)
Theorem decrypt_pbkdf2_validation (text : string) (password : Password)
    (w : world) (data : json) (kdf : string) (salt_v prf : option json)
    (salt : bytes) :
  JSON_parse text = Some data ->
  searchPath data "crypto/kdf" = Ok (Some (JStr kdf)) ->
  toLowerCase kdf = "pbkdf2" ->
  searchPath data "crypto/kdfparams/salt" = Ok salt_v ->
  looseArrayify salt_v = Ok salt ->
  searchPath data "crypto/kdfparams/prf" = Ok prf ->
  (is_string prf "hmac-sha256" = false ->
   is_string prf "hmac-sha512" = false ->
   decrypt text password w = (Err UnsupportedPrf, w) /\
   calls (decrypt text password) w = []) /\
  (forall c_v dkLen_v,
     is_string prf "hmac-sha256" || is_string prf "hmac-sha512" = true ->
     searchPath data "crypto/kdfparams/c" = Ok c_v ->
     searchPath data "crypto/kdfparams/dklen" = Ok dkLen_v ->
     parseInt dkLen_v <> Some 32%Z ->
     decrypt text password w = (Err UnsupportedDkLen, w) /\
     calls (decrypt text password) w = []).
Proof.
  intros Hp Hk Hs H1 H2 H3.
  assert (Hfail : forall e,
    pbkdf2Key data (getPassword password) w = (Err e, w) ->
    decrypt text password w = (Err e, w) /\
    calls (decrypt text password) w = []).
  { intros e He.
    assert (H : decrypt text password w = (Err e, w)).
    { eapply decrypt_deriveKey_failed; [exact Hp|].
      erewrite deriveKey_pbkdf2; eassumption. }
    split; [exact H|eapply calls_none; exact H]. }
  split.
  - intros Ha Hb. apply Hfail. unfold pbkdf2Key.
    rewrite bind_lift, H1, bind_lift, H2, bind_lift, H3, Ha, Hb. reflexivity.
  - intros c_v dkLen_v Hprf H4 H5 Hd. apply Hfail. unfold pbkdf2Key.
    rewrite bind_lift, H1, bind_lift, H2, bind_lift, H3.
    assert (Hf : exists hash,
      (if is_string prf "hmac-sha256" then ret "sha256"
       else if is_string prf "hmac-sha512" then ret "sha512"
       else throw UnsupportedPrf) = ret hash).
    { destruct (is_string prf "hmac-sha256"); [now eexists|].
      destruct (is_string prf "hmac-sha512"); [now eexists|discriminate]. }
    destruct Hf as (hash & ->).
    change (bind (ret hash) ?k w) with (k hash w). cbv beta.
    rewrite bind_lift, H4. cbv zeta. rewrite bind_lift, H5.
    destruct (parseInt dkLen_v) as [[|d|d]|]; try reflexivity.
    repeat (destruct d as [d|d|]; try reflexivity).
    now elim Hd.
Qed.

(** X7. In the scrypt branch, with the salt read, [n], [r], [p] not zero
    and [n] read as an integer below 2^53 in size, where [N - 1] is exact,
    [decrypt] fails with [UnsupportedKdfNValue] exactly when the low 32
    bits of [n], read as a signed integer, are neither zero, nor the least
    integer, nor a power of two. *)
Theorem decrypt_scrypt_N_test (text : string) (password : Password)
    (w : world) (data : json) (kdf : string)
    (salt_v N_v r_v p_v : option json) (salt : bytes) (N r p : Z) :
  JSON_parse text = Some data ->
  searchPath data "crypto/kdf" = Ok (Some (JStr kdf)) ->
  toLowerCase kdf = "scrypt" ->
  searchPath data "crypto/kdfparams/salt" = Ok salt_v ->
  looseArrayify salt_v = Ok salt ->
  searchPath data "crypto/kdfparams/n" = Ok N_v ->
  searchPath data "crypto/kdfparams/r" = Ok r_v ->
  searchPath data "crypto/kdfparams/p" = Ok p_v ->
  parseInt N_v = Some N -> parseInt r_v = Some r -> parseInt p_v = Some p ->
  N <> 0%Z -> r <> 0%Z -> p <> 0%Z ->
  (Z.abs N < 2 ^ 53)%Z ->
  (fst (decrypt text password w) = Err UnsupportedKdfNValue <->
   ~ passes_N_test N).
Proof.
  intros Hp Hk Hs H1 H2 H3 H4 H5 HN Hr Hp' HN0 Hr0 Hp0 Hsafe.
  assert (Hnz : (N =? 0)%Z || (r =? 0)%Z || (p =? 0)%Z = false).
  { apply Z.eqb_neq in HN0, Hr0, Hp0. now rewrite HN0, Hr0, Hp0. }
  rewrite decrypt_run, Hp.
  erewrite deriveKey_scrypt; [|eassumption ..].
  erewrite scryptKey_read; [|eassumption ..]. rewrite HN, Hr, Hp', Hnz.
  rewrite <- js_and_pred_iff. rewrite js_pred_small by lia.
  destruct (Z.eqb_spec (js_and N (N - 1)) 0) as [E|E]; cbn [negb].
  - split; [|intros H; now elim H]. intros H. exfalso.
    rewrite bind_lift in H.
    destruct (searchPath data "crypto/kdfparams/dklen") as [dkLen_v|e] eqn:H6.
    2:{ cbn in H. err_facts. congruence. }
    assert (Hd :
      (match parseInt dkLen_v with
       | Some 32%Z => call_scrypt (getPassword password) salt N r p 64
       | _ => throw UnsupportedDkLen
       end) w = (Err UnsupportedDkLen, w) \/
      (match parseInt dkLen_v with
       | Some 32%Z => call_scrypt (getPassword password) salt N r p 64
       | _ => throw UnsupportedDkLen
       end) w = call_scrypt (getPassword password) salt N r p 64 w).
    { destruct (parseInt dkLen_v) as [[|d|d]|]; try (left; reflexivity).
      repeat (destruct d as [d|d|]; try (left; reflexivity)).
      now right. }
    destruct Hd as [Hd|Hd]; rewrite Hd in H; [discriminate H|].
    unfold call_scrypt in H.
    destruct (of_option _ _) as [key|e] eqn:Eo; cbn in H.
    + apply getAccount_err in H as [H|H]; discriminate H.
    + apply of_option_err in Eo. congruence.
  - split; [intros _; exact E|reflexivity].
Qed.

(** X8. An [x-ethers] part whose [version] is not the string "0.1", or
    that is not there, is not read: once the Web3 part has gone through,
    [decrypt] returns the account with no mnemonic and no path, whatever
    else [x-ethers] holds. *)
Theorem decrypt_x_ethers_version (text : string) (password : Password)
    (w w1 : world) (data : json) (key pk : bytes) (computed : string)
    (version : option json) :
  JSON_parse text = Some data ->
  deriveKey data (getPassword password) w = (Ok key, w1) ->
  recovers data key pk computed ->
  checkAddress data computed = Ok tt ->
  searchPath data "x-ethers/version" = Ok version ->
  is_string version "0.1" = false ->
  decrypt text password w =
    (Ok {| _isKeystoreAccount := true;
           account := {| address := computed;
                         privateKey := hexlify pk;
                         mnemonic := None;
                         path := None |} |}, w1).
Proof.
  intros Hp Hk Hrec Hchk Hv Hver.
  erewrite decrypt_getAccount; [|eassumption ..].
  erewrite getAccount_recovered; [|eassumption].
  rewrite Hchk. cbn [rbind]. rewrite Hv. cbn [rbind]. now rewrite Hver.
Qed.

(** X9. The [address] of a document is optional: when it is missing or
    falsy (empty, [null], zero, [false]), [decrypt] makes no check of it
    and goes on to the [x-ethers] part with the address computed from the
    private key. *)
Theorem decrypt_address_optional (text : string) (password : Password)
    (w w1 : world) (data : json) (key pk : bytes) (computed : string) :
  JSON_parse text = Some data ->
  deriveKey data (getPassword password) w = (Ok key, w1) ->
  recovers data key pk computed ->
  truthy (get_prop data "address") = false ->
  decrypt text password w =
    ((let* version := searchPath data "x-ethers/version" in
      if is_string version "0.1" then
        let* mp := getMnemonic data (slice 32 64 key) (hexlify pk) in
        Ok {| _isKeystoreAccount := true;
              account := {| address := computed;
                            privateKey := hexlify pk;
                            mnemonic := Some (fst mp);
                            path := Some (snd mp) |} |}
      else
        Ok {| _isKeystoreAccount := true;
              account := {| address := computed;
                            privateKey := hexlify pk;
                            mnemonic := None;
                            path := None |} |})%result, w1).
Proof.
  intros Hp Hk Hrec Hf.
  erewrite decrypt_getAccount; [|eassumption ..].
  erewrite getAccount_recovered; [|eassumption].
  unfold checkAddress. now rewrite Hf.
Qed.

(** X10. Every account that [decrypt] returns is recognised by
    [isKeystoreAccount]. *)
Theorem decrypt_isKeystoreAccount (text : string) (password : Password)
    (w : world) (a : KeystoreAccount) :
  fst (decrypt text password w) = Ok a ->
  isKeystoreAccount (VAccount a) = true.
Proof.
  intros H. destruct (decrypt_ok _ _ _ H) as (data & key & w1 & _ & _ & Hg).
  clear H. unfold getAccount in Hg.
  step Hg. step Hg. step Hg. cbv zeta in Hg. step Hg. step Hg.
  case_if Hg; [discriminate|].
  step Hg. destruct a5 as [pk|]; [|discriminate].
  step Hg. step Hg. step Hg.
  case_if Hg.
  - step Hg. now injection Hg as <-.
  - now injection Hg as <-.
Qed.

End DecryptStages.

(** ** Values of the wrong type *)

Section TypeErrors.

Context {P : Primitives}.

(** X11. Values of the wrong type are met with a [TypeError] once the key
    is derived: a [crypto/mac] that is missing or is not a string, before
    the MAC is compared, and an [address] that is truthy but is not a
    string, where a string would have been checked. *)
Theorem decrypt_type_errors (text : string) (password : Password)
    (w w1 : world) (data : json) (key : bytes) :
  JSON_parse text = Some data ->
  deriveKey data (getPassword password) w = (Ok key, w1) ->
  (forall ct_v ciphertext mac_v,
     searchPath data "crypto/ciphertext" = Ok ct_v ->
     looseArrayify ct_v = Ok ciphertext ->
     searchPath data "crypto/mac" = Ok mac_v ->
     (forall s, mac_v <> Some (JStr s)) ->
     decrypt text password w = (Err TypeError, w1)) /\
  (forall pk computed,
     recovers data key pk computed ->
     truthy (get_prop data "address") = true ->
     (forall s, get_prop data "address" <> Some (JStr s)) ->
     decrypt text password w = (Err TypeError, w1)).
Proof.
  intros Hp Hk. split.
  - intros ct_v ciphertext mac_v Hv Hct Hmac Hns.
    erewrite decrypt_getAccount; [|eassumption ..].
    unfold getAccount. rewrite Hv. cbn [rbind]. rewrite Hct. cbn [rbind].
    destruct (computedMAC_eq key ciphertext) as (h & -> & _).
    cbn [rbind]. cbv zeta. rewrite Hmac. cbn [rbind].
    destruct mac_v as [[| | |s| |]|]; try reflexivity.
    now elim (Hns s).
  - intros pk computed Hrec Ht Hns.
    erewrite decrypt_getAccount; [|eassumption ..].
    erewrite getAccount_recovered; [|eassumption].
    unfold checkAddress. rewrite Ht.
    destruct (get_prop data "address") as [[| | |s| |]|]; try reflexivity.
    now elim (Hns s).
Qed.

End TypeErrors.

(** ** The accounts that [decrypt] returns *)

Section DecryptResult.

Context {P : Primitives}.

(** An account that [getAccount] returns without a mnemonic has no path
    either. *)
Lemma getAccount_no_mnemonic (data : json) (key : bytes) (a : KeystoreAccount) :
  getAccount data key = Ok a ->
  mnemonic (account a) = None -> path (account a) = None.
Proof.
  intros H. destruct (getAccount_ok _ _ H) as (pk & Hrec & _).
  rewrite (getAccount_recovered Hrec) in H.
  step H. step H. case_if H.
  - step H. injection H as <-. discriminate.
  - injection H as <-. reflexivity.
Qed.

(** X12. An account without a mnemonic that [decrypt] returns is
    well formed: its private key is lower-case hex, its address is the one
    computed from the key and it has no path. With a [getAddress] that
    leaves computed addresses as they are, it passes the checks that
    [encrypt] makes of an account. *)
Theorem decrypt_result_well_formed (text : string) (password : Password)
    (w : world) (a : KeystoreAccount) :
  fst (decrypt text password w) = Ok a ->
  mnemonic (account a) = None ->
  well_formed_account (account a) = true /\
  ((forall k addr, addressOf k = Some addr -> getAddress addr = Some addr) ->
   checkAccount (account a) = Ok tt).
Proof.
  intros H Hm.
  destruct (decrypt_ok _ _ _ H) as (data & key & w1 & _ & _ & Hg).
  pose proof (getAccount_no_mnemonic _ _ Hg Hm) as Hpath.
  destruct (getAccount_ok _ _ Hg) as (pk & Hrec & Hpk).
  destruct Hrec as (_ & _ & _ & _ & _ & _ & _ & _ & Ha).
  unfold computeAddress in Ha. cbn [arrayify rbind] in Ha.
  assert (Hc : computeAddress (BLHex (privateKey (account a)))
               = Ok (address (account a))).
  { rewrite Hpk. unfold computeAddress. rewrite arrayify_hexlify. exact Ha. }
  split.
  - unfold well_formed_account, well_formed_mnemonic.
    rewrite Hc, Hm, Hpath, Hpk, arrayify_hexlify, !String.eqb_refl.
    reflexivity.
  - intros Hcanon. unfold checkAccount.
    apply of_option_ok in Ha. rewrite (Hcanon _ _ Ha).
    cbn [of_option rbind]. rewrite Hc. cbn [rbind].
    rewrite String.eqb_refl. cbn [negb]. now rewrite Hm, Hpath.
Qed.

(** X13. A pbkdf2 document cannot carry a mnemonic: pbkdf2 is asked for 32
    bytes, so that bytes 32 to 64 of the key, the AES key of the mnemonic,
    are empty. With a pbkdf2 that returns the 32 bytes it is asked for and
    an AES-CTR that refuses an empty key, [decrypt] of a pbkdf2 document
    whose [x-ethers/version] is "0.1" fails, whatever the password. *)
Theorem decrypt_pbkdf2_mnemonic (text : string) (password : Password)
    (w : world) (data : json) (kdf : string) :
  (forall pw salt c hash h k,
     pbkdf2 pw salt c 32 hash = Some h -> arrayify (BLHex h) = Ok k ->
     List.length k = 32%nat) ->
  (forall iv c, aes_ctr_decrypt [] iv c = None) ->
  JSON_parse text = Some data ->
  searchPath data "crypto/kdf" = Ok (Some (JStr kdf)) ->
  toLowerCase kdf = "pbkdf2" ->
  searchPath data "x-ethers/version" = Ok (Some (JStr "0.1")) ->
  exists e, fst (decrypt text password w) = Err e.
Proof.
  intros Hlen Haes Hp Hk Hs Hv.
  rewrite decrypt_run, Hp.
  erewrite deriveKey_pbkdf2; [|eassumption ..].
  destruct (pbkdf2Key_run data (getPassword password) w)
    as [(e & -> & _)|(salt & c & hash & -> & _)]; [now exists e|].
  destruct (of_option (PrimitiveFailure "pbkdf2") _) as [h|e] eqn:Eh;
    cbn [rbind]; [|now exists e].
  destruct (arrayify (BLHex h)) as [key|e] eqn:Ek; [|now exists e].
  destruct (getAccount data key) as [a|e] eqn:Hg; [exfalso|now exists e].
  apply of_option_ok in Eh. pose proof (Hlen _ _ _ _ _ _ Eh Ek) as Hl.
  destruct (getAccount_ok _ _ Hg) as (pk & Hrec & _).
  rewrite (getAccount_recovered Hrec) in Hg.
  step Hg. rewrite Hv in Hg. cbn [rbind is_string] in Hg.
  rewrite String.eqb_refl in Hg.
  step Hg. unfold getMnemonic in E0.
  do 4 step E0.
  assert (Hempty : slice 32 64 key = []).
  { unfold slice. rewrite skipn_all2 by lia. reflexivity. }
  rewrite Hempty, Haes in E0. discriminate E0.
Qed.

End DecryptResult.

(** ** What [decrypt] reads *)

Ltac read_same H :=
  repeat match goal with
    | |- context [searchPath ?d ?p] =>
        rewrite (proj1 H p ltac:(cbn; tauto))
    end.

Section SameReads.

Context {P : Primitives}.

Variables d1 d2 : json.
Hypothesis H : same_reads d1 d2.

Lemma scryptKey_same (pw : bytes) : scryptKey d1 pw = scryptKey d2 pw.
Proof. unfold scryptKey. read_same H. reflexivity. Qed.

Lemma pbkdf2Key_same (pw : bytes) : pbkdf2Key d1 pw = pbkdf2Key d2 pw.
Proof. unfold pbkdf2Key. read_same H. reflexivity. Qed.

Lemma deriveKey_same (pw : bytes) : deriveKey d1 pw = deriveKey d2 pw.
Proof.
  unfold deriveKey. read_same H.
  now rewrite scryptKey_same, pbkdf2Key_same.
Qed.

Lemma decrypt_cipher_same (key ct : bytes) :
  decrypt_cipher d1 key ct = decrypt_cipher d2 key ct.
Proof. unfold decrypt_cipher. read_same H. reflexivity. Qed.

Lemma getMnemonic_same (key : bytes) (pk : string) :
  getMnemonic d1 key pk = getMnemonic d2 key pk.
Proof. unfold getMnemonic. read_same H. reflexivity. Qed.

Lemma checkAddress_same (addr : string) :
  checkAddress d1 addr = checkAddress d2 addr.
Proof. unfold checkAddress. now rewrite (proj2 H). Qed.

Lemma getAccount_same (key : bytes) : getAccount d1 key = getAccount d2 key.
Proof.
  unfold getAccount. read_same H.
  destruct (searchPath d2 "crypto/ciphertext") as [ct_v|]; [|reflexivity].
  cbn [rbind]. destruct (looseArrayify ct_v) as [ct|]; [|reflexivity].
  cbn [rbind]. destruct (hexlify_str _) as [mh|]; [|reflexivity].
  cbn [rbind]. cbv zeta.
  destruct (searchPath d2 "crypto/mac") as [mac_v|]; [|reflexivity].
  cbn [rbind]. destruct (toLowerCase_value mac_v) as [mac|]; [|reflexivity].
  cbn [rbind]. destruct (negb _); [reflexivity|].
  rewrite decrypt_cipher_same.
  destruct (decrypt_cipher d2 (slice 0 16 key) ct) as [[pk|]|]; try reflexivity.
  cbn [rbind]. destruct (computeAddress (BLBytes pk)) as [addr|]; [|reflexivity].
  cbn [rbind]. rewrite checkAddress_same.
  destruct (checkAddress d2 addr); [|reflexivity].
  cbn [rbind]. destruct (searchPath d2 "x-ethers/version") as [ver|];
    [|reflexivity].
  cbn [rbind]. destruct (is_string ver "0.1"); [|reflexivity].
  now rewrite getMnemonic_same.
Qed.

Lemma decrypt_data_same (password : Password) (w : world) :
  decrypt_data d1 password w = decrypt_data d2 password w.
Proof.
  unfold decrypt_data, bind. rewrite deriveKey_same.
  destruct (deriveKey d2 (getPassword password) w) as [[key|e] w1];
    [|reflexivity].
  unfold lift. now rewrite getAccount_same.
Qed.

End SameReads.

Lemma matching_children_skip (f1 f2 : list (string * json)) (k : string)
    (v : json) (c : string) :
  toLowerCase k <> c ->
  matching_children (f1 ++ (k, v) :: f2) c = matching_children (f1 ++ f2) c.
Proof.
  intros Hk. unfold matching_children. rewrite !filter_app. cbn [filter fst].
  apply String.eqb_neq in Hk. now rewrite Hk.
Qed.

Lemma assoc_skip (f1 f2 : list (string * json)) (k : string) (v : json)
    (k' : string) :
  k <> k' -> assoc k' (f1 ++ (k, v) :: f2) = assoc k' (f1 ++ f2).
Proof.
  intros Hk. induction f1 as [|[k0 v0] f1 IH]; cbn [app assoc].
  - apply String.eqb_neq in Hk. now rewrite Hk.
  - now rewrite IH.
Qed.

(** A field of the document whose name is none of [crypto], [x-ethers]
    and [address] is not among what [decrypt] reads. *)
Lemma same_reads_skip (f1 f2 : list (string * json)) (k : string) (v : json) :
  toLowerCase k <> "crypto" -> toLowerCase k <> "x-ethers" ->
  k <> "address" ->
  same_reads (JObj (f1 ++ (k, v) :: f2)) (JObj (f1 ++ f2)).
Proof.
  intros Hc Hx Ha. split.
  - intros p Hp. cbn [decrypt_paths In] in Hp.
    repeat (destruct Hp as [<-|Hp];
            [unfold searchPath; cbn [toLowerCase lower_ascii];
             vm_compute split_on; cbn [searchPath_from];
             now rewrite matching_children_skip|]).
    destruct Hp.
  - cbn [get_prop]. now apply assoc_skip.
Qed.

Section OtherFields.

Context {P : Primitives}.

(** X14. [decrypt] reads the document only under [crypto] and
    [x-ethers] and at [address]: a field of the document with another
    name, such as [version] or [id], is not looked at, so that two
    documents that differ only by such a field are decrypted alike. *)
Theorem decrypt_ignores_other_fields (text1 text2 : string)
    (password : Password) (w : world) (f1 f2 : list (string * json))
    (k : string) (v : json) :
  JSON_parse text1 = Some (JObj (f1 ++ (k, v) :: f2)) ->
  JSON_parse text2 = Some (JObj (f1 ++ f2)) ->
  toLowerCase k <> "crypto" -> toLowerCase k <> "x-ethers" ->
  k <> "address" ->
  decrypt text1 password w = decrypt text2 password w.
Proof.
  intros H1 H2 Hc Hx Ha. unfold decrypt. rewrite H1, H2.
  apply decrypt_data_same. now apply same_reads_skip.
Qed.

End OtherFields.

(** ** The stages of [encrypt] *)

Section EncryptStages.

Context {P : Primitives}.

Lemma random_run (n : nat) (w : world) :
  random n w = (Ok (map (rng w) (seq 0 n)), drawn n w).
Proof. reflexivity. Qed.

(** A run of [encrypt] that returns a document, step by step. *)
Lemma encrypt_success (account : ExternallyOwnedAccount)
    (password : Password) (options : option EncryptOptions) (w w' : world)
    (text : string) :
  encrypt account password options w = (Ok text, w') ->
  exists k entropy salt w1 iv w2 uuidRandom w3 key data,
    checkAccount account = Ok tt /\
    arrayify (BLHex (privateKey account)) = Ok k /\
    accountEntropy account = Ok entropy /\
    chooseSalt (the_options options) w = (Ok salt, w1) /\
    chooseIv (the_options options) w1 = (Ok iv, w2) /\
    chooseUuid (the_options options) w2 = (Ok uuidRandom, w3) /\
    scrypt (getPassword password) salt (scrypt_N options) (scrypt_r options)
      (scrypt_p options) 64 = Some key /\
    encryptWith account k entropy (client_of options) salt iv uuidRandom
      (scrypt_N options) (scrypt_r options) (scrypt_p options) key
      (record_call (encrypt_request password options salt) w3) = (Ok data, w') /\
    text = JSON_stringify data.
Proof.
  unfold encrypt. intros H.
  apply bind_ok in H as ([] & w0 & H1 & H).
  pose proof H1 as H1'. apply lift_ok in H1. injection H1' as _ <-.
  apply bind_ok in H as (k & w0 & H2 & H).
  pose proof H2 as H2'. apply lift_ok in H2. injection H2' as _ <-.
  apply bind_ok in H as (entropy & w0 & H3 & H).
  pose proof H3 as H3'. apply lift_ok in H3. injection H3' as _ <-.
  apply bind_ok in H as (salt & w1 & H4 & H).
  apply bind_ok in H as (iv & w2 & H5 & H).
  apply bind_ok in H as (uuidRandom & w3 & H6 & H).
  cbv zeta in H.
  apply bind_ok in H as (key & w4 & H7 & H).
  apply bind_ok in H as (data & w5 & H8 & H).
  unfold call_scrypt in H7.
  destruct (scrypt _ _ _ _ _ _) as [key'|] eqn:Hs; [|discriminate].
  injection H7 as <- <-. unfold ret in H. injection H as <- <-.
  exists k, entropy, salt, w1, iv, w2, uuidRandom, w3, key', data.
  repeat split; assumption.
Qed.

(** A run of [encryptWith] that returns a document: the document, and what
    is drawn from the random source. *)
Lemma encryptWith_run (account : ExternallyOwnedAccount) (k : bytes)
    (entropy : option (bytes * string)) (client : string)
    (salt iv uuidRandom : bytes) (N r p : Z) (key : bytes) (w w' : world)
    (data : json) :
  encryptWith account k entropy client salt iv uuidRandom N r p key w
    = (Ok data, w') ->
  exists ct,
    aes_ctr_encrypt (slice 0 16 key) iv k = Some ct /\
    let data_address := toLowerCase (substring_from 2 (address account)) in
    let fields :=
      keystoreData data_address (uuid_v4 uuidRandom) (hex_of_bytes iv)
        (hex_of_bytes ct) (hex_of_bytes salt) N p r
        (hex_of_bytes (keccak_256 (slice 16 32 key ++ ct)%list)) in
    match entropy with
    | None => data = JObj fields /\ w' = w
    | Some (e, pth) =>
        exists mnemonicCiphertext,
          aes_ctr_encrypt (slice 32 64 key) (map (rng w) (seq 0 16)) e
            = Some mnemonicCiphertext /\
          data =
            JObj (fields ++
                  [ ("x-ethers",
                     xEthersData client
                       ("UTC--" ++ timestamp (clock w) ++ "--" ++ data_address)
                       (hex_of_bytes (map (rng w) (seq 0 16)))
                       (hex_of_bytes mnemonicCiphertext) pth) ]) /\
          w' = drawn 16 w
    end.
Proof.
  unfold encryptWith. intros H.
  apply bind_ok in H as (ct & w1 & H1 & H).
  pose proof H1 as H1'. apply lift_ok in H1. injection H1' as _ <-.
  destruct (aes_ctr_encrypt (slice 0 16 key) iv k) as [ct'|] eqn:Hct;
    [|discriminate].
  injection H1 as <-. exists ct'. split; [reflexivity|]. cbv zeta.
  unfold keccak256, concat in H. cbn [List.concat] in H.
  rewrite app_nil_r, !substring_from_hexlify in H.
  destruct entropy as [[e pth]|].
  - apply bind_ok in H as (miv & w2 & H2 & H).
    rewrite random_run in H2. injection H2 as <- <-.
    apply bind_ok in H as (mct & w3 & H3 & H).
    pose proof H3 as H3'. apply lift_ok in H3. injection H3' as _ <-.
    destruct (aes_ctr_encrypt (slice 32 64 key) _ e) as [mct'|] eqn:Hm;
      [|discriminate].
    injection H3 as <-.
    apply bind_ok in H as (now & w4 & H4 & H).
    unfold new_Date in H4. injection H4 as <- <-.
    unfold ret in H. injection H as <- <-.
    exists mct'. split; [first [exact Hm|reflexivity]|]. split; reflexivity.
  - unfold ret in H. injection H as <- <-. split; reflexivity.
Qed.

(** A run of [encrypt] either fails before scrypt is called, or makes its
    one request. *)
Lemma encrypt_stages (account : ExternallyOwnedAccount) (password : Password)
    (options : option EncryptOptions) (w : world) :
  (exists e,
     fst (encrypt account password options w) = Err e /\
     log (snd (encrypt account password options w)) = log w) \/
  (exists salt,
     log (snd (encrypt account password options w)) =
       (log w ++ [encrypt_request password options salt])%list).
Proof.
  destruct (encrypt account password options w) as [res w'] eqn:E.
  cbn [fst snd].
  destruct (checkAccount account) as [[]|e] eqn:H1.
  2:{ left. exists e. erewrite encrypt_rejected in E; [|exact H1].
      injection E as <- <-. now split. }
  destruct (arrayify (BLHex (privateKey account))) as [k|e] eqn:H2.
  2:{ left. exists e. unfold encrypt in E.
      rewrite bind_lift, H1, bind_lift, H2 in E.
      injection E as <- <-. now split. }
  destruct (accountEntropy account) as [entropy|e] eqn:H3.
  2:{ left. exists e. unfold encrypt in E.
      rewrite bind_lift, H1, bind_lift, H2, bind_lift, H3 in E.
      injection E as <- <-. now split. }
  erewrite encrypt_checked in E; [|eassumption ..].
  unfold bind at 1 in E.
  pose proof (chooseSalt_log (the_options options) w) as L1.
  destruct (chooseSalt (the_options options) w) as [[salt|e] w1];
    cbn [snd] in L1;
    [|left; exists e; injection E as <- <-; split; [reflexivity|exact L1]].
  unfold bind at 1 in E.
  pose proof (chooseIv_log (the_options options) w1) as L2.
  destruct (chooseIv (the_options options) w1) as [[iv|e] w2];
    cbn [snd] in L2;
    [|left; exists e; injection E as <- <-; split; [reflexivity|congruence]].
  unfold bind at 1 in E.
  pose proof (chooseUuid_log (the_options options) w2) as L3.
  destruct (chooseUuid (the_options options) w2) as [[uuidRandom|e] w3];
    cbn [snd] in L3;
    [|left; exists e; injection E as <- <-; split; [reflexivity|congruence]].
  right. exists salt. cbv zeta in E. unfold bind at 1, call_scrypt in E.
  assert (L : log (record_call (encrypt_request password options salt) w3) =
              (log w ++ [encrypt_request password options salt])%list).
  { cbn [record_call log]. congruence. }
  fold (scrypt_N options) (scrypt_r options) (scrypt_p options) in E.
  change (ScryptCall (getPassword password) salt (scrypt_N options)
            (scrypt_r options) (scrypt_p options) 64)
    with (encrypt_request password options salt) in E.
  destruct (of_option _ _) as [key|e]; [|injection E as <- <-; exact L].
  unfold bind at 1 in E.
  match type of E with
  | context [encryptWith ?a ?b ?c ?d ?e ?f ?g ?h ?i ?j ?k ?w] =>
      pose proof (encryptWith_log a b c d e f g h i j k w) as L4;
      destruct (encryptWith a b c d e f g h i j k w) as [[data|e'] w4]
  end; cbn [snd] in L4; unfold ret in E; injection E as <- <-; congruence.
Qed.

Lemma calls_logged {A} (m : M A) (w : world) (l : list event) :
  log (snd (m w)) = (log w ++ l)%list -> calls m w = l.
Proof.
  intros H. unfold calls. rewrite H.
  now rewrite skipn_app, skipn_all, Nat.sub_diag.
Qed.

(** X15. A run of [encrypt] calls scrypt at most once and pbkdf2 never;
    the one call is for 64 bytes, with the bytes of the password and with
    [N], [r], [p] from [options.scrypt] or the defaults 2^17, 8 and 1; and
    a run that returns a document has made that call. *)
Theorem encrypt_derives_key_once (account : ExternallyOwnedAccount)
    (password : Password) (options : option EncryptOptions) (w : world) :
  (calls (encrypt account password options) w = [] \/
   exists salt,
     calls (encrypt account password options) w =
       [ScryptCall (getPassword password) salt (scrypt_N options)
          (scrypt_r options) (scrypt_p options) 64]) /\
  (forall text,
     fst (encrypt account password options w) = Ok text ->
     exists salt,
       calls (encrypt account password options) w =
         [ScryptCall (getPassword password) salt (scrypt_N options)
            (scrypt_r options) (scrypt_p options) 64]).
Proof.
  destruct (encrypt_stages account password options w)
    as [(e & He & L)|(salt & L)].
  - split.
    + left. apply calls_logged. now rewrite app_nil_r.
    + intros text Ht. rewrite He in Ht. discriminate Ht.
  - assert (C : calls (encrypt account password options) w =
                [encrypt_request password options salt])
      by (apply calls_logged; exact L).
    split; [right|intros text _]; exists salt; exact C.
Qed.

End EncryptStages.

(** ** The document that [encrypt] writes *)

Lemma map_seq_add (g : nat -> byte) (n a k : nat) :
  map (fun i => g (n + i)%nat) (seq a k) = map g (seq (n + a) k).
Proof.
  revert a. induction k as [|k IH]; intros a; [reflexivity|].
  cbn [seq map]. f_equal. rewrite IH. do 2 f_equal. lia.
Qed.

Section EncryptDocument.

Context {P : Primitives}.

Lemma drawn_bytes (n : nat) (w : world) (a k : nat) :
  map (rng (drawn n w)) (seq a k) = map (rng w) (seq (n + a) k).
Proof. apply map_seq_add. Qed.

Lemma random_inv (n : nat) (w w' : world) (b : bytes) :
  random n w = (Ok b, w') -> b = map (rng w) (seq 0 n) /\ w' = drawn n w.
Proof. rewrite random_run. intros H. injection H as <- <-. now split. Qed.

(** What the three blocks of overrides leave of the world: they draw 32 or
    16 bytes, or nothing. *)
Lemma chooseSalt_world (o : EncryptOptions) (w : world) :
  snd (chooseSalt o w) = w \/ snd (chooseSalt o w) = drawn 32 w.
Proof.
  unfold chooseSalt, lift.
  repeat break_match; cbn [snd]; auto.
Qed.

Lemma chooseIv_world (o : EncryptOptions) (w : world) :
  snd (chooseIv o w) = w \/ snd (chooseIv o w) = drawn 16 w.
Proof.
  unfold chooseIv. repeat break_match; try (right; reflexivity).
  left. rewrite bind_lift. unfold throw, ret.
  repeat break_match; reflexivity.
Qed.

Lemma chooseUuid_world (o : EncryptOptions) (w : world) :
  snd (chooseUuid o w) = w \/ snd (chooseUuid o w) = drawn 16 w.
Proof.
  unfold chooseUuid. repeat break_match; try (right; reflexivity).
  left. rewrite bind_lift. unfold throw, ret.
  repeat break_match; reflexivity.
Qed.

Lemma accountEntropy_carries (account : ExternallyOwnedAccount)
    (entropy : option (bytes * string)) :
  accountEntropy account = Ok entropy ->
  if carries_mnemonic account then
    exists m hex e,
      mnemonic account = Some m /\
      mnemonicToEntropy m = Some hex /\
      arrayify (BLHex hex) = Ok e /\
      entropy = Some (e, or_defaultPath (path account))
  else entropy = None.
Proof.
  unfold accountEntropy, carries_mnemonic.
  destruct (mnemonic account) as [m|]; [|now intros [= <-]].
  destruct (truthy_string m); [|now intros [= <-]].
  intros H. step H. step H. injection H as <-.
  apply of_option_ok in E. now exists m, a, a0.
Qed.

(** X16. Without options, [encrypt] draws the salt, the [iv] and the
    bytes of the uuid from the random source, in that order: bytes 0 to
    32, 32 to 48 and 48 to 64 of what the source delivers, and, for an
    account with a mnemonic, bytes 64 to 80 for the counter of the
    mnemonic; scrypt is called with that salt and the defaults N = 131072,
    r = 8, p = 1. *)
Theorem encrypt_fresh_values (account : ExternallyOwnedAccount)
    (password : Password) (w w' : world) (text : string) :
  encrypt account password None w = (Ok text, w') ->
  calls (encrypt account password None) w =
    [ScryptCall (getPassword password) (map (rng w) (seq 0 32))
       131072 8 1 64] /\
  exists data,
    text = JSON_stringify data /\
    searchPath data "crypto/kdfparams/salt" =
      Ok (Some (JStr (hex_of_bytes (map (rng w) (seq 0 32))))) /\
    searchPath data "crypto/cipherparams/iv" =
      Ok (Some (JStr (hex_of_bytes (map (rng w) (seq 32 16))))) /\
    get_prop data "id" = Some (JStr (uuid_v4 (map (rng w) (seq 48 16)))) /\
    if carries_mnemonic account then
      searchPath data "x-ethers/mnemonicCounter" =
        Ok (Some (JStr (hex_of_bytes (map (rng w) (seq 64 16))))) /\
      forall i, rng w' i = rng w (80 + i)%nat
    else forall i, rng w' i = rng w (64 + i)%nat.
Proof.
  intros H.
  destruct (encrypt_success _ _ _ _ H)
    as (k & entropy & salt & w1 & iv & w2 & uuidRandom & w3 & key & data
        & _ & _ & Hent & Hs & Hi & Hu & _ & Hw & ->).
  change (chooseSalt (the_options None) w) with (random 32 w) in Hs.
  apply random_inv in Hs as [-> ->].
  change (chooseIv (the_options None) (drawn 32 w))
    with (random 16 (drawn 32 w)) in Hi.
  apply random_inv in Hi as [-> ->].
  change (chooseUuid (the_options None) (drawn 16 (drawn 32 w)))
    with (random 16 (drawn 16 (drawn 32 w))) in Hu.
  apply random_inv in Hu as [-> ->].
  rewrite !drawn_bytes in Hw. cbn [Nat.add] in Hw.
  split.
  - apply calls_logged. rewrite H. cbn [snd].
    apply encryptWith_run in Hw as (ct & _ & Hd). cbv zeta in Hd.
    destruct entropy as [[e pth]|].
    + destruct Hd as (mct & _ & _ & ->). reflexivity.
    + destruct Hd as (_ & ->). reflexivity.
  - exists data. split; [reflexivity|].
    apply encryptWith_run in Hw as (ct & _ & Hd). cbv zeta in Hd.
    apply accountEntropy_carries in Hent.
    destruct (carries_mnemonic account).
    + destruct Hent as (m & hex & e & _ & _ & _ & ->).
      destruct Hd as (mct & _ & -> & ->).
      cbn [record_call rng]. rewrite !drawn_bytes. cbn [Nat.add].
      repeat split; reflexivity.
    + subst entropy. destruct Hd as (-> & ->).
      repeat split; reflexivity.
Qed.

Lemma chooseSalt_clock (o : EncryptOptions) (w : world) :
  clock (snd (chooseSalt o w)) = clock w.
Proof. destruct (chooseSalt_world o w) as [-> | ->]; reflexivity. Qed.

Lemma chooseIv_clock (o : EncryptOptions) (w : world) :
  clock (snd (chooseIv o w)) = clock w.
Proof. destruct (chooseIv_world o w) as [-> | ->]; reflexivity. Qed.

Lemma chooseUuid_clock (o : EncryptOptions) (w : world) :
  clock (snd (chooseUuid o w)) = clock w.
Proof. destruct (chooseUuid_world o w) as [-> | ->]; reflexivity. Qed.

(** A run of [encrypt] that returns a document: the key that scrypt
    derives, the document that [encryptWith] builds with it, and the one
    request recorded. *)
Lemma encrypt_returns (account : ExternallyOwnedAccount)
    (password : Password) (options : option EncryptOptions) (w w' : world)
    (text : string) :
  encrypt account password options w = (Ok text, w') ->
  exists k entropy salt iv uuidRandom w3 key data,
    arrayify (BLHex (privateKey account)) = Ok k /\
    accountEntropy account = Ok entropy /\
    scrypt (getPassword password) salt (scrypt_N options) (scrypt_r options)
      (scrypt_p options) 64 = Some key /\
    encryptWith account k entropy (client_of options) salt iv uuidRandom
      (scrypt_N options) (scrypt_r options) (scrypt_p options) key
      (record_call (encrypt_request password options salt) w3) = (Ok data, w') /\
    clock w3 = clock w /\
    calls (encrypt account password options) w =
      [encrypt_request password options salt] /\
    text = JSON_stringify data.
Proof.
  intros H.
  destruct (encrypt_success _ _ _ _ H)
    as (k & entropy & salt & w1 & iv & w2 & uuidRandom & w3 & key & data
        & _ & Hk & Hent & Hs & Hi & Hu & Hkey & Hw & ->).
  exists k, entropy, salt, iv, uuidRandom, w3, key, data.
  pose proof (chooseSalt_log (the_options options) w) as L1.
  pose proof (chooseIv_log (the_options options) w1) as L2.
  pose proof (chooseUuid_log (the_options options) w2) as L3.
  pose proof (chooseSalt_clock (the_options options) w) as C1.
  pose proof (chooseIv_clock (the_options options) w1) as C2.
  pose proof (chooseUuid_clock (the_options options) w2) as C3.
  rewrite Hs in L1, C1. rewrite Hi in L2, C2. rewrite Hu in L3, C3.
  cbn [snd] in *.
  repeat (split; [assumption || congruence|]).
  split; [|reflexivity].
  apply calls_logged. rewrite H. cbn [snd].
  pose proof (encryptWith_log account k entropy (client_of options) salt iv
                uuidRandom (scrypt_N options) (scrypt_r options)
                (scrypt_p options) key
                (record_call (encrypt_request password options salt) w3)) as L4.
  rewrite Hw in L4. cbn [snd record_call log] in L4. congruence.
Qed.

(** X17. With the [salt], [iv] and [uuid] overrides supplied, a document
    that [encrypt] returns holds these very values: the salt as given, of
    any length, the [iv] and the bytes of the uuid, each of 16 bytes; and
    the random source is left as it was, but for the 16 bytes of the counter
    of a mnemonic. *)
Theorem encrypt_overrides_honoured (account : ExternallyOwnedAccount)
    (password : Password) (options : EncryptOptions) (w w' : world)
    (text : string) :
  encrypt account password (Some options) w = (Ok text, w') ->
  overrides_supplied options = true ->
  exists salt_v iv_v uuid_v salt iv uuidRandom data,
    opt_salt options = Some salt_v /\ arrayify salt_v = Ok salt /\
    opt_iv options = Some iv_v /\ arrayify iv_v = Ok iv /\
    List.length iv = 16%nat /\
    opt_uuid options = Some uuid_v /\
    arrayify (BLHex uuid_v) = Ok uuidRandom /\
    List.length uuidRandom = 16%nat /\
    text = JSON_stringify data /\
    searchPath data "crypto/kdfparams/salt" =
      Ok (Some (JStr (hex_of_bytes salt))) /\
    searchPath data "crypto/cipherparams/iv" =
      Ok (Some (JStr (hex_of_bytes iv))) /\
    get_prop data "id" = Some (JStr (uuid_v4 uuidRandom)) /\
    if carries_mnemonic account then
      forall i, rng w' i = rng w (16 + i)%nat
    else rng w' = rng w.
Proof.
  intros H Ho.
  destruct (encrypt_success _ _ _ _ H)
    as (k & entropy & salt & w1 & iv & w2 & uuidRandom & w3 & key & data
        & _ & _ & Hent & Hs & Hi & Hu & _ & Hw & ->).
  cbn [the_options] in Hs, Hi, Hu.
  unfold overrides_supplied in Ho.
  unfold chooseSalt in Hs. unfold chooseIv in Hi. unfold chooseUuid in Hu.
  destruct (opt_iv options) as [iv_v|]; [|discriminate].
  destruct (opt_salt options) as [salt_v|]; [|discriminate].
  destruct (opt_uuid options) as [uuid_v|]; [|discriminate].
  apply andb_true_iff in Ho as [Ho Ht3].
  apply andb_true_iff in Ho as [Ht1 Ht2].
  rewrite Ht2 in Hs. rewrite Ht1 in Hi. rewrite Ht3 in Hu.
  unfold lift in Hs. injection Hs as Hs <-.
  rewrite bind_lift in Hi.
  destruct (arrayify iv_v) as [iv'|] eqn:Hiv; [|discriminate].
  destruct (Nat.eqb_spec (List.length iv') 16) as [Hl1|]; [|discriminate].
  cbn [negb] in Hi. unfold ret in Hi. injection Hi as <- <-.
  rewrite bind_lift in Hu.
  destruct (arrayify (BLHex uuid_v)) as [uuid'|] eqn:Huu; [|discriminate].
  destruct (Nat.eqb_spec (List.length uuid') 16) as [Hl2|]; [|discriminate].
  cbn [negb] in Hu. unfold ret in Hu. injection Hu as <- <-.
  exists salt_v, iv_v, uuid_v, salt, iv', uuid', data.
  repeat (split; [assumption || reflexivity|]).
  apply encryptWith_run in Hw as (ct & _ & Hd). cbv zeta in Hd.
  apply accountEntropy_carries in Hent.
  destruct (carries_mnemonic account).
  - destruct Hent as (m & hex & e & _ & _ & _ & ->).
    destruct Hd as (mct & _ & -> & ->). repeat split; reflexivity.
  - subst entropy. destruct Hd as (-> & ->). repeat split; reflexivity.
Qed.

(** X18. A document that [encrypt] returns states what was done: its
    [kdfparams] are the salt, [N], [r] and [p] of the one call of scrypt,
    with [dklen] 32; its ciphertext is the AES-CTR encryption of the private
    key under bytes 0 to 16 of the derived key, with the [iv] it states;
    its [mac] is the Keccak-256 digest of bytes 16 to 32 of the key followed
    by that ciphertext; its [address] is the address of the account in
    lower case without [0x]; and its [version] is 3. *)
Theorem encrypt_web3_document (account : ExternallyOwnedAccount)
    (password : Password) (options : option EncryptOptions) (w w' : world)
    (text : string) :
  encrypt account password options w = (Ok text, w') ->
  exists data k salt iv key ct,
    text = JSON_stringify data /\
    keystore_document data /\
    arrayify (BLHex (privateKey account)) = Ok k /\
    calls (encrypt account password options) w =
      [ScryptCall (getPassword password) salt (scrypt_N options)
         (scrypt_r options) (scrypt_p options) 64] /\
    scrypt (getPassword password) salt (scrypt_N options) (scrypt_r options)
      (scrypt_p options) 64 = Some key /\
    aes_ctr_encrypt (slice 0 16 key) iv k = Some ct /\
    web3_fields data (toLowerCase (substring_from 2 (address account)))
      (hex_of_bytes iv) (hex_of_bytes ct) (hex_of_bytes salt)
      (scrypt_N options) (scrypt_p options) (scrypt_r options)
      (hex_of_bytes (keccak_256 (slice 16 32 key ++ ct)%list)) /\
    get_prop data "version" = Some (JNum 3).
Proof.
  intros H.
  destruct (encrypt_returns _ _ _ _ H)
    as (k & entropy & salt & iv & uuidRandom & w3 & key & data
        & Hk & _ & Hkey & Hw & _ & Hc & ->).
  apply encryptWith_run in Hw as (ct & Hct & Hd). cbv zeta in Hd.
  exists data, k, salt, iv, key, ct.
  split; [reflexivity|].
  assert (Hdoc : keystore_document data /\
    web3_fields data (toLowerCase (substring_from 2 (address account)))
      (hex_of_bytes iv) (hex_of_bytes ct) (hex_of_bytes salt)
      (scrypt_N options) (scrypt_p options) (scrypt_r options)
      (hex_of_bytes (keccak_256 (slice 16 32 key ++ ct)%list)) /\
    get_prop data "version" = Some (JNum 3)).
  { destruct entropy as [[e pth]|].
    - destruct Hd as (mct & _ & -> & _).
      split; [apply ethers_document|].
      split; [|reflexivity].
      match goal with
      | |- context [JObj (keystoreData ?a ?i ?v ?c ?s ?n ?p ?r ?mc ++
                      [(_, xEthersData ?cl ?g ?ctr ?mcx ?pth)])] =>
          exact (proj1 (ethers_document_fields a i v c s n p r mc cl g ctr
                          mcx pth))
      end.
    - destruct Hd as (-> & _).
      split; [apply web3_document|].
      split; [|reflexivity]. apply web3_document_fields. }
  destruct Hdoc as (D1 & D2 & D3).
  repeat (split; [assumption|]). assumption.
Qed.

(** X19. A document that [encrypt] returns has an [x-ethers] part exactly
    when the mnemonic of the account is truthy; the part then states
    version "0.1", the client of the options or "ethers.js", the path of the
    account or the default path, the entropy of the mnemonic encrypted with
    AES-CTR under bytes 32 to 64 of the derived key, with the counter it
    states, and a file name made of "UTC--", the time of the clock and the
    address. *)
Theorem encrypt_x_ethers (account : ExternallyOwnedAccount)
    (password : Password) (options : option EncryptOptions) (w w' : world)
    (text : string) :
  encrypt account password options w = (Ok text, w') ->
  exists data,
    text = JSON_stringify data /\
    if carries_mnemonic account then
      exists m hex entropy salt key mnemonicIv mnemonicCiphertext,
        mnemonic account = Some m /\
        mnemonicToEntropy m = Some hex /\
        arrayify (BLHex hex) = Ok entropy /\
        scrypt (getPassword password) salt (scrypt_N options)
          (scrypt_r options) (scrypt_p options) 64 = Some key /\
        aes_ctr_encrypt (slice 32 64 key) mnemonicIv entropy
          = Some mnemonicCiphertext /\
        ethers_fields data (hex_of_bytes mnemonicIv)
          (hex_of_bytes mnemonicCiphertext) (or_defaultPath (path account)) /\
        searchPath data "x-ethers/client" =
          Ok (Some (JStr (client_of options))) /\
        searchPath data "x-ethers/gethFilename" =
          Ok (Some (JStr ("UTC--" ++ timestamp (clock w) ++ "--" ++
                          toLowerCase (substring_from 2 (address account)))))
    else searchPath data "x-ethers" = Ok None.
Proof.
  intros H.
  destruct (encrypt_returns _ _ _ _ H)
    as (k & entropy & salt & iv & uuidRandom & w3 & key & data
        & _ & Hent & Hkey & Hw & Hclock & _ & ->).
  apply encryptWith_run in Hw as (ct & _ & Hd). cbv zeta in Hd.
  exists data. split; [reflexivity|].
  apply accountEntropy_carries in Hent.
  destruct (carries_mnemonic account).
  - destruct Hent as (m & hex & e & Hm & Hhex & He & ->).
    destruct Hd as (mct & Hmct & -> & _).
    cbn [record_call clock] in *. rewrite Hclock.
    exists m, hex, e, salt, key. do 2 eexists.
    repeat (split; [eassumption || reflexivity|]).
    split; [|split; reflexivity].
    repeat split; reflexivity.
  - subst entropy. destruct Hd as (-> & _). reflexivity.
Qed.

(** [encrypt], with the names of what it computes from its options. *)
Lemma encrypt_eq (account : ExternallyOwnedAccount) (password : Password)
    (options : option EncryptOptions) :
  encrypt account password options =
  bind (lift (checkAccount account)) (fun _ =>
  bind (lift (arrayify (BLHex (privateKey account)))) (fun k =>
  bind (lift (accountEntropy account)) (fun entropy =>
  bind (chooseSalt (the_options options)) (fun salt =>
  bind (chooseIv (the_options options)) (fun iv =>
  bind (chooseUuid (the_options options)) (fun uuidRandom =>
  bind (call_scrypt (getPassword password) salt (scrypt_N options)
          (scrypt_r options) (scrypt_p options) 64) (fun key =>
  bind (encryptWith account k entropy (client_of options) salt iv uuidRandom
          (scrypt_N options) (scrypt_r options) (scrypt_p options) key)
    (fun data => ret (JSON_stringify data))))))))).
Proof. reflexivity. Qed.

Lemma scryptParam_falsy (v : option Z) (d : Z) :
  falsy_number v = true -> scryptParam v d = d.
Proof.
  unfold falsy_number, scryptParam. destruct v as [n|]; [|reflexivity].
  now intros ->.
Qed.

(** X20. Overrides that are there but falsy count as absent: with an empty
    string for [iv], [salt], [uuid] and [client] and zero for the fields of
    [scrypt], [encrypt] runs as it does without options; and the
    [entropy] field of the options is never read. *)
Theorem encrypt_no_overrides (account : ExternallyOwnedAccount)
    (password : Password) (options : EncryptOptions) (w : world) :
  no_overrides options = true ->
  encrypt account password (Some options) w = encrypt account password None w.
Proof.
  unfold no_overrides. intros H.
  apply andb_true_iff in H as [H Hsc]. apply andb_true_iff in H as [H Hcl].
  apply andb_true_iff in H as [H Hu]. apply andb_true_iff in H as [Hi Hs].
  assert (E1 : chooseSalt options = chooseSalt no_options).
  { unfold chooseSalt. cbn [no_options opt_salt].
    destruct (opt_salt options) as [v|]; [|reflexivity].
    apply negb_true_iff in Hs. now rewrite Hs. }
  assert (E2 : chooseIv options = chooseIv no_options).
  { unfold chooseIv. cbn [no_options opt_iv].
    destruct (opt_iv options) as [v|]; [|reflexivity].
    apply negb_true_iff in Hi. now rewrite Hi. }
  assert (E3 : chooseUuid options = chooseUuid no_options).
  { unfold chooseUuid. cbn [no_options opt_uuid].
    destruct (opt_uuid options) as [v|]; [|reflexivity].
    apply negb_true_iff in Hu. now rewrite Hu. }
  assert (E4 : client_of (Some options) = client_of None).
  { unfold client_of. cbn [the_options no_options opt_client].
    destruct (opt_client options) as [v|]; [|reflexivity].
    apply negb_true_iff in Hcl. now rewrite Hcl. }
  assert (E5 : scrypt_N (Some options) = scrypt_N None /\
               scrypt_r (Some options) = scrypt_r None /\
               scrypt_p (Some options) = scrypt_p None).
  { unfold scrypt_N, scrypt_r, scrypt_p, scryptField.
    cbn [the_options no_options opt_scrypt].
    destruct (opt_scrypt options) as [s|]; [|now repeat split].
    apply andb_true_iff in Hsc as [Hsc Hp].
    apply andb_true_iff in Hsc as [HN Hr].
    rewrite (@scryptParam_falsy (opt_N s)), (@scryptParam_falsy (opt_r s)),
      (@scryptParam_falsy (opt_p s)) by assumption.
    now repeat split. }
  destruct E5 as (E5 & E6 & E7).
  rewrite !encrypt_eq. cbn [the_options].
  now rewrite E1, E2, E3, E4, E5, E6, E7.
Qed.

End EncryptDocument.

(** ** Thrown or rejected *)

Section CompletionProperties.

Context {P : Primitives}.

Lemma checkAccount_err (account : ExternallyOwnedAccount) (e : error) :
  checkAccount account = Err e ->
  e = AddressPrivateKeyMismatch \/ e = MnemonicMismatch \/
  e = PathWithoutMnemonic \/ collaborator_error e = true.
Proof.
  unfold checkAccount. intros H.
  step H; [|do 3 right; injection H as <-; now subst].
  destruct (computeAddress (BLHex (privateKey account))) as [c|e'] eqn:Ec;
    cbn [rbind] in H;
    [|do 3 right; injection H as <-; eapply computeAddress_err; exact Ec].
  case_if H; [left; congruence|].
  destruct (mnemonic account) as [m|].
  - unfold hdDerive in H.
    destruct (of_option (PrimitiveFailure "HDNode.fromMnemonic") _)
      as [root|e'] eqn:E1; cbn [rbind] in H;
      [|do 3 right; injection H as <-; apply of_option_err in E1; now subst].
    destruct (of_option (PrimitiveFailure "derivePath") _)
      as [node|e'] eqn:E2; cbn [rbind] in H;
      [|do 3 right; injection H as <-; apply of_option_err in E2; now subst].
    case_if H; [right; left; congruence|discriminate].
  - destruct (path account); [right; right; left; congruence|discriminate].
Qed.

Lemma accountEntropy_err (account : ExternallyOwnedAccount) (e : error) :
  accountEntropy account = Err e -> collaborator_error e = true.
Proof.
  unfold accountEntropy. intros H.
  destruct (mnemonic account) as [m|]; [|discriminate].
  destruct (truthy_string m); [|discriminate].
  step H; [|injection H as <-; now subst].
  step H; [discriminate|injection H as <-; now subst].
Qed.

Lemma chooseSalt_err (o : EncryptOptions) (w w' : world) (e : error) :
  chooseSalt o w = (Err e, w') -> e = InvalidHex /\ w' = w.
Proof.
  unfold chooseSalt, lift.
  destruct (opt_salt o) as [v|]; [|rewrite random_run; discriminate].
  destruct (truthy_byteslike v); [|rewrite random_run; discriminate].
  intros H. injection H as H <-. apply arrayify_err in H. now split.
Qed.

Lemma chooseIv_err (o : EncryptOptions) (w w' : world) (e : error) :
  chooseIv o w = (Err e, w') -> (e = InvalidHex \/ e = InvalidIv) /\ w' = w.
Proof.
  unfold chooseIv.
  destruct (opt_iv o) as [v|]; [|rewrite random_run; discriminate].
  destruct (truthy_byteslike v); [|rewrite random_run; discriminate].
  rewrite bind_lift. destruct (arrayify v) as [iv|e'] eqn:E.
  - destruct (negb _); [|discriminate].
    intros H. injection H as <- <-. split; [now right|reflexivity].
  - intros H. injection H as <- <-. apply arrayify_err in E.
    split; [now left|reflexivity].
Qed.

Lemma chooseUuid_err (o : EncryptOptions) (w w' : world) (e : error) :
  chooseUuid o w = (Err e, w') -> (e = InvalidHex \/ e = InvalidUuid) /\ w' = w.
Proof.
  unfold chooseUuid.
  destruct (opt_uuid o) as [v|]; [|rewrite random_run; discriminate].
  destruct (truthy_string v); [|rewrite random_run; discriminate].
  rewrite bind_lift. destruct (arrayify (BLHex v)) as [u|e'] eqn:E.
  - destruct (negb _); [|discriminate].
    intros H. injection H as <- <-. split; [now right|reflexivity].
  - intros H. injection H as <- <-. apply arrayify_err in E.
    split; [now left|reflexivity].
Qed.

Lemma encryptArguments_err (account : ExternallyOwnedAccount)
    (o : EncryptOptions) (w w' : world) (e : error) :
  encryptArguments account o w = (Err e, w') ->
  (e = InvalidIv \/ e = InvalidUuid \/ collaborator_error e = true) /\
  log w' = log w.
Proof.
  unfold encryptArguments. rewrite bind_lift.
  destruct (arrayify (BLHex (privateKey account))) as [k|e'] eqn:E1.
  2:{ intros H. injection H as <- <-. apply arrayify_err in E1.
      split; [right; right; now subst|reflexivity]. }
  rewrite bind_lift.
  destruct (accountEntropy account) as [entropy|e'] eqn:E2.
  2:{ intros H. injection H as <- <-. apply accountEntropy_err in E2.
      split; [now right; right|reflexivity]. }
  unfold bind at 1. pose proof (chooseSalt_log o w) as L1.
  destruct (chooseSalt o w) as [[salt|e'] w1] eqn:E3; cbn [snd] in L1.
  2:{ intros H. injection H as <- <-. apply chooseSalt_err in E3 as [-> _].
      split; [now right; right|exact L1]. }
  unfold bind at 1. pose proof (chooseIv_log o w1) as L2.
  destruct (chooseIv o w1) as [[iv|e'] w2] eqn:E4; cbn [snd] in L2.
  2:{ intros H. injection H as <- <-.
      apply chooseIv_err in E4 as [[-> | ->] _];
        (split; [|congruence]); [now right; right|now left]. }
  unfold bind at 1. pose proof (chooseUuid_log o w2) as L3.
  destruct (chooseUuid o w2) as [[uuidRandom|e'] w3] eqn:E5; cbn [snd] in L3.
  2:{ intros H. injection H as <- <-.
      apply chooseUuid_err in E5 as [[-> | ->] _];
        (split; [|congruence]); [now right; right|right; now left]. }
  unfold ret. discriminate.
Qed.

Lemma encryptWith_err (account : ExternallyOwnedAccount) (k : bytes)
    (entropy : option (bytes * string)) (client : string)
    (salt iv uuidRandom : bytes) (N r p : Z) (key : bytes) (w w' : world)
    (e : error) :
  encryptWith account k entropy client salt iv uuidRandom N r p key w
    = (Err e, w') ->
  collaborator_error e = true.
Proof.
  unfold encryptWith. cbv zeta. rewrite bind_lift.
  destruct (of_option _ (aes_ctr_encrypt (slice 0 16 key) iv k)) as [ct|e']
    eqn:E1.
  2:{ intros H. injection H as <- <-. apply of_option_err in E1. now subst. }
  destruct entropy as [[en pth]|]; [|unfold ret; discriminate].
  unfold bind at 1. rewrite random_run. rewrite bind_lift.
  destruct (of_option _ (aes_ctr_encrypt (slice 32 64 key) _ en))
    as [mct|e'] eqn:E2; [unfold bind, new_Date, ret; discriminate|].
  intros H. injection H as <- <-. apply of_option_err in E2. now subst.
Qed.

Lemma encryptPromise_err (account : ExternallyOwnedAccount)
    (password : Password) (options : option EncryptOptions)
    (args : bytes * option (bytes * string) * bytes * bytes * bytes)
    (w w' : world) (e : error) :
  encryptPromise account password options args w = (Err e, w') ->
  collaborator_error e = true.
Proof.
  destruct args as [[[[k entropy] salt] iv] uuidRandom].
  unfold encryptPromise, bind at 1, call_scrypt.
  destruct (of_option _ _) as [key|e'] eqn:E1.
  2:{ intros H. injection H as <- <-. apply of_option_err in E1. now subst. }
  unfold bind.
  match goal with
  | |- context [encryptWith ?a ?b ?c ?d ?e ?f ?g ?h ?i ?j ?k ?w] =>
      destruct (encryptWith a b c d e f g h i j k w) as [[data|e'] w2] eqn:E2
  end; [unfold ret; discriminate|].
  intros H. injection H as <- <-. eapply encryptWith_err. exact E2.
Qed.

(** [encrypt] is [encrypt_call] with a throw and a rejection taken
    alike. *)
Lemma encrypt_call_settled (account : ExternallyOwnedAccount)
    (password : Password) (options : option EncryptOptions) (w : world) :
  encrypt account password options w =
  (settled (fst (encrypt_call account password options w)),
   snd (encrypt_call account password options w)).
Proof.
  rewrite encrypt_eq.
  unfold encrypt_call, encryptArguments, encryptPromise, bind, lift, ret.
  destruct (checkAccount account) as [[]|e]; [|reflexivity].
  destruct (arrayify (BLHex (privateKey account))) as [k|e]; [|reflexivity].
  destruct (accountEntropy account) as [entropy|e]; [|reflexivity].
  destruct (chooseSalt (the_options options) w) as [[salt|e] w1];
    [|reflexivity].
  destruct (chooseIv (the_options options) w1) as [[iv|e] w2];
    [|reflexivity].
  destruct (chooseUuid (the_options options) w2) as [[uuidRandom|e] w3];
    [|reflexivity].
  destruct (call_scrypt _ _ _ _ _ _ w3) as [[key|e] w4]; [|reflexivity].
  destruct (encryptWith _ _ _ _ _ _ _ _ _ _ _ w4) as [[data|e] w5];
    reflexivity.
Qed.

(** X21. [encrypt] reports its errors in two ways. What the checks of the
    account find comes as a rejected promise. Past these checks, with the
    private key and the entropy read: a [salt], an [iv] or a [uuid]
    override that is not hex is thrown to the caller, with the error of
    [arrayify], and so is an [iv] or a [uuid] override that is not 16 bytes
    long, as [InvalidIv] or [InvalidUuid]; each before scrypt is called.
    Nothing else is thrown but the errors of the collaborators. *)
Theorem encrypt_throws_or_rejects (account : ExternallyOwnedAccount)
    (password : Password) (options : option EncryptOptions) (w : world) :
  (forall e,
     checkAccount account = Err e ->
     encrypt_call account password options w = (Rejected e, w)) /\
  (forall k entropy,
     checkAccount account = Ok tt ->
     arrayify (BLHex (privateKey account)) = Ok k ->
     accountEntropy account = Ok entropy ->
     (forall v e,
        opt_salt (the_options options) = Some v ->
        truthy_byteslike v = true ->
        arrayify v = Err e ->
        encrypt_call account password options w = (Thrown e, w)) /\
     (forall salt w1,
        chooseSalt (the_options options) w = (Ok salt, w1) ->
        (forall v,
           opt_iv (the_options options) = Some v ->
           truthy_byteslike v = true ->
           (forall e,
              arrayify v = Err e ->
              encrypt_call account password options w = (Thrown e, w1)) /\
           (forall iv,
              arrayify v = Ok iv -> List.length iv <> 16%nat ->
              encrypt_call account password options w
                = (Thrown InvalidIv, w1))) /\
        (forall iv w2,
           chooseIv (the_options options) w1 = (Ok iv, w2) ->
           forall v,
             opt_uuid (the_options options) = Some v ->
             truthy_string v = true ->
             (forall e,
                arrayify (BLHex v) = Err e ->
                encrypt_call account password options w = (Thrown e, w2)) /\
             (forall u,
                arrayify (BLHex v) = Ok u -> List.length u <> 16%nat ->
                encrypt_call account password options w
                  = (Thrown InvalidUuid, w2))))) /\
  (forall e,
     fst (encrypt_call account password options w) = Thrown e ->
     (e = InvalidIv \/ e = InvalidUuid \/ collaborator_error e = true) /\
     calls (encrypt account password options) w = []).
Proof.
  split; [|split].
  - intros e He. unfold encrypt_call. now rewrite He.
  - intros k entropy Hc Hk He.
    assert (Hargs : forall r,
      bind (chooseSalt (the_options options)) (fun salt =>
      bind (chooseIv (the_options options)) (fun iv =>
      bind (chooseUuid (the_options options)) (fun uuidRandom =>
      ret (k, entropy, salt, iv, uuidRandom)))) w = r ->
      encryptArguments account (the_options options) w = r).
    { intros r <-. unfold encryptArguments.
      now rewrite bind_lift, Hk, bind_lift, He. }
    assert (Hthrown : forall e w1,
      encryptArguments account (the_options options) w = (Err e, w1) ->
      encrypt_call account password options w = (Thrown e, w1)).
    { intros e w1 H. unfold encrypt_call. now rewrite Hc, H. }
    split.
    + intros v e Hv Ht Ha. apply Hthrown, Hargs.
      unfold bind at 1. unfold chooseSalt. rewrite Hv, Ht.
      unfold lift. now rewrite Ha.
    + intros salt w1 Hsalt. split.
      * intros v Hv Ht. split.
        -- intros e Ha. apply Hthrown, Hargs.
           unfold bind at 1. rewrite Hsalt. unfold bind at 1.
           unfold chooseIv. rewrite Hv, Ht, bind_lift. now rewrite Ha.
        -- intros iv Ha Hl. apply Hthrown, Hargs.
           unfold bind at 1. rewrite Hsalt. unfold bind at 1.
           unfold chooseIv. rewrite Hv, Ht, bind_lift, Ha.
           apply Nat.eqb_neq in Hl. now rewrite Hl.
      * intros iv w2 Hiv v Hv Ht. split.
        -- intros e Ha. apply Hthrown, Hargs.
           unfold bind at 1. rewrite Hsalt. unfold bind at 1. rewrite Hiv.
           unfold bind at 1. unfold chooseUuid.
           rewrite Hv, Ht, bind_lift. now rewrite Ha.
        -- intros u Ha Hl. apply Hthrown, Hargs.
           unfold bind at 1. rewrite Hsalt. unfold bind at 1. rewrite Hiv.
           unfold bind at 1. unfold chooseUuid.
           rewrite Hv, Ht, bind_lift, Ha.
           apply Nat.eqb_neq in Hl. now rewrite Hl.
  - intros e. unfold calls. rewrite encrypt_call_settled. cbn [snd].
    unfold encrypt_call.
    destruct (checkAccount account) as [[]|e'] eqn:E1; [|discriminate].
    destruct (encryptArguments account (the_options options) w)
      as [[args|e'] w1] eqn:E2.
    + destruct (encryptPromise account password options args w1)
        as [[text|e'] w2]; discriminate.
    + cbn [fst snd]. intros [= <-].
      apply encryptArguments_err in E2 as [He L].
      split; [exact He|]. rewrite L. apply skipn_all.
Qed.

End CompletionProperties.

(** ** What an error says, and what a result says *)

Lemma is_string_true (v : option json) (s : string) :
  is_string v s = true -> v = Some (JStr s).
Proof.
  destruct v as [[]|]; cbn; try discriminate.
  intros H. apply String.eqb_eq in H. now subst.
Qed.

Section Causes.

Context {P : Primitives}.

Lemma collaborator_no_cause (data : json) (e : error) :
  collaborator_error e = true -> decrypt_cause data e.
Proof. destruct e; cbn; intros H; try exact I; discriminate H. Qed.

Lemma decrypt_cipher_none (data : json) (key ct : bytes) :
  decrypt_cipher data key ct = Ok None ->
  exists cipher,
    searchPath data "crypto/cipher" = Ok cipher /\
    is_string cipher "aes-128-ctr" = false.
Proof.
  unfold decrypt_cipher. intros H. step H.
  destruct (is_string a "aes-128-ctr") eqn:Hs; [|now exists a].
  step H. step H. step H. discriminate.
Qed.

Lemma decrypt_cipher_some (data : json) (key ct pk : bytes) :
  decrypt_cipher data key ct = Ok (Some pk) ->
  exists iv_v iv,
    searchPath data "crypto/cipher" = Ok (Some (JStr "aes-128-ctr")) /\
    searchPath data "crypto/cipherparams/iv" = Ok iv_v /\
    looseArrayify iv_v = Ok iv /\
    aes_ctr_decrypt key iv ct = Some pk.
Proof.
  unfold decrypt_cipher. intros H. step H.
  destruct (is_string a "aes-128-ctr") eqn:Hs; [|discriminate].
  apply is_string_true in Hs. subst a.
  step H. step H. step H. injection H as <-.
  apply of_option_ok in E2. now exists a, a0.
Qed.

Lemma checkAddress_cause (data : json) (addr : string) :
  checkAddress data addr = Err AddressMismatch ->
  exists s canonical,
    get_prop data "address" = Some (JStr s) /\ s <> "" /\
    getAddress (normalized s) = Some canonical.
Proof.
  unfold checkAddress. intros H.
  destruct (truthy (get_prop data "address")) eqn:Ht; [|discriminate].
  destruct (get_prop data "address") as [[| | |s| |]|]; try discriminate.
  cbn [toLowerCase_value rbind] in H. cbv zeta in H.
  assert (Hn : (if negb (String.eqb (substring_to 2 (toLowerCase s)) "0x")
                then "0x" ++ toLowerCase s else toLowerCase s)
               = normalized s).
  { unfold normalized. cbv zeta. now destruct (String.eqb _ "0x"). }
  rewrite Hn in H.
  destruct (getAddress (normalized s)) as [canonical|] eqn:Hc;
    [|discriminate].
  exists s, canonical. split; [reflexivity|]. split; [|exact Hc].
  intros ->. discriminate Ht.
Qed.

Lemma getAccount_cause (data : json) (key : bytes) (e : error) :
  getAccount data key = Err e -> decrypt_cause data e.
Proof.
  unfold getAccount. intros H.
  step H; [|injection H as <-; now subst].
  step H; [|injection H as <-; now subst].
  destruct (computedMAC_eq key a0) as (h & Hh1 & Hh).
  rewrite Hh1 in H. cbn [rbind] in H. cbv zeta in H. rewrite Hh in H.
  step H; [|injection H as <-; now subst].
  destruct a1 as [[| | |mac| |]|]; cbn [toLowerCase_value rbind] in H;
    try (injection H as <-; exact I).
  destruct (String.eqb_spec
    (hex_of_bytes (keccak_256 (slice 16 32 key ++ a0)%list)) (toLowerCase mac))
    as [Heq|Hne]; cbn [negb] in H.
  2:{ injection H as <-. now exists a, a0, mac. }
  destruct (decrypt_cipher data (slice 0 16 key) a0) as [pk|e'] eqn:Ec;
    cbn [rbind] in H.
  2:{ injection H as <-. apply collaborator_no_cause.
      eapply decrypt_cipher_err. exact Ec. }
  destruct pk as [pk|].
  2:{ injection H as <-. eapply decrypt_cipher_none. exact Ec. }
  destruct (computeAddress (BLBytes pk)) as [addr|e'] eqn:Ea; cbn [rbind] in H.
  2:{ injection H as <-. apply collaborator_no_cause.
      eapply computeAddress_err. exact Ea. }
  destruct (checkAddress data addr) as [[]|e'] eqn:Ek; cbn [rbind] in H.
  2:{ injection H as <-. pose proof Ek as Ek'.
      apply checkAddress_err in Ek' as [->|Ek'];
        [eapply checkAddress_cause; exact Ek
        |now apply collaborator_no_cause]. }
  step H; [|injection H as <-; now subst].
  destruct (is_string a1 "0.1") eqn:Hv; [|discriminate].
  apply is_string_true in Hv. subst a1.
  destruct (getMnemonic data (slice 32 64 key) (hexlify pk)) as [mp|e'] eqn:Em;
    cbn [rbind] in H; [discriminate|].
  injection H as <-. apply getMnemonic_err in Em as [->|Em];
    [exact E2|now apply collaborator_no_cause].
Qed.

Lemma scryptKey_cause (data : json) (pw : bytes) (w w' : world) (e : error)
    (kdf : string) :
  searchPath data "crypto/kdf" = Ok (Some (JStr kdf)) ->
  toLowerCase kdf = "scrypt" ->
  scryptKey data pw w = (Err e, w') -> decrypt_cause data e.
Proof.
  intros Hk Hs H.
  destruct (searchPath data "crypto/kdfparams/salt") as [salt_v|e'] eqn:H1.
  2:{ unfold scryptKey in H. rewrite bind_lift, H1 in H. injection H as <- _.
      err_facts. now subst. }
  destruct (looseArrayify salt_v) as [salt|e'] eqn:H2.
  2:{ unfold scryptKey in H. rewrite bind_lift, H1, bind_lift, H2 in H.
      injection H as <- _. err_facts. now subst. }
  destruct (searchPath data "crypto/kdfparams/n") as [N_v|e'] eqn:H3.
  2:{ unfold scryptKey in H.
      rewrite bind_lift, H1, bind_lift, H2, bind_lift, H3 in H.
      injection H as <- _. err_facts. now subst. }
  destruct (searchPath data "crypto/kdfparams/r") as [r_v|e'] eqn:H4.
  2:{ unfold scryptKey in H.
      rewrite bind_lift, H1, bind_lift, H2, bind_lift, H3, bind_lift, H4 in H.
      injection H as <- _. err_facts. now subst. }
  destruct (searchPath data "crypto/kdfparams/p") as [p_v|e'] eqn:H5.
  2:{ unfold scryptKey in H.
      rewrite bind_lift, H1, bind_lift, H2, bind_lift, H3, bind_lift, H4,
        bind_lift, H5 in H.
      injection H as <- _. err_facts. now subst. }
  erewrite scryptKey_read in H; [|eassumption ..].
  assert (Hparams :
    falsy_number (parseInt N_v) || falsy_number (parseInt r_v) ||
      falsy_number (parseInt p_v) = true ->
    decrypt_cause data UnsupportedKdfParams).
  { intros Hf. exists kdf, N_v, r_v, p_v. repeat (split; [assumption|]).
    exact Hf. }
  destruct (parseInt N_v) as [N|] eqn:EN;
    [|injection H as <- _; apply Hparams; reflexivity].
  destruct (parseInt r_v) as [r|] eqn:Er;
    [|injection H as <- _; apply Hparams; cbn [falsy_number];
      now rewrite orb_true_r].
  destruct (parseInt p_v) as [p|] eqn:Ep;
    [|injection H as <- _; apply Hparams; cbn [falsy_number];
      now rewrite orb_true_r].
  destruct ((N =? 0)%Z || (r =? 0)%Z || (p =? 0)%Z) eqn:Hz;
    [injection H as <- _; apply Hparams; exact Hz|].
  destruct (Z.eqb_spec (js_and N (js_pred N)) 0) as [Hpow|Hpow]; cbn [negb] in H.
  2:{ injection H as <- _. exists kdf, N_v, N. now repeat split. }
  rewrite bind_lift in H.
  destruct (searchPath data "crypto/kdfparams/dklen") as [dkLen_v|e'] eqn:H6.
  2:{ injection H as <- _. err_facts. now subst. }
  destruct (parseInt dkLen_v) as [[|d|d]|] eqn:Ed;
    try (injection H as <- _; exists dkLen_v; split;
         [assumption|rewrite Ed; discriminate]).
  repeat (destruct d as [d|d|];
          try (injection H as <- _; exists dkLen_v; split;
               [assumption|rewrite Ed; discriminate])).
  unfold call_scrypt in H. injection H as H _.
  apply of_option_err in H. now subst.
Qed.

Lemma pbkdf2Key_cause (data : json) (pw : bytes) (w w' : world) (e : error)
    (kdf : string) :
  searchPath data "crypto/kdf" = Ok (Some (JStr kdf)) ->
  toLowerCase kdf = "pbkdf2" ->
  pbkdf2Key data pw w = (Err e, w') -> decrypt_cause data e.
Proof.
  intros Hk Hs. unfold pbkdf2Key.
  destruct (searchPath data "crypto/kdfparams/salt") as [salt_v|e'] eqn:H1;
    rewrite bind_lift.
  2:{ intros H. injection H as <- _. err_facts. now subst. }
  destruct (looseArrayify salt_v) as [salt|e'] eqn:H2; rewrite bind_lift.
  2:{ intros H. injection H as <- _. err_facts. now subst. }
  destruct (searchPath data "crypto/kdfparams/prf") as [prf|e'] eqn:H3;
    rewrite bind_lift.
  2:{ intros H. injection H as <- _. err_facts. now subst. }
  assert (Hprf :
    (exists hash,
       (if is_string prf "hmac-sha256" then ret "sha256"
        else if is_string prf "hmac-sha512" then ret "sha512"
        else throw UnsupportedPrf) = ret hash) \/
    (is_string prf "hmac-sha256" = false /\
     is_string prf "hmac-sha512" = false /\
     (if is_string prf "hmac-sha256" then ret "sha256"
      else if is_string prf "hmac-sha512" then ret "sha512"
      else throw UnsupportedPrf) = @throw string UnsupportedPrf)).
  { destruct (is_string prf "hmac-sha256"); [left; now exists "sha256"|].
    destruct (is_string prf "hmac-sha512"); [left; now exists "sha512"|].
    right. now repeat split. }
  destruct Hprf as [(hash & ->)|(Hp1 & Hp2 & ->)].
  2:{ intros H. injection H as <- _. exists prf. now repeat split. }
  change (bind (ret hash) ?k w) with (k hash w). cbv beta.
  destruct (searchPath data "crypto/kdfparams/c") as [c_v|e'] eqn:H4;
    rewrite bind_lift.
  2:{ intros H. injection H as <- _. err_facts. now subst. }
  cbv zeta.
  destruct (searchPath data "crypto/kdfparams/dklen") as [dkLen_v|e'] eqn:H5;
    rewrite bind_lift.
  2:{ intros H. injection H as <- _. err_facts. now subst. }
  intros H.
  destruct (parseInt dkLen_v) as [[|d|d]|] eqn:Ed;
    try (injection H as <- _; exists dkLen_v; split;
         [assumption|rewrite Ed; discriminate]).
  repeat (destruct d as [d|d|];
          try (injection H as <- _; exists dkLen_v; split;
               [assumption|rewrite Ed; discriminate])).
  apply collaborator_no_cause.
  unfold bind, call_pbkdf2, lift in H.
  destruct (of_option (PrimitiveFailure "pbkdf2") _) as [h|e'] eqn:Eo.
  - apply (f_equal fst) in H. cbn [fst] in H.
    apply arrayify_err in H. now subst.
  - injection H as <- _. apply of_option_err in Eo. now subst.
Qed.

Lemma deriveKey_cause (data : json) (pw : bytes) (w w' : world) (e : error) :
  deriveKey data pw w = (Err e, w') -> decrypt_cause data e.
Proof.
  intros H.
  destruct (searchPath data "crypto/kdf") as [kdf|e'] eqn:Hk.
  2:{ unfold deriveKey in H. rewrite bind_lift, Hk in H. injection H as <- _.
      err_facts. now subst. }
  destruct (supported_kdf kdf) eqn:Hs.
  2:{ erewrite deriveKey_unsupported in H; [|eassumption ..].
      injection H as <- _. now exists kdf. }
  destruct kdf as [[| | |s| |]|]; try discriminate.
  cbn [supported_kdf] in Hs.
  destruct (String.eqb_spec (toLowerCase s) "scrypt") as [E|_].
  - erewrite deriveKey_scrypt in H; [|eassumption ..].
    eapply scryptKey_cause; eassumption.
  - cbn [orb] in Hs. apply String.eqb_eq in Hs.
    erewrite deriveKey_pbkdf2 in H; [|eassumption ..].
    eapply pbkdf2Key_cause; eassumption.
Qed.

(** X22. Each error of [decrypt] is raised for its cause only: when
    [decrypt] of a text that parses fails with one of the errors of
    keystore.ts, the document is as the error says. "Unsupported
    key-derivation function": [crypto/kdf] is neither scrypt nor pbkdf2;
    "parameters" and "parameter value for N": the kdf is scrypt and one of
    n, r, p is [NaN] or zero, or n fails the test; "unsupported prf": the
    prf is neither of the two names; "derived-key length": dklen does
    not parse to 32; "invalid password": the
    ciphertext and a string MAC were read; "unsupported cipher": the
    cipher is not aes-128-ctr; "address mismatch": the document has a
    string address that is not empty; "mnemonic mismatch": the version of
    [x-ethers] is "0.1". And [decrypt] raises none of the errors of
    [encrypt]. *)
Theorem decrypt_error_causes (text : string) (password : Password)
    (w : world) (data : json) (e : error) :
  JSON_parse text = Some data ->
  fst (decrypt text password w) = Err e ->
  decrypt_cause data e.
Proof.
  intros Hp H. unfold decrypt in H. rewrite Hp in H.
  unfold decrypt_data, bind in H.
  destruct (deriveKey data (getPassword password) w) as [[key|e'] w1] eqn:Hk.
  - unfold lift in H. cbn [fst] in H. eapply getAccount_cause. exact H.
  - cbn [fst] in H. injection H as <-. eapply deriveKey_cause. exact Hk.
Qed.

(** X23. An account that [decrypt] returns has been verified: the text
    parsed, a key was derived, the MAC of the document is the Keccak-256
    digest of bytes 16 to 32 of that key followed by the ciphertext, the
    cipher is aes-128-ctr, the private key of the account is the AES-CTR
    decryption of the ciphertext under bytes 0 to 16 of the key with the
    iv of the document, and the address of the account is computed from
    that private key. *)
Theorem decrypt_verified (text : string) (password : Password) (w : world)
    (a : KeystoreAccount) :
  fst (decrypt text password w) = Ok a ->
  exists (data : json) (key : bytes) (w1 : world) (ct_v iv_v : option json)
         (ciphertext iv plain : bytes) (mac : string),
    JSON_parse text = Some data /\
    deriveKey data (getPassword password) w = (Ok key, w1) /\
    searchPath data "crypto/ciphertext" = Ok ct_v /\
    looseArrayify ct_v = Ok ciphertext /\
    searchPath data "crypto/mac" = Ok (Some (JStr mac)) /\
    hex_of_bytes (keccak_256 (slice 16 32 key ++ ciphertext)%list)
      = toLowerCase mac /\
    searchPath data "crypto/cipher" = Ok (Some (JStr "aes-128-ctr")) /\
    searchPath data "crypto/cipherparams/iv" = Ok iv_v /\
    looseArrayify iv_v = Ok iv /\
    aes_ctr_decrypt (slice 0 16 key) iv ciphertext = Some plain /\
    privateKey (account a) = hexlify plain /\
    computeAddress (BLBytes plain) = Ok (address (account a)).
Proof.
  intros H. apply decrypt_ok in H as (data & key & w1 & Hp & Hk & Ha).
  apply getAccount_ok in Ha
    as (pk & (ct_v & ct & mac & Hv & Hct & Hmac & Heq & Hc & Haddr) & Hpk).
  apply decrypt_cipher_some in Hc as (iv_v & iv & Hcipher & Hiv & Hivb & Hd).
  exists data, key, w1, ct_v, iv_v, ct, iv, pk, mac.
  repeat (split; [assumption|]). assumption.
Qed.

Lemma collaborator_no_encrypt_cause (account : ExternallyOwnedAccount)
    (options : option EncryptOptions) (e : error) :
  collaborator_error e = true -> encrypt_cause account options e.
Proof. destruct e; cbn; intros H; try exact I; discriminate H. Qed.

Lemma checkAccount_cause (account : ExternallyOwnedAccount)
    (options : option EncryptOptions) (e : error) :
  checkAccount account = Err e -> encrypt_cause account options e.
Proof.
  unfold checkAccount. intros H.
  step H; [|injection H as <-; now subst].
  apply of_option_ok in E.
  destruct (computeAddress (BLHex (privateKey account))) as [c|e'] eqn:Ec;
    cbn [rbind] in H.
  2:{ injection H as <-. apply collaborator_no_encrypt_cause.
      eapply computeAddress_err. exact Ec. }
  destruct (String.eqb_spec a c) as [Heq|Hne]; cbn [negb] in H.
  2:{ injection H as <-. now exists a, c. }
  destruct (mnemonic account) as [m|] eqn:Em.
  - destruct (hdDerive m (or_defaultPath (path account))) as [node|e'] eqn:Eh;
      cbn [rbind] in H.
    2:{ injection H as <-. apply collaborator_no_encrypt_cause.
        unfold hdDerive in Eh.
        destruct (of_option (PrimitiveFailure "HDNode.fromMnemonic") _)
          as [root|e''] eqn:E1; cbn [rbind] in Eh;
          [|injection Eh as <-; apply of_option_err in E1; now subst].
        apply of_option_err in Eh. now subst. }
    destruct (String.eqb_spec (node_privateKey node) (privateKey account))
      as [Hk|Hk]; cbn [negb] in H; [discriminate|].
    injection H as <-. now exists m, node.
  - destruct (path account) as [p|] eqn:Ep; [|discriminate].
    injection H as <-. split; [exact Em|now exists p].
Qed.

Lemma chooseIv_cause (account : ExternallyOwnedAccount)
    (options : option EncryptOptions) (w w' : world) (e : error) :
  chooseIv (the_options options) w = (Err e, w') ->
  encrypt_cause account options e.
Proof.
  unfold chooseIv.
  destruct (opt_iv (the_options options)) as [v|] eqn:Ev;
    [|rewrite random_run; discriminate].
  destruct (truthy_byteslike v) eqn:Et; [|rewrite random_run; discriminate].
  rewrite bind_lift. destruct (arrayify v) as [iv|e'] eqn:E.
  - destruct (Nat.eqb_spec (List.length iv) 16) as [Hl|Hl]; cbn [negb];
      [discriminate|].
    intros H. injection H as <- _. now exists v, iv.
  - intros H. injection H as <- _. apply arrayify_err in E. now subst.
Qed.

Lemma chooseUuid_cause (account : ExternallyOwnedAccount)
    (options : option EncryptOptions) (w w' : world) (e : error) :
  chooseUuid (the_options options) w = (Err e, w') ->
  encrypt_cause account options e.
Proof.
  unfold chooseUuid.
  destruct (opt_uuid (the_options options)) as [v|] eqn:Ev;
    [|rewrite random_run; discriminate].
  destruct (truthy_string v) eqn:Et; [|rewrite random_run; discriminate].
  rewrite bind_lift. destruct (arrayify (BLHex v)) as [u|e'] eqn:E.
  - destruct (Nat.eqb_spec (List.length u) 16) as [Hl|Hl]; cbn [negb];
      [discriminate|].
    intros H. injection H as <- _. now exists v, u.
  - intros H. injection H as <- _. apply arrayify_err in E. now subst.
Qed.

Lemma encryptArguments_cause (account : ExternallyOwnedAccount)
    (options : option EncryptOptions) (w w' : world) (e : error) :
  encryptArguments account (the_options options) w = (Err e, w') ->
  encrypt_cause account options e.
Proof.
  unfold encryptArguments. rewrite bind_lift.
  destruct (arrayify (BLHex (privateKey account))) as [k|e'] eqn:E1.
  2:{ intros H. injection H as <- _. apply arrayify_err in E1. now subst. }
  rewrite bind_lift.
  destruct (accountEntropy account) as [entropy|e'] eqn:E2.
  2:{ intros H. injection H as <- _. apply collaborator_no_encrypt_cause.
      eapply accountEntropy_err. exact E2. }
  unfold bind at 1.
  destruct (chooseSalt (the_options options) w) as [[salt|e'] w1] eqn:E3.
  2:{ intros H. injection H as <- _. apply chooseSalt_err in E3 as [-> _].
      exact I. }
  unfold bind at 1.
  destruct (chooseIv (the_options options) w1) as [[iv|e'] w2] eqn:E4.
  2:{ intros H. injection H as <- _. eapply chooseIv_cause. exact E4. }
  unfold bind at 1.
  destruct (chooseUuid (the_options options) w2) as [[uuidRandom|e'] w3]
    eqn:E5.
  2:{ intros H. injection H as <- _. eapply chooseUuid_cause. exact E5. }
  unfold ret. discriminate.
Qed.

(** X24. Each error of [encrypt] is raised for its cause only: "address
    / privateKey mismatch" when the address of the account, made canonical,
    is not the address computed from its private key; "mnemonic mismatch"
    when the account has a mnemonic whose node at the path does not have
    the private key of the account; "cannot specify path without mnemonic"
    when it has a path and no mnemonic; "invalid iv" and "invalid uuid"
    when the override is truthy, is hex and is not 16 bytes long. And
    [encrypt] raises none of the errors of [decrypt]. *)
Theorem encrypt_error_causes (account : ExternallyOwnedAccount)
    (password : Password) (options : option EncryptOptions) (w : world)
    (e : error) :
  fst (encrypt account password options w) = Err e ->
  encrypt_cause account options e.
Proof.
  rewrite encrypt_call_settled. cbn [fst]. unfold encrypt_call.
  destruct (checkAccount account) as [[]|e'] eqn:E1.
  2:{ cbn [fst settled]. intros [= <-]. eapply checkAccount_cause. exact E1. }
  destruct (encryptArguments account (the_options options) w)
    as [[args|e'] w1] eqn:E2.
  2:{ cbn [fst settled]. intros [= <-].
      eapply encryptArguments_cause. exact E2. }
  destruct (encryptPromise account password options args w1)
    as [[text|e'] w2] eqn:E3; cbn [fst settled]; [discriminate|].
  intros [= <-]. apply collaborator_no_encrypt_cause.
  eapply encryptPromise_err. exact E3.
Qed.

Lemma checkAccount_ok (account : ExternallyOwnedAccount) :
  checkAccount account = Ok tt ->
  (exists canonical,
     getAddress (address account) = Some canonical /\
     computeAddress (BLHex (privateKey account)) = Ok canonical) /\
  match mnemonic account with
  | Some m =>
      exists node,
        hdDerive m (or_defaultPath (path account)) = Ok node /\
        node_privateKey node = privateKey account
  | None => path account = None
  end.
Proof.
  unfold checkAccount. intros H.
  step H. apply of_option_ok in E.
  destruct (computeAddress (BLHex (privateKey account))) as [c|e'] eqn:Ec;
    cbn [rbind] in H; [|discriminate].
  destruct (String.eqb_spec a c) as [<-|Hne]; cbn [negb] in H;
    [|discriminate].
  split; [now exists a|].
  destruct (mnemonic account) as [m|].
  - destruct (hdDerive m (or_defaultPath (path account))) as [node|e'];
      cbn [rbind] in H; [|discriminate].
    destruct (String.eqb_spec (node_privateKey node) (privateKey account))
      as [Hk|Hk]; cbn [negb] in H; [|discriminate].
    now exists node.
  - now destruct (path account).
Qed.

(** X25. [encrypt] writes a document for a consistent account only: when
    it returns one, the address of the account, made canonical, is the
    address computed from its private key; a mnemonic, if the account has
    one, derives at the path of the account, or at the default path, a node
    with that private key; and an account without a mnemonic has no
    path. *)
Theorem encrypt_account_checked (account : ExternallyOwnedAccount)
    (password : Password) (options : option EncryptOptions) (w : world)
    (text : string) :
  fst (encrypt account password options w) = Ok text ->
  (exists canonical,
     getAddress (address account) = Some canonical /\
     computeAddress (BLHex (privateKey account)) = Ok canonical) /\
  match mnemonic account with
  | Some m =>
      exists node,
        hdDerive m (or_defaultPath (path account)) = Ok node /\
        node_privateKey node = privateKey account
  | None => path account = None
  end.
Proof.
  destruct (encrypt account password options w) as [r w'] eqn:E.
  cbn [fst]. intros ->.
  apply encrypt_success in E
    as (k & entropy & salt & w1 & iv & w2 & u & w3 & key & data & Hc & _).
  now apply checkAccount_ok.
Qed.

End Causes.

(** ** The reference instance satisfies the laws *)

Module ReferenceLaws.

Import Reference.

(** *** JSON text *)

Lemma string_app_assoc (a b c : string) : (a ++ b) ++ c = a ++ (b ++ c).
Proof. induction a as [|x a IH]; cbn; [reflexivity|now rewrite IH]. Qed.

Lemma string_length_app (a b : string) :
  String.length (a ++ b) = (String.length a + String.length b)%nat.
Proof. induction a as [|x a IH]; cbn; [reflexivity|now rewrite IH]. Qed.

Lemma read_string_escape (s rest : string) :
  read_string (escape s ++ String quote rest) = Some (s, rest).
Proof.
  induction s as [|c s IH]; [reflexivity|].
  cbn [escape].
  destruct (Ascii.eqb_spec c quote) as [->|Hq]; cbn [orb].
  - cbn [append read_string]. rewrite IH. reflexivity.
  - destruct (Ascii.eqb_spec c backslash) as [->|Hb].
    + cbn [append read_string]. rewrite IH. reflexivity.
    + cbn [append read_string].
      apply Ascii.eqb_neq in Hq, Hb. rewrite Hq, Hb, IH. reflexivity.
Qed.

Lemma all_num_uint (d : Decimal.uint) :
  all_num (NilEmpty.string_of_uint d) = true.
Proof. induction d; cbn; auto. Qed.

Lemma string_of_Z_shape (z : Z) :
  exists c r, string_of_Z z = String c r /\ is_num_char c = true /\
              all_num r = true.
Proof.
  unfold string_of_Z, NilZero.string_of_int, NilZero.string_of_uint.
  destruct (Z.to_int z) as [d|d].
  - destruct d; cbn; do 2 eexists;
      (split; [reflexivity|split; [reflexivity|apply all_num_uint || reflexivity]]).
  - exists "-"%char. eexists. split; [reflexivity|]. split; [reflexivity|].
    destruct d; cbn; try apply all_num_uint; reflexivity.
Qed.

Lemma span_num_all (s rest : string) :
  all_num s = true -> follows rest -> span_num (s ++ rest) = (s, rest).
Proof.
  intros Hs Hr. induction s as [|c s IH]; cbn [append].
  - destruct rest as [|c r]; [reflexivity|]. cbn in Hr |- *. now rewrite Hr.
  - cbn [all_num] in Hs. apply andb_true_iff in Hs as [Hc Hs].
    cbn [span_num]. rewrite Hc, (IH Hs). reflexivity.
Qed.

Lemma int_of_string_of_Z (z : Z) :
  option_map Z.of_int (NilZero.int_of_string (string_of_Z z)) = Some z.
Proof.
  unfold string_of_Z. rewrite NilZero.isi.
  - cbn. now rewrite DecimalZ.of_to.
  - destruct z; cbn; try discriminate.
    intros [= E]. now apply (Unsigned.to_uint_nonnil p).
  - destruct z; cbn; try discriminate.
    intros [= E]. now apply (Unsigned.to_uint_nonnil p).
Qed.

Lemma read_number_print (z : Z) (rest : string) :
  follows rest -> read_number (string_of_Z z ++ rest) = Some (JNum z, rest).
Proof.
  intros Hr. unfold read_number.
  destruct (string_of_Z_shape z) as (c & r & E & Hc & Ha).
  rewrite span_num_all; [|rewrite E; cbn; now rewrite Hc, Ha|exact Hr].
  pose proof (int_of_string_of_Z z) as Hz.
  destruct (NilZero.int_of_string (string_of_Z z)); [|discriminate].
  cbn in Hz. now injection Hz as ->.
Qed.

Lemma string_app_nil_r (a : string) : a ++ "" = a.
Proof. induction a as [|x a IH]; cbn; [reflexivity|now rewrite IH]. Qed.

Lemma json_induction (Pj : json -> Prop) :
  Pj JNull -> (forall b, Pj (JBool b)) -> (forall z, Pj (JNum z)) ->
  (forall s, Pj (JStr s)) ->
  (forall l, Forall Pj l -> Pj (JArr l)) ->
  (forall l, Forall (fun kx => Pj (snd kx)) l -> Pj (JObj l)) ->
  forall v, Pj v.
Proof.
  intros H1 H2 H3 H4 H5 H6. fix IH 1.
  intros [| b | z | s | l | l];
    [exact H1|apply H2|apply H3|apply H4| |].
  - apply H5. induction l as [|x l IHl]; constructor; [apply IH|exact IHl].
  - apply H6. induction l as [|[k x] l IHl]; constructor;
      [apply IH|exact IHl].
Qed.

Lemma print_head (v : json) :
  exists c s, print v = String c s /\
              Ascii.eqb c "]" = false /\ Ascii.eqb c "}" = false.
Proof.
  destruct v as [| [] | z | s | l | l]; cbn [print];
    try (do 2 eexists; repeat split; reflexivity).
  destruct (string_of_Z_shape z) as (c & r & -> & Hc & _).
  exists c, r. split; [reflexivity|].
  split; destruct (Ascii.eqb_spec c "]"), (Ascii.eqb_spec c "}"); subst;
    try reflexivity; discriminate.
Qed.

Lemma read_items_print (l : list json) :
  Forall reads_back l -> l <> [] ->
  forall fuel rest,
    (fold_right (fun x n => S (need x + n)) O l < fuel)%nat ->
    read_items fuel (print_items print l ++ rest) = Some (l, rest).
Proof.
  induction l as [|x r IH]; [congruence|].
  intros HF _ fuel rest Hfuel. inversion HF as [|? ? Hx Hr]; subst.
  cbn [fold_right] in Hfuel.
  destruct fuel as [|f]; [lia|]. cbn [read_items print_items].
  destruct r as [|y r'].
  - rewrite string_app_assoc.
    rewrite (Hx f ("]" ++ rest)); [|cbn [fold_right] in Hfuel; lia|reflexivity].
    reflexivity.
  - rewrite string_app_assoc.
    change (("," ++ print_items print (y :: r')) ++ rest)
      with (String "," (print_items print (y :: r') ++ rest)).
    rewrite (Hx f); [|lia|reflexivity].
    cbn [Ascii.eqb Bool.eqb].
    rewrite (IH Hr); [reflexivity|discriminate|lia].
Qed.

Lemma read_fields_print (l : list (string * json)) :
  Forall (fun kx => reads_back (snd kx)) l -> l <> [] ->
  forall fuel rest,
    (fold_right (fun kx n => S (need (snd kx) + n)) O l < fuel)%nat ->
    read_fields fuel (print_fields print l ++ rest) = Some (l, rest).
Proof.
  induction l as [|[k x] r IH]; [congruence|].
  intros HF _ fuel rest Hfuel. inversion HF as [|? ? Hx Hr]; subst.
  cbn [fold_right snd] in Hfuel, Hx.
  destruct fuel as [|f]; [lia|]. cbn [read_fields print_fields].
  destruct r as [|y r'].
  - unfold print_string. cbn [append].
    rewrite !string_app_assoc. cbn [append].
    rewrite Ascii.eqb_refl, read_string_escape. cbn [Ascii.eqb Bool.eqb].
    rewrite string_app_assoc.
    rewrite (Hx f ("}" ++ rest)); [|lia|reflexivity].
    reflexivity.
  - unfold print_string at 1. cbn [append].
    rewrite !string_app_assoc. cbn [append].
    rewrite Ascii.eqb_refl, read_string_escape. cbn [Ascii.eqb Bool.eqb].
    rewrite !string_app_assoc.
    rewrite (Hx f); [|lia|reflexivity].
    cbn [append Ascii.eqb Bool.eqb].
    rewrite (IH Hr); [reflexivity|discriminate|lia].
Qed.

Lemma read_print (v : json) : reads_back v.
Proof.
  induction v using json_induction; intros fuel rest Hfuel Hrest;
    (destruct fuel as [|f]; [lia|]).
  - reflexivity.
  - destruct b; reflexivity.
  - cbn [print].
    destruct (string_of_Z_shape z) as (c & r & E & Hc & _).
    pose proof (read_number_print z rest Hrest) as Hn. rewrite E in *.
    cbn [append read] in Hn |- *. now rewrite Hc.
  - cbn [print]. unfold print_string. cbn [append].
    rewrite string_app_assoc. cbn [append read].
    change (is_num_char quote) with false. cbn iota.
    rewrite Ascii.eqb_refl, read_string_escape. reflexivity.
  - cbn [print need] in *. cbn [append read].
    destruct l as [|x l]; [reflexivity|].
    destruct (print_head x) as (c & s & E & Hc & _).
    assert (Hi := @read_items_print (x :: l) H ltac:(discriminate) f rest
                    ltac:(lia)).
    change (is_num_char "[") with false. cbn iota.
    change (Ascii.eqb "[" quote) with false. cbn iota.
    rewrite Ascii.eqb_refl.
    destruct (print_items print (x :: l) ++ rest) as [|c' r'] eqn:Er.
    + exfalso. cbn [print_items] in Er. rewrite E in Er.
      destruct l; discriminate.
    + assert (c' = c) as ->.
      { cbn [print_items] in Er. rewrite E in Er. destruct l; cbn in Er; congruence. }
      rewrite Hc, Hi. reflexivity.
  - cbn [print need] in *. cbn [append read].
    destruct l as [|[k x] l]; [reflexivity|].
    assert (Hi := @read_fields_print ((k, x) :: l) H ltac:(discriminate) f rest
                    ltac:(lia)).
    change (is_num_char "{") with false. cbn iota.
    change (Ascii.eqb "{" quote) with false. cbn iota.
    change (Ascii.eqb "{" "[") with false. cbn iota.
    rewrite Ascii.eqb_refl.
    destruct (print_fields print ((k, x) :: l) ++ rest) as [|c' r'] eqn:Er.
    + exfalso. cbn [print_fields] in Er. unfold print_string in Er.
      destruct l; discriminate.
    + assert (c' = quote) as ->.
      { cbn [print_fields] in Er. unfold print_string in Er.
        destruct l; cbn [append] in Er; injection Er as <- _; reflexivity. }
      change (Ascii.eqb quote "}") with false. cbn iota.
      rewrite Hi. reflexivity.
Qed.

Lemma need_le_length (v : json) : (need v <= String.length (print v))%nat.
Proof.
  induction v using json_induction; cbn [need print].
  - cbn; lia.
  - destruct b; cbn; lia.
  - destruct (string_of_Z_shape z) as (c & r & -> & _). cbn; lia.
  - cbn; lia.
  - cbn [append String.length]. apply le_n_S.
    induction l as [|x l IHl]; [cbn; lia|].
    inversion H as [|? ? Hx Hl]; subst. specialize (IHl Hl).
    cbn [fold_right print_items]. destruct l as [|y l'].
    + rewrite string_length_app. cbn. lia.
    + rewrite !string_length_app.
      change (String.length ",") with 1%nat. cbn [fold_right] in IHl |- *.
      lia.
  - cbn [append String.length]. apply le_n_S.
    induction l as [|[k x] l IHl]; [cbn; lia|].
    inversion H as [|? ? Hx Hl]; subst. specialize (IHl Hl).
    cbn [fold_right print_fields snd] in *. destruct l as [|y l'].
    + rewrite !string_length_app. cbn. lia.
    + rewrite !string_length_app.
      change (String.length ",") with 1%nat. cbn [fold_right] in IHl |- *.
      lia.
Qed.

Lemma parse_stringify (v : json) : JSON_parse (JSON_stringify v) = Some v.
Proof.
  unfold JSON_parse, JSON_stringify.
  pose proof (@read_print v) as H. unfold reads_back in H.
  specialize (H (S (String.length (print v))) "").
  rewrite string_app_nil_r in H. rewrite H; [reflexivity| |exact I].
  pose proof (need_le_length v). lia.
Qed.

(** *** The stream cipher *)

Lemma xor_byte_involutive (a k : byte) : xor_byte (xor_byte a k) k = a.
Proof.
  unfold xor_byte.
  rewrite <- (Byte.of_bits_to_bits a) at 2.
  destruct (Byte.to_bits a) as (a0 & a1 & a2 & a3 & a4 & a5 & a6 & a7).
  destruct (Byte.to_bits k) as (k0 & k1 & k2 & k3 & k4 & k5 & k6 & k7).
  rewrite Byte.to_bits_of_bits.
  now rewrite !xorb_assoc, !xorb_nilpotent, !xorb_false_r.
Qed.

Lemma xor_stream_involutive (pad : byte) (m : bytes) (i : nat) :
  xor_stream pad i (xor_stream pad i m) = m.
Proof.
  revert i; induction m as [|x m IH]; intros i; cbn [xor_stream];
    [reflexivity|].
  now rewrite xor_byte_involutive, IH.
Qed.

Lemma ctr_roundtrip (key iv m c : bytes) :
  ctr key iv m = Some c -> ctr key iv c = Some m.
Proof.
  unfold ctr. destruct (_ && _)%bool; [|discriminate].
  intros [= <-]. now rewrite xor_stream_involutive.
Qed.

(** *** Addresses *)

Lemma toUpperCase_length (s : string) :
  String.length (toUpperCase s) = String.length s.
Proof. induction s; cbn; auto. Qed.

Lemma toLowerCase_length (s : string) :
  String.length (toLowerCase s) = String.length s.
Proof. induction s; cbn; auto. Qed.

Lemma toUpperCase_app (a b : string) :
  toUpperCase (a ++ b) = toUpperCase a ++ toUpperCase b.
Proof. induction a as [|c a IH]; cbn; [reflexivity|now rewrite IH]. Qed.

Lemma all_hex_app (a b : string) :
  all_hex a = true -> all_hex b = true -> all_hex (a ++ b) = true.
Proof.
  intros Ha Hb. induction a as [|c a IH]; cbn in *; [exact Hb|].
  destruct (hex_value c); [auto|discriminate].
Qed.

Lemma hex_value_upper (c : ascii) :
  hex_value c <> None -> hex_value (upper_ascii c) <> None.
Proof.
  destruct c as [[] [] [] [] [] [] [] []]; cbn; congruence.
Qed.

Lemma hex_value_lower (c : ascii) :
  hex_value c <> None -> hex_value (lower_ascii c) <> None.
Proof.
  destruct c as [[] [] [] [] [] [] [] []]; cbn; congruence.
Qed.

Lemma upper_lower_upper (c : ascii) :
  upper_ascii (lower_ascii (upper_ascii c)) = upper_ascii c.
Proof.
  destruct c as [[] [] [] [] [] [] [] []]; reflexivity.
Qed.

Lemma upper_upper (c : ascii) : upper_ascii (upper_ascii c) = upper_ascii c.
Proof.
  destruct c as [[] [] [] [] [] [] [] []]; reflexivity.
Qed.

Lemma all_hex_upper (s : string) :
  all_hex s = true -> all_hex (toUpperCase s) = true.
Proof.
  induction s as [|c s IH]; cbn; [reflexivity|].
  pose proof (hex_value_upper c) as Hc.
  destruct (hex_value c); [|discriminate].
  destruct (hex_value (upper_ascii c)); [exact IH|]. now elim Hc.
Qed.

Lemma all_hex_lower (s : string) :
  all_hex s = true -> all_hex (toLowerCase s) = true.
Proof.
  induction s as [|c s IH]; cbn; [reflexivity|].
  pose proof (hex_value_lower c) as Hc.
  destruct (hex_value c); [|discriminate].
  destruct (hex_value (lower_ascii c)); [exact IH|]. now elim Hc.
Qed.

Lemma all_hex_hex_of_bytes (b : bytes) : all_hex (hex_of_bytes b) = true.
Proof.
  induction b as [|x b IH]; cbn [hex_of_bytes]; [reflexivity|].
  apply all_hex_app; [|exact IH]. destruct x; reflexivity.
Qed.

Lemma hex_of_bytes_length (b : bytes) :
  String.length (hex_of_bytes b) = (2 * List.length b)%nat.
Proof.
  induction b as [|x b IH]; cbn [hex_of_bytes]; [reflexivity|].
  rewrite string_length_app, IH. cbn. lia.
Qed.

Lemma stretch_length (seed : N) (n : nat) : List.length (stretch seed n) = n.
Proof. unfold stretch. now rewrite length_map, length_seq. Qed.

Lemma toUpperCase_lower_upper (s : string) :
  toUpperCase (toLowerCase (toUpperCase s)) = toUpperCase s.
Proof.
  induction s as [|c s IH]; cbn; [reflexivity|].
  now rewrite upper_lower_upper, IH.
Qed.

Lemma toUpperCase_idem (s : string) :
  toUpperCase (toUpperCase s) = toUpperCase s.
Proof.
  induction s as [|c s IH]; cbn; [reflexivity|].
  now rewrite upper_upper, IH.
Qed.

Lemma addressOf_inv (k : bytes) (a : string) :
  addressOf k = Some a ->
  exists h,
    a = "0x" ++ toUpperCase h /\ all_hex h = true /\
    String.length h = 40%nat.
Proof.
  unfold addressOf. destruct (_ =? 32)%nat; [|discriminate].
  intros H. exists (hex_of_bytes (firstn 20 (keccak_256 k))).
  split; [congruence|].
  split; [apply all_hex_hex_of_bytes|].
  rewrite hex_of_bytes_length, length_firstn.
  unfold keccak_256. rewrite stretch_length. reflexivity.
Qed.

Lemma getAddress_upper (h : string) :
  all_hex h = true -> String.length h = 40%nat ->
  getAddress ("0x" ++ toUpperCase h) = Some ("0x" ++ toUpperCase h) /\
  getAddress (toLowerCase ("0x" ++ toUpperCase h))
    = Some ("0x" ++ toUpperCase h).
Proof.
  intros Hh Hl. unfold getAddress. cbn [append toLowerCase substring_to].
  change (lower_ascii "0") with "0"%char.
  change (lower_ascii "x") with "x"%char.
  cbn [String.eqb Ascii.eqb Bool.eqb substring_from].
  rewrite all_hex_upper by exact Hh.
  rewrite all_hex_lower by (now apply all_hex_upper).
  rewrite toLowerCase_length, toUpperCase_length, Hl.
  cbn [Nat.eqb andb].
  now rewrite toUpperCase_idem, toUpperCase_lower_upper.
Qed.

(** *** Mnemonics *)

Lemma phraseEntropy_length (phrase : string) (e : bytes) :
  phraseEntropy phrase = Some e ->
  ((16 <=? List.length e) && (List.length e <=? 32))%nat = true.
Proof.
  unfold phraseEntropy. destruct (bytes_of_hex phrase) as [e'|]; [|discriminate].
  destruct (_ && _)%bool eqn:E; [|discriminate]. now intros [= <-].
Qed.

Lemma hd_entropy (m p : string) (root node : HDNode) (hex : string)
    (e : bytes) :
  HDNode_fromMnemonic m = Some root ->
  derivePath root p = Some node ->
  mnemonicToEntropy m = Some hex ->
  arrayify (BLHex hex) = Ok e ->
  entropyToMnemonic e = Some (node_mnemonic node).
Proof.
  unfold HDNode_fromMnemonic, mnemonicToEntropy, derivePath.
  destruct (phraseEntropy m) as [e0|] eqn:He; [|discriminate].
  intros Hroot Hn Hhex Ha.
  injection Hroot as <-. cbn [node_mnemonic node_privateKey] in Hn.
  injection Hhex as <-. rewrite arrayify_hexlify in Ha. injection Ha as <-.
  assert (node_mnemonic node = hex_of_bytes e0) as ->.
  { destruct p as [|c p]; [discriminate|].
    destruct c as [[] [] [] [] [] [] [] []]; try discriminate.
    apply (f_equal (option_map node_mnemonic)) in Hn.
    cbn [option_map node_mnemonic] in Hn. congruence. }
  unfold entropyToMnemonic. now rewrite (phraseEntropy_length _ He).
Qed.

End ReferenceLaws.

#[export] Instance reference_laws : Laws Reference.primitives.
Proof.
  constructor.
  - intros d _. apply ReferenceLaws.parse_stringify.
  - intros key iv m c. apply ReferenceLaws.ctr_roundtrip.
  - intros k a H. destruct (ReferenceLaws.addressOf_inv _ H) as (h & -> & Hh & Hl).
    exists (Reference.toUpperCase h). split; [reflexivity|].
    split; [now apply ReferenceLaws.all_hex_upper|].
    now rewrite ReferenceLaws.toUpperCase_length.
  - intros k a H. destruct (ReferenceLaws.addressOf_inv _ H) as (h & -> & Hh & Hl).
    now apply ReferenceLaws.getAddress_upper.
  - intros k a H. destruct (ReferenceLaws.addressOf_inv _ H) as (h & -> & Hh & Hl).
    now apply ReferenceLaws.getAddress_upper.
  - intros m p node hex e Hd Hm Ha. unfold hdDerive in Hd.
    step Hd. apply of_option_ok in E, Hd.
    exact (ReferenceLaws.hd_entropy _ _ E Hd Hm Ha).
Qed.

(** ** The time stamp *)

Lemma holds_from_spec (f : Z -> bool) (n : nat) (z v : Z) :
  holds_from f z n = true -> (z <= v < z + Z.of_nat n)%Z -> f v = true.
Proof.
  revert z. induction n as [|n IH]; intros z H Hv; [lia|].
  cbn [holds_from] in H. apply andb_true_iff in H as [Hz H].
  destruct (Z.eq_dec v z) as [->|Hne]; [exact Hz|].
  apply (IH (z + 1)%Z H). lia.
Qed.

Lemma zpad_two_digits (v : Z) :
  (0 <= v <= 99)%Z -> zpad v 2 = digits 2 v.
Proof.
  intros Hv. apply String.eqb_eq.
  apply (@holds_from_spec
           (fun z => String.eqb (zpad z 2) (digits 2 z)) (Z.to_nat 100) 0);
    [vm_compute; reflexivity|].
  rewrite Z2Nat.id; lia.
Qed.

Lemma year_four_digits (v : Z) :
  (1000 <= v <= 9999)%Z -> string_of_Z v = digits 4 v.
Proof.
  intros Hv. apply String.eqb_eq.
  apply (@holds_from_spec
           (fun z => String.eqb (string_of_Z z) (digits 4 z))
           (Z.to_nat 9000) 1000);
    [vm_compute; reflexivity|].
  rewrite Z2Nat.id; lia.
Qed.

Lemma digits_length (n : nat) (v : Z) : String.length (digits n v) = n.
Proof.
  revert v. induction n as [|n IH]; intros v; [reflexivity|].
  cbn [digits]. rewrite ReferenceLaws.string_length_app, IH. cbn. lia.
Qed.

(** X26. For a clock within the calendar, the time that [encrypt] writes
    in [gethFilename] has the form YYYY-MM-DDTHH-MM-SS.0Z: the year in
    four digits, then the month, counted from 1, the day, the hours, the
    minutes and the seconds in two digits each, in this order, with their
    separators and ".0Z"; 22 characters in all. *)
Theorem timestamp_format (now : Date) :
  calendar_date now ->
  timestamp now =
    digits 4 (getUTCFullYear now) ++ "-" ++
    digits 2 (getUTCMonth now + 1) ++ "-" ++
    digits 2 (getUTCDate now) ++ "T" ++
    digits 2 (getUTCHours now) ++ "-" ++
    digits 2 (getUTCMinutes now) ++ "-" ++
    digits 2 (getUTCSeconds now) ++ ".0Z" /\
  String.length (timestamp now) = 22%nat.
Proof.
  intros (Hy & Hm & Hd & Hh & Hmin & Hs).
  assert (E : timestamp now =
    digits 4 (getUTCFullYear now) ++ "-" ++
    digits 2 (getUTCMonth now + 1) ++ "-" ++
    digits 2 (getUTCDate now) ++ "T" ++
    digits 2 (getUTCHours now) ++ "-" ++
    digits 2 (getUTCMinutes now) ++ "-" ++
    digits 2 (getUTCSeconds now) ++ ".0Z").
  { unfold timestamp. rewrite year_four_digits by exact Hy.
    now rewrite !zpad_two_digits by lia. }
  split; [exact E|]. rewrite E.
  rewrite !ReferenceLaws.string_length_app, !digits_length. reflexivity.
Qed.

(** ** The properties on the sample inputs *)

Section Samples.

Import Examples.

#[local] Existing Instance Reference.primitives.

Ltac compute_it := vm_compute; reflexivity.



(** [bob]'s document under the wrong password. *)
Lemma decrypt_invalid_password_sample :
  computeMAC (slice 16 32 (key_of bar 1024)) (sealed_key 1024) =
    hexlify (keccak_256 (slice 16 32 (key_of bar 1024) ++ sealed_key 1024)%list)
  /\
  (fst (decrypt bob_text bar world0) = Err InvalidPassword <->
   hex_of_bytes (keccak_256 (slice 16 32 (key_of bar 1024) ++ sealed_key 1024)%list)
     <> toLowerCase
          (hex_of_bytes
             (keccak_256
                (slice 16 32 (key_of foo 1024) ++ sealed_key 1024)%list))).
Proof.
  apply (@decrypt_invalid_password_iff _ bob_text bar world0
           (record_call (ScryptCall (getPassword bar) salt0 1024 8 1 64) world0)
           bob_data (key_of bar 1024)
           (Some (JStr (hex_of_bytes (sealed_key 1024)))) (sealed_key 1024));
    compute_it.
Defined.

Lemma decrypt_mac_before_cipher_sample :
  (fst (decrypt (text (sealed address1 "aes-256-cbc" "scrypt" 1024 32))
          bar world0) = Err UnsupportedCipher <->
   hex_of_bytes (keccak_256 (slice 16 32 (key_of bar 1024) ++ sealed_key 1024)%list)
     = toLowerCase
         (hex_of_bytes
            (keccak_256 (slice 16 32 (key_of foo 1024) ++ sealed_key 1024)%list)))
  /\
  (fst (decrypt (text (sealed address1 "aes-256-cbc" "scrypt" 1024 32))
          bar world0) = Err InvalidPassword <->
   hex_of_bytes (keccak_256 (slice 16 32 (key_of bar 1024) ++ sealed_key 1024)%list)
     <> toLowerCase
          (hex_of_bytes
             (keccak_256
                (slice 16 32 (key_of foo 1024) ++ sealed_key 1024)%list))).
Proof.
  apply (@decrypt_mac_before_cipher _
           (text (sealed address1 "aes-256-cbc" "scrypt" 1024 32))
           bar world0
           (record_call (ScryptCall (getPassword bar) salt0 1024 8 1 64) world0)
           (sealed address1 "aes-256-cbc" "scrypt" 1024 32) (key_of bar 1024)
           (Some (JStr (hex_of_bytes (sealed_key 1024))))
           (Some (JStr "aes-256-cbc")) (sealed_key 1024));
    compute_it.
Defined.

Lemma encrypt_validates_first_sample :
  (encrypt wrong_address foo None world0
     = (Err AddressPrivateKeyMismatch, world0) /\
   calls (encrypt wrong_address foo None) world0 = []) /\
  (encrypt wrong_mnemonic foo None world0 = (Err MnemonicMismatch, world0) /\
   calls (encrypt wrong_mnemonic foo None) world0 = []) /\
  (encrypt lone_path foo None world0 = (Err PathWithoutMnemonic, world0) /\
   calls (encrypt lone_path foo None) world0 = []).
Proof.
  split; [|split].
  - pose proof (@encrypt_validates_first Reference.primitives wrong_address foo None world0
                  address2 address1 ltac:(compute_it) ltac:(compute_it))
      as (T & _ & _).
    apply T. discriminate.
  - pose proof (@encrypt_validates_first Reference.primitives wrong_mnemonic foo None world0
                  address2 address2 ltac:(compute_it) ltac:(compute_it))
      as (_ & T & _).
    apply (T eq_refl phrase
             {| node_privateKey := key1; node_mnemonic := phrase;
                node_path := defaultPath |});
      [reflexivity|compute_it|discriminate].
  - pose proof (@encrypt_validates_first Reference.primitives lone_path foo None world0
                  address1 address1 ltac:(compute_it) ltac:(compute_it))
      as (_ & _ & T).
    apply (T eq_refl "m/44'/60'/0'/0/1"); reflexivity.
Defined.

Lemma encrypt_salt_not_validated_sample :
  chooseSalt overrides world0 = (Ok salt0, world0) /\
  calls (encrypt bob foo (Some overrides)) world0 =
    [ScryptCall (getPassword foo) salt0 1024 8 1 64] /\
  encrypt bob foo (Some short_iv) world0 = (Err InvalidIv, world0) /\
  encrypt bob foo (Some short_uuid) world0 = (Err InvalidUuid, world0).
Proof.
  pose proof (fun o H => @encrypt_salt_not_validated Reference.primitives bob foo o world0
                (BLBytes salt0) salt0 key1_bytes None
                ltac:(compute_it) ltac:(compute_it) ltac:(compute_it)
                H eq_refl eq_refl) as T.
  split; [|split; [|split]].
  - apply (T overrides eq_refl).
  - destruct (T overrides eq_refl) as (_ & T2 & _).
    apply (T2 iv0 world0 uuid0 world0); compute_it.
  - destruct (T short_iv eq_refl) as (_ & _ & T3 & _).
    apply (T3 (BLBytes (Reference.stretch 1 15)) (Reference.stretch 1 15));
      try reflexivity. discriminate.
  - destruct (T short_uuid eq_refl) as (_ & _ & _ & T4).
    apply (T4 iv0 world0 (hexlify (Reference.stretch 2 3))
             (Reference.stretch 2 3)); try compute_it. discriminate.
Defined.

(** C3 fails on an account with a mnemonic: with the three overrides
    supplied, two runs of [encrypt] on the same account, password and
    options give two different documents, since the counter of the mnemonic
    and the time stamp are fresh in each run. *)
Lemma encrypt_mnemonic_not_deterministic :
  overrides_supplied overrides = true /\
  carries_mnemonic alice = true /\
  fst (encrypt alice foo (Some overrides) world0) <>
  fst (encrypt alice foo (Some overrides) world1).
Proof.
  split; [reflexivity|]. split; [reflexivity|].
  intros H.
  assert (E : String.eqb (text_of (encrypt alice foo (Some overrides) world0))
                (text_of (encrypt alice foo (Some overrides) world1)) = true).
  { unfold text_of. rewrite H. apply String.eqb_refl. }
  vm_compute in E. discriminate E.
Defined.

Lemma encrypt_deterministic_sample :
  fst (encrypt bob foo (Some overrides) world0) =
  fst (encrypt bob foo (Some overrides) world1).
Proof.
  apply encrypt_deterministic_without_mnemonic; reflexivity.
Defined.

(** C2 fails: on a pbkdf2 document with [dklen] 32, [decrypt] calls pbkdf2
    once, for 32 bytes, and never for 64. *)
Lemma decrypt_pbkdf2_not_64 :
  calls (decrypt (text pbkdf2_document) foo) world0 =
    [Pbkdf2Call (getPassword foo) salt0 (Some 262144%Z) 32 "sha256"] /\
  ~ (exists password salt c hash,
       In (Pbkdf2Call password salt c 64 hash)
          (calls (decrypt (text pbkdf2_document) foo) world0)).
Proof.
  assert (E : calls (decrypt (text pbkdf2_document) foo) world0 =
              [Pbkdf2Call (getPassword foo) salt0 (Some 262144%Z) 32 "sha256"])
    by compute_it.
  split; [exact E|].
  intros (password & salt & c & hash & H). rewrite E in H.
  destruct H as [H|[]]. discriminate H.
Defined.

Lemma decrypt_pbkdf2_requests_dklen_sample :
  calls (decrypt (text pbkdf2_document) foo) world0 =
    [Pbkdf2Call (getPassword foo) salt0 (Some 262144%Z) 32 "sha256"] /\
  fst (decrypt (text pbkdf2_document) foo world0) =
    getAccount pbkdf2_document
      (Reference.stretch
         (Reference.kdf_seed (getPassword foo) salt0 262144 6 0) 32).
Proof.
  pose proof (@decrypt_pbkdf2_requests_dklen Reference.primitives
                (text pbkdf2_document) foo world0 pbkdf2_document
                "pbkdf2" "sha256" (Some (JStr (hex_of_bytes salt0)))
                (Some (JStr "hmac-sha256")) (Some (JNum 262144))
                (Some (JNum 32)) salt0
                ltac:(compute_it) ltac:(compute_it) ltac:(compute_it)
                ltac:(compute_it) ltac:(compute_it) ltac:(compute_it)
                ltac:(left; split; reflexivity)
                ltac:(compute_it) ltac:(compute_it) ltac:(compute_it))
    as (T1 & T2).
  split; [exact T1|].
  apply (T2 (hexlify (Reference.stretch
                        (Reference.kdf_seed (getPassword foo) salt0 262144 6 0)
                        32))); compute_it.
Defined.


Lemma not_power_of_two_1000 : ~ is_power_of_two 1000.
Proof.
  intros (k & Hk & E).
  assert (k = 9%Z) as ->.
  { apply (f_equal Z.log2) in E. rewrite Z.log2_pow2 in E by exact Hk.
    symmetry. exact E. }
  discriminate E.
Qed.


(** The test [(N & (N - 1)) !== 0] works on 32 bits: [n] = 3 * 2^32 is not
    a power of two, and [decrypt] goes on to call scrypt with it. *)
Lemma decrypt_scrypt_test_32_bits :
  ~ is_power_of_two 12884901888 /\
  calls (decrypt (text
                    (sealed address1 "aes-128-ctr" "scrypt" 12884901888 32))
           foo) world0 =
    [ScryptCall (getPassword foo) salt0 12884901888 8 1 64].
Proof.
  split; [|compute_it].
  intros (k & Hk & E).
  assert (k = 33%Z) as ->.
  { apply (f_equal Z.log2) in E. rewrite Z.log2_pow2 in E by exact Hk.
    symmetry. exact E. }
  discriminate E.
Qed.

Lemma recovers_sample (a : string) :
  recovers (sealed a "aes-128-ctr" "scrypt" 1024 32) (key_of foo 1024)
    key1_bytes address1.
Proof.
  exists (Some (JStr (hex_of_bytes (sealed_key 1024)))), (sealed_key 1024),
    (hex_of_bytes
       (Reference.keccak_256
          (slice 16 32 (key_of foo 1024) ++ sealed_key 1024)%list)).
  repeat split; reflexivity.
Qed.

Lemma decrypt_address_check_sample :
  (fst (decrypt
          (text (sealed (toLowerCase (substring_from 2 address2))
                   "aes-128-ctr" "scrypt" 1024 32)) foo world0)
     = Err AddressMismatch <-> address2 <> address1) /\
  computeAddress (BLHex (privateKey (account bob_account)))
    = Ok (address (account bob_account)).
Proof.
  destruct (@decrypt_address_check Reference.primitives) as (T1 & T2).
  split.
  - apply (T1 (text (sealed (toLowerCase (substring_from 2 address2))
                       "aes-128-ctr" "scrypt" 1024 32)) foo world0
              (record_call (ScryptCall (getPassword foo) salt0 1024 8 1 64)
                 world0)
              (sealed (toLowerCase (substring_from 2 address2))
                 "aes-128-ctr" "scrypt" 1024 32)
              (key_of foo 1024) key1_bytes address1
              (toLowerCase (substring_from 2 address2)) address2);
      try compute_it.
    + apply recovers_sample.
    + discriminate.
  - apply (T2 bob_text foo world0 bob_account). compute_it.
Defined.

(** [carol]'s document, whose [x-ethers/path] is not the default path,
    and [alice]'s, whose path is the default one. *)
Lemma decrypt_mnemonic_sample :
  fst (decrypt carol_text foo world0) = Ok carol_account.
Proof.
  pose proof (@decrypt_mnemonic Reference.primitives carol_text foo world0
                (record_call (ScryptCall (getPassword foo) salt0 1024 8 1 64)
                   world0)
                carol_data (key_of foo 1024) key3_bytes entropy1 address3
                phrase path2 (Some (JStr "0.1"))
                (Some (JStr path2)) root1 node3) as T.
  apply T; try compute_it.
  - exists (Some (JStr (hex_of_bytes sealed_key3))), sealed_key3,
      (hex_of_bytes
         (Reference.keccak_256
            (slice 16 32 (key_of foo 1024) ++ sealed_key3)%list)).
    repeat split; compute_it.
  - unfold reads_entropy. do 4 eexists. repeat split; reflexivity.
  - left. split; [reflexivity|discriminate].
Defined.

Lemma decrypt_unsupported_kdf_sample :
  (fst (decrypt (text (sealed address1 "aes-128-ctr" "bcrypt" 1024 32))
          foo world0) = Err UnsupportedKdf <->
   supported_kdf (Some (JStr "bcrypt")) = false) /\
  decrypt (text (sealed address1 "aes-128-ctr" "bcrypt" 1024 32)) foo world0
    = (Err UnsupportedKdf, world0) /\
  calls (decrypt (text (sealed address1 "aes-128-ctr" "bcrypt" 1024 32)) foo)
    world0 = [].
Proof.
  destruct (@decrypt_unsupported_kdf Reference.primitives
              (text (sealed address1 "aes-128-ctr" "bcrypt" 1024 32))
              foo world0 (sealed address1 "aes-128-ctr" "bcrypt" 1024 32)
              (Some (JStr "bcrypt"))
              (ReferenceLaws.parse_stringify _) eq_refl eq_refl) as (T1 & T2).
  split; [exact T1|]. apply T2. reflexivity.
Defined.

Lemma decrypt_error_stages_sample :
  (decrypt (text (sealed address1 "aes-128-ctr" "scrypt" 0 32)) foo world0
     = (Err UnsupportedKdfParams, world0) /\
   calls (decrypt (text (sealed address1 "aes-128-ctr" "scrypt" 0 32)) foo)
     world0 = []) /\
  (exists ev, calls (decrypt bob_text bar) world0 = [ev]).
Proof.
  split.
  - apply (@decrypt_error_stages Reference.primitives
             (text (sealed address1 "aes-128-ctr" "scrypt" 0 32)) foo world0
             UnsupportedKdfParams ltac:(compute_it)).
    right. reflexivity.
  - apply (@decrypt_error_stages Reference.primitives bob_text bar world0
             InvalidPassword ltac:(compute_it)).
    reflexivity.
Defined.

Lemma decrypt_kdf_requests_sample :
  kdf_request (getPassword foo)
    (ScryptCall (getPassword foo) salt0 1024 8 1 64).
Proof.
  apply (@decrypt_kdf_requests Reference.primitives bob_text foo world0).
  left. compute_it.
Defined.

Lemma decrypt_pbkdf2_validation_sample :
  (decrypt (text (pbkdf2_wallet "HMAC-SHA256" 32 [])) foo world0
     = (Err UnsupportedPrf, world0) /\
   calls (decrypt (text (pbkdf2_wallet "HMAC-SHA256" 32 [])) foo) world0 = []) /\
  (decrypt (text (pbkdf2_wallet "hmac-sha512" 64 [])) foo world0
     = (Err UnsupportedDkLen, world0) /\
   calls (decrypt (text (pbkdf2_wallet "hmac-sha512" 64 [])) foo) world0 = []).
Proof.
  pose proof (fun prf dklen =>
    @decrypt_pbkdf2_validation Reference.primitives
      (text (pbkdf2_wallet prf dklen [])) foo world0
      (pbkdf2_wallet prf dklen []) "pbkdf2"
      (Some (JStr (hex_of_bytes salt0))) (Some (JStr prf)) salt0
      (ReferenceLaws.parse_stringify _) eq_refl eq_refl eq_refl
      (looseArrayify_hex_of_bytes salt0) eq_refl) as T.
  split.
  - destruct (T "HMAC-SHA256" 32%Z) as (T1 & _). apply T1; reflexivity.
  - destruct (T "hmac-sha512" 64%Z) as (_ & T2).
    apply (T2 (Some (JNum 262144)) (Some (JNum 64)));
      try reflexivity. discriminate.
Defined.

Lemma passes_N_test_1000 : ~ passes_N_test 1000.
Proof.
  intros [H|[H|H]]; [discriminate H ..|].
  now apply not_power_of_two_1000.
Qed.

Lemma decrypt_scrypt_N_test_sample :
  (fst (decrypt (text (sealed address1 "aes-128-ctr" "scrypt" 1000 32))
          foo world0) = Err UnsupportedKdfNValue <->
   ~ passes_N_test 1000) /\
  (fst (decrypt (text (sealed address1 "aes-128-ctr" "scrypt" 12884901888 32))
          foo world0) = Err UnsupportedKdfNValue <->
   ~ passes_N_test 12884901888).
Proof.
  pose proof (fun n (Hn : parseInt (Some (JNum n)) = Some n) =>
    @decrypt_scrypt_N_test Reference.primitives
      (text (sealed address1 "aes-128-ctr" "scrypt" n 32))
      foo world0 (sealed address1 "aes-128-ctr" "scrypt" n 32) "scrypt"
      (Some (JStr (hex_of_bytes salt0))) (Some (JNum n)) (Some (JNum 8))
      (Some (JNum 1)) salt0 n 8%Z 1%Z
      (ReferenceLaws.parse_stringify _) eq_refl eq_refl eq_refl
      (looseArrayify_hex_of_bytes salt0) eq_refl eq_refl eq_refl
      Hn ltac:(compute_it) ltac:(compute_it)) as T.
  split; apply T; first [compute_it|discriminate].
Defined.

Lemma recovers_document (a : json) (x : json) :
  recovers (document a (JStr sealed_mac) [("x-ethers", x)]) (key_of foo 1024)
    key1_bytes address1 /\
  recovers (document a (JStr sealed_mac) []) (key_of foo 1024)
    key1_bytes address1.
Proof.
  split;
    exists (Some (JStr (hex_of_bytes (sealed_key 1024)))), (sealed_key 1024),
      sealed_mac;
    repeat split; reflexivity.
Qed.

Lemma decrypt_x_ethers_version_sample :
  decrypt (text other_version) foo world0 = (Ok bob_account, derived foo).
Proof.
  apply (@decrypt_x_ethers_version Reference.primitives (text other_version)
           foo world0 (derived foo) other_version (key_of foo 1024) key1_bytes
           address1 (Some (JStr "0.2")));
    try compute_it.
  apply (proj1 (recovers_document _ _)).
Defined.

Lemma decrypt_address_optional_sample :
  decrypt (text (document (JStr "") (JStr sealed_mac) [])) foo world0
    = (Ok bob_account, derived foo).
Proof.
  apply (@decrypt_address_optional Reference.primitives
           (text (document (JStr "") (JStr sealed_mac) [])) foo world0
           (derived foo) (document (JStr "") (JStr sealed_mac) [])
           (key_of foo 1024) key1_bytes address1
           (ReferenceLaws.parse_stringify _) ltac:(compute_it)
           (proj2 (recovers_document _ JNull)) eq_refl).
Defined.

Lemma decrypt_type_errors_sample :
  decrypt (text (document (JStr "") JNull [])) foo world0
    = (Err TypeError, derived foo) /\
  decrypt (text (document (JNum 7) (JStr sealed_mac) [])) foo world0
    = (Err TypeError, derived foo).
Proof.
  split.
  - pose proof (@decrypt_type_errors Reference.primitives
                  (text (document (JStr "") JNull [])) foo world0
                  (derived foo) (document (JStr "") JNull [])
                  (key_of foo 1024)
                  (ReferenceLaws.parse_stringify _) ltac:(compute_it))
      as (T & _).
    apply (T (Some (JStr (hex_of_bytes (sealed_key 1024)))) (sealed_key 1024)
             (Some JNull)); try reflexivity.
    discriminate.
  - pose proof (@decrypt_type_errors Reference.primitives
                  (text (document (JNum 7) (JStr sealed_mac) [])) foo world0
                  (derived foo) (document (JNum 7) (JStr sealed_mac) [])
                  (key_of foo 1024)
                  (ReferenceLaws.parse_stringify _) ltac:(compute_it))
      as (_ & T).
    apply (T key1_bytes address1);
      [apply (proj2 (recovers_document _ JNull))|reflexivity|].
    discriminate.
Defined.

Lemma decrypt_isKeystoreAccount_sample :
  isKeystoreAccount (VAccount alice_account) = true.
Proof.
  apply (@decrypt_isKeystoreAccount Reference.primitives alice_text foo world0).
  compute_it.
Defined.

Lemma reference_pbkdf2_length (pw salt : bytes) (c : option Z) (hash h : string)
    (k : bytes) :
  Reference.pbkdf2 pw salt c 32 hash = Some h ->
  arrayify (BLHex h) = Ok k -> List.length k = 32%nat.
Proof.
  unfold Reference.pbkdf2. destruct c as [c|]; [|discriminate].
  destruct (0 <? c)%Z; [|discriminate]. intros [= <-].
  rewrite arrayify_hexlify. intros [= <-]. apply ReferenceLaws.stretch_length.
Qed.

Lemma decrypt_pbkdf2_mnemonic_sample :
  exists e,
    fst (decrypt (text (pbkdf2_wallet "hmac-sha256" 32 alice_x_ethers))
           foo world0) = Err e.
Proof.
  apply (@decrypt_pbkdf2_mnemonic Reference.primitives
           (text (pbkdf2_wallet "hmac-sha256" 32 alice_x_ethers)) foo world0
           (pbkdf2_wallet "hmac-sha256" 32 alice_x_ethers) "pbkdf2").
  - apply reference_pbkdf2_length.
  - intros iv c. cbn. unfold Reference.ctr. cbn.
    now destruct (List.length iv =? 16)%nat.
  - apply ReferenceLaws.parse_stringify.
  - reflexivity.
  - reflexivity.
  - reflexivity.
Defined.

(** The pbkdf2 document with [alice]'s [x-ethers] part passes the MAC and
    gives the private key, and fails at the cipher of the mnemonic. *)
Lemma decrypt_pbkdf2_mnemonic_cipher :
  fst (decrypt (text (pbkdf2_wallet "hmac-sha256" 32 [])) foo world0)
    = Ok bob_account /\
  fst (decrypt (text (pbkdf2_wallet "hmac-sha256" 32 alice_x_ethers))
         foo world0) = Err (PrimitiveFailure "aes-js").
Proof. split; compute_it. Qed.

Lemma decrypt_result_well_formed_sample :
  well_formed_account (account bob_account) = true /\
  checkAccount (account bob_account) = Ok tt.
Proof.
  destruct (@decrypt_result_well_formed Reference.primitives bob_text foo
              world0 bob_account ltac:(compute_it) eq_refl) as (T1 & T2).
  split; [exact T1|]. apply T2.
  apply (@getAddress_canonical Reference.primitives reference_laws).
Defined.

Lemma encrypt_fresh_values_sample :
  calls (encrypt bob foo None) world0 =
    [ScryptCall (getPassword foo) (map (rng world0) (seq 0 32))
       131072 8 1 64] /\
  exists data,
    bob_fresh_text = JSON_stringify data /\
    searchPath data "crypto/kdfparams/salt" =
      Ok (Some (JStr (hex_of_bytes (map (rng world0) (seq 0 32))))) /\
    searchPath data "crypto/cipherparams/iv" =
      Ok (Some (JStr (hex_of_bytes (map (rng world0) (seq 32 16))))) /\
    get_prop data "id" = Some (JStr (uuid_v4 (map (rng world0) (seq 48 16)))) /\
    if carries_mnemonic bob then
      searchPath data "x-ethers/mnemonicCounter" =
        Ok (Some (JStr (hex_of_bytes (map (rng world0) (seq 64 16))))) /\
      forall i, rng bob_fresh_world i = rng world0 (80 + i)%nat
    else forall i, rng bob_fresh_world i = rng world0 (64 + i)%nat.
Proof.
  apply (@encrypt_fresh_values Reference.primitives bob foo world0
           bob_fresh_world bob_fresh_text).
  unfold bob_fresh_world.
  destruct (encrypt bob foo None world0) as [r w'] eqn:E.
  cbn [snd]. f_equal.
  change r with (fst (r, w')). rewrite <- E. compute_it.
Defined.

Lemma encrypt_overrides_honoured_sample :
  exists salt_v iv_v uuid_v salt iv uuidRandom data,
    opt_salt overrides = Some salt_v /\ arrayify salt_v = Ok salt /\
    opt_iv overrides = Some iv_v /\ arrayify iv_v = Ok iv /\
    List.length iv = 16%nat /\
    opt_uuid overrides = Some uuid_v /\
    arrayify (BLHex uuid_v) = Ok uuidRandom /\
    List.length uuidRandom = 16%nat /\
    alice_text = JSON_stringify data /\
    searchPath data "crypto/kdfparams/salt" =
      Ok (Some (JStr (hex_of_bytes salt))) /\
    searchPath data "crypto/cipherparams/iv" =
      Ok (Some (JStr (hex_of_bytes iv))) /\
    get_prop data "id" = Some (JStr (uuid_v4 uuidRandom)) /\
    if carries_mnemonic alice then
      forall i, rng alice_world i = rng world0 (16 + i)%nat
    else rng alice_world = rng world0.
Proof.
  apply (@encrypt_overrides_honoured Reference.primitives alice foo overrides
           world0 alice_world alice_text); compute_it.
Defined.

Lemma encrypt_web3_document_sample :
  exists data k salt iv key ct,
    alice_text = JSON_stringify data /\
    keystore_document data /\
    arrayify (BLHex (privateKey alice)) = Ok k /\
    calls (encrypt alice foo (Some overrides)) world0 =
      [ScryptCall (getPassword foo) salt (scrypt_N (Some overrides))
         (scrypt_r (Some overrides)) (scrypt_p (Some overrides)) 64] /\
    scrypt (getPassword foo) salt (scrypt_N (Some overrides))
      (scrypt_r (Some overrides)) (scrypt_p (Some overrides)) 64 = Some key /\
    aes_ctr_encrypt (slice 0 16 key) iv k = Some ct /\
    web3_fields data (toLowerCase (substring_from 2 (address alice)))
      (hex_of_bytes iv) (hex_of_bytes ct) (hex_of_bytes salt)
      (scrypt_N (Some overrides)) (scrypt_p (Some overrides))
      (scrypt_r (Some overrides))
      (hex_of_bytes (keccak_256 (slice 16 32 key ++ ct)%list)) /\
    get_prop data "version" = Some (JNum 3).
Proof.
  apply (@encrypt_web3_document Reference.primitives alice foo
           (Some overrides) world0 alice_world alice_text).
  compute_it.
Defined.

Lemma encrypt_x_ethers_sample :
  (exists data,
     alice_text = JSON_stringify data /\
     if carries_mnemonic alice then
       exists m hex entropy salt key mnemonicIv mnemonicCiphertext,
         mnemonic alice = Some m /\
         mnemonicToEntropy m = Some hex /\
         arrayify (BLHex hex) = Ok entropy /\
         scrypt (getPassword foo) salt (scrypt_N (Some overrides))
           (scrypt_r (Some overrides)) (scrypt_p (Some overrides)) 64
           = Some key /\
         aes_ctr_encrypt (slice 32 64 key) mnemonicIv entropy
           = Some mnemonicCiphertext /\
         ethers_fields data (hex_of_bytes mnemonicIv)
           (hex_of_bytes mnemonicCiphertext) (or_defaultPath (path alice)) /\
         searchPath data "x-ethers/client" =
           Ok (Some (JStr (client_of (Some overrides)))) /\
         searchPath data "x-ethers/gethFilename" =
           Ok (Some (JStr ("UTC--" ++ timestamp (clock world0) ++ "--" ++
                           toLowerCase (substring_from 2 (address alice)))))
     else searchPath data "x-ethers" = Ok None) /\
  (exists data,
     bob_text = JSON_stringify data /\
     if carries_mnemonic bob then
       exists m hex entropy salt key mnemonicIv mnemonicCiphertext,
         mnemonic bob = Some m /\
         mnemonicToEntropy m = Some hex /\
         arrayify (BLHex hex) = Ok entropy /\
         scrypt (getPassword foo) salt (scrypt_N (Some overrides))
           (scrypt_r (Some overrides)) (scrypt_p (Some overrides)) 64
           = Some key /\
         aes_ctr_encrypt (slice 32 64 key) mnemonicIv entropy
           = Some mnemonicCiphertext /\
         ethers_fields data (hex_of_bytes mnemonicIv)
           (hex_of_bytes mnemonicCiphertext) (or_defaultPath (path bob)) /\
         searchPath data "x-ethers/client" =
           Ok (Some (JStr (client_of (Some overrides)))) /\
         searchPath data "x-ethers/gethFilename" =
           Ok (Some (JStr ("UTC--" ++ timestamp (clock world0) ++ "--" ++
                           toLowerCase (substring_from 2 (address bob)))))
     else searchPath data "x-ethers" = Ok None).
Proof.
  split.
  - apply (@encrypt_x_ethers Reference.primitives alice foo (Some overrides)
             world0 alice_world alice_text). compute_it.
  - apply (@encrypt_x_ethers Reference.primitives bob foo (Some overrides)
             world0 (derived foo) bob_text). compute_it.
Defined.

Lemma encrypt_no_overrides_sample :
  encrypt bob foo (Some falsy_overrides) world0 = encrypt bob foo None world0.
Proof.
  apply (@encrypt_no_overrides Reference.primitives bob foo falsy_overrides
           world0).
  reflexivity.
Defined.

Lemma encrypt_throws_or_rejects_sample :
  encrypt_call wrong_address foo None world0
    = (Rejected AddressPrivateKeyMismatch, world0) /\
  encrypt_call bob foo (Some salt_not_hex) world0
    = (Thrown InvalidHex, world0) /\
  encrypt_call bob foo (Some short_iv) world0 = (Thrown InvalidIv, world0) /\
  encrypt_call bob foo (Some short_uuid) world0
    = (Thrown InvalidUuid, world0).
Proof.
  pose proof (fun account options =>
    @encrypt_throws_or_rejects Reference.primitives account foo options
      world0) as T.
  split; [|split; [|split]].
  - apply (proj1 (T wrong_address None)). compute_it.
  - destruct (proj1 (proj2 (T bob (Some salt_not_hex))) key1_bytes None
                ltac:(compute_it) ltac:(compute_it) ltac:(compute_it))
      as (T1 & _).
    apply (T1 (BLHex "0xzz")); compute_it.
  - destruct (proj1 (proj2 (T bob (Some short_iv))) key1_bytes None
                ltac:(compute_it) ltac:(compute_it) ltac:(compute_it))
      as (_ & T1).
    destruct (T1 salt0 world0 ltac:(compute_it)) as (T2 & _).
    destruct (T2 (BLBytes (Reference.stretch 1 15)) eq_refl eq_refl)
      as (_ & T3).
    apply (T3 (Reference.stretch 1 15)); [reflexivity|].
    intros H. vm_compute in H. discriminate H.
  - destruct (proj1 (proj2 (T bob (Some short_uuid))) key1_bytes None
                ltac:(compute_it) ltac:(compute_it) ltac:(compute_it))
      as (_ & T1).
    destruct (T1 salt0 world0 ltac:(compute_it)) as (_ & T2).
    destruct (T2 iv0 world0 ltac:(compute_it)
                (hexlify (Reference.stretch 2 3)) eq_refl eq_refl)
      as (_ & T3).
    apply (T3 (Reference.stretch 2 3)); [compute_it|].
    intros H. vm_compute in H. discriminate H.
Defined.

Lemma decrypt_ignores_other_fields_sample :
  decrypt bob_text foo world0 =
  decrypt (text (JObj (bob_head ++ bob_tail))) foo world0.
Proof.
  apply (@decrypt_ignores_other_fields Reference.primitives bob_text
           (text (JObj (bob_head ++ bob_tail))) foo world0 bob_head bob_tail
           "version" (JNum 3)).
  - compute_it.
  - apply ReferenceLaws.parse_stringify.
  - discriminate.
  - discriminate.
  - discriminate.
Defined.

Lemma decrypt_error_causes_sample :
  decrypt_cause (pbkdf2_wallet "HMAC-SHA256" 32 []) UnsupportedPrf /\
  decrypt_cause (sealed address1 "aes-128-ctr" "scrypt" 1000 32)
    UnsupportedKdfNValue.
Proof.
  split.
  - apply (@decrypt_error_causes Reference.primitives
             (text (pbkdf2_wallet "HMAC-SHA256" 32 [])) foo world0).
    + apply ReferenceLaws.parse_stringify.
    + compute_it.
  - apply (@decrypt_error_causes Reference.primitives
             (text (sealed address1 "aes-128-ctr" "scrypt" 1000 32)) foo
             world0).
    + apply ReferenceLaws.parse_stringify.
    + compute_it.
Defined.

Lemma decrypt_verified_sample :
  exists (data : json) (key : bytes) (w1 : world) (ct_v iv_v : option json)
         (ciphertext iv plain : bytes) (mac : string),
    JSON_parse alice_text = Some data /\
    deriveKey data (getPassword foo) world0 = (Ok key, w1) /\
    searchPath data "crypto/ciphertext" = Ok ct_v /\
    looseArrayify ct_v = Ok ciphertext /\
    searchPath data "crypto/mac" = Ok (Some (JStr mac)) /\
    hex_of_bytes (keccak_256 (slice 16 32 key ++ ciphertext)%list)
      = toLowerCase mac /\
    searchPath data "crypto/cipher" = Ok (Some (JStr "aes-128-ctr")) /\
    searchPath data "crypto/cipherparams/iv" = Ok iv_v /\
    looseArrayify iv_v = Ok iv /\
    aes_ctr_decrypt (slice 0 16 key) iv ciphertext = Some plain /\
    privateKey (account alice_account) = hexlify plain /\
    computeAddress (BLBytes plain) = Ok (address (account alice_account)).
Proof.
  apply (@decrypt_verified Reference.primitives alice_text foo world0
           alice_account).
  compute_it.
Defined.

Lemma encrypt_error_causes_sample :
  encrypt_cause bob (Some short_iv) InvalidIv /\
  encrypt_cause wrong_address None AddressPrivateKeyMismatch.
Proof.
  split.
  - apply (@encrypt_error_causes Reference.primitives bob foo
             (Some short_iv) world0). compute_it.
  - apply (@encrypt_error_causes Reference.primitives wrong_address foo
             None world0). compute_it.
Defined.

Lemma encrypt_account_checked_sample :
  (exists canonical,
     getAddress (address alice) = Some canonical /\
     computeAddress (BLHex (privateKey alice)) = Ok canonical) /\
  match mnemonic alice with
  | Some m =>
      exists node,
        hdDerive m (or_defaultPath (path alice)) = Ok node /\
        node_privateKey node = privateKey alice
  | None => path alice = None
  end.
Proof.
  apply (@encrypt_account_checked Reference.primitives alice foo
           (Some overrides) world0 alice_text).
  compute_it.
Defined.

Lemma timestamp_format_sample :
  timestamp date0 = "2020-01-05T03-04-59.0Z" /\
  String.length (timestamp date0) = 22%nat.
Proof.
  apply (@timestamp_format date0). unfold calendar_date. cbn. lia.
Defined.

End Samples.
